(** * kojirou: the MangaDex download pipeline

    A shallow embedding of [cmd/formats/download/root.go] and of the records
    of [mangadex/unstructured.go], with the properties of the pipeline that
    the specification states.

    The sequential part ([getImage], [PathItem.WithImage]) is embedded as
    functions.  The goroutine pipelines ([MangadexPages], [MangadexCovers],
    [chaptersToPaths], [pathsToImages]) are embedded as executable
    transition systems: a state records the control point of every
    goroutine, and a schedule (a list of actions) picks which goroutine
    moves next and which ready branch of a [select] it takes.  The context
    of a run is a flag of the state; it is handed to the collaborators
    wherever the source hands them [ctx]. *)

From Stdlib Require Import ZArith List Lia Permutation.
From Equations Require Import Equations.
From stdpp Require Import base tactics option list strings.

Set Default Proof Using "Type".

(** ** Data model *)

(** Modelled from the spec: [mangadex.Identifier] is declared outside the
    files at hand; the pipeline only copies and prints it, so it is taken to
    be its printed form. *)
Definition Identifier := string.

(** A decoded bitmap.  [image.Image] is an interface value: [None] is the
    nil image. *)
Definition Bitmap := list Z.
Definition Image := option Bitmap.

Module ImageItem.
Record t := mk {
  Image : option Bitmap;
  imageID : Z;
  chapterID : Identifier;
  volumeID : Identifier
}.
(** The zero value of the struct, as [make(md.ImageList, n)] fills it in. *)
Definition zero : t := mk None 0%Z EmptyString EmptyString.
End ImageItem.

Module PathItem.
Record t := mk {
  URL : string;
  imageID : Z;
  chapterID : Identifier;
  volumeID : Identifier
}.

(** [func (i PathItem) WithImage(img image.Image) ImageItem] *)
Definition WithImage (i : t) (img : Image) : ImageItem.t :=
  {| ImageItem.Image := img;
     ImageItem.chapterID := chapterID i;
     ImageItem.volumeID := volumeID i;
     ImageItem.imageID := imageID i |}.

(** [root.go] reads the provenance through exported names. *)
Definition ChapterIdentifier (i : t) : Identifier := chapterID i.
Definition ImageIdentifier (i : t) : Z := imageID i.
End PathItem.

Module ChapterInfo.
Definition ident := Identifier.
Record t := mk {
  Title : string;
  Views : Z;
  Region : string;
  GroupNames : list string;
  Hash : string;
  ID : Z;
  Identifier : ident;
  VolumeIdentifier : ident
}.
End ChapterInfo.

Module MangaInfo.
Record t := mk {
  Title : string;
  Authors : list string;
  Artists : list string;
  IsHentai : bool;
  ID : Z
}.
End MangaInfo.

(** [md.Chapter] and [md.Manga]: the pipeline reads [chapter.Info.Identifier]
    and [manga.Info.ID] only. *)
Module Chapter.
Record t := mk { Info : ChapterInfo.t }.
End Chapter.

Module Manga.
Record t := mk { Info : MangaInfo.t }.
End Manga.

Definition PathList := list PathItem.t.
Definition ImageList := list ImageItem.t.
Definition ChapterList := list Chapter.t.

(** ** Errors

    Go error values, with the wrapping that [fmt.Errorf] builds in
    [root.go] kept as structure. *)
Inductive error :=
| External (msg : string)                                (* from a collaborator *)
| Canceled                                               (* "canceled" *)
| PrepareErr (e : error)                                 (* "prepare: %w" *)
| DoErr (e : error)                                      (* "do: %w" *)
| StatusErr (status : string)                            (* "status: %v" *)
| DecodeErr (e : error)                                  (* "decode: %w" *)
| ChapterPathsErr (chapter : Identifier) (e : error)     (* "chapter %v: paths: %w" *)
| ChapterImageErr (chapter : Identifier) (image : Z) (e : error).
                                                         (* "chapter %v: image %v: %w" *)

Inductive result (A : Type) :=
| Ok (a : A)
| Err (e : error).
Arguments Ok {A} a.
Arguments Err {A} e.

Definition is_ok {A} (r : result A) : bool :=
  match r with Ok _ => true | Err _ => false end.

(** ** Contexts

    [root.go] hands the context of the run to every call on the catalog
    client and, inside the request, to every call on the HTTP client.  What
    the callee can learn from a [context.Context] is whether it is done:
    that is what it is handed here, read when the call is answered. *)
Inductive Context :=
| CtxLive     (* ctx.Err() == nil *)
| CtxDone.    (* ctx.Done() is closed *)

Definition context (done : bool) : Context :=
  if done then CtxDone else CtxLive.

(** ** Collaborators

    What the pipeline calls and does not implement: the catalog client, the
    HTTP client and the image codecs.  The catalog client and the HTTP
    client are handed the context.  An HTTP exchange may answer differently
    each time it is tried, so [Do] also takes the number of the attempt.
    [http.NewRequestWithContext] stores the context in the request without
    looking at its state. *)
Record Response := {
  StatusCode : Z;
  Status : string;
  Body : string
}.

Record Env := {
  FetchPaths : Context -> Chapter.t -> result PathList;
  FetchCovers : Context -> Z -> result PathList;
  NewRequest : string -> option error;
  Do : Context -> string -> Z -> result Response;
  Decode : string -> Image * option error
}.

(** A collaborator honours the context when it refuses a call whose context
    is done: it returns an error and starts no request. *)
Definition honours_context (env : Env) : Prop :=
  (forall c, is_ok (FetchPaths env CtxDone c) = false) /\
  (forall url try, is_ok (Do env CtxDone url try) = false).

(** ** getImage *)

Definition uint_add1 (n : Z) : Z := ((n + 1) mod 2 ^ 64)%Z.

Section GetImage.
Variable env : Env.

(** [getImage(client, ctx, url, try)], [try] an unsigned 64-bit counter. *)
Equations? getImage (ctx : Context) (url : string) (try : Z) : result Image
  by wf (Z.to_nat (11 - try)%Z) lt :=
getImage ctx url try with NewRequest env url := {
  | Some err => Err (PrepareErr err)
  | None with Do env ctx url try := {
    | Err err => Err (DoErr err)
    | Ok resp with Z.eqb (StatusCode resp) 200%Z := {
      | false => Err (StatusErr (Status resp))
      | true with Decode env (Body resp) := {
        | (img, err) with decide (img = None /\ (try <= 10)%Z) := {
          | left Hretry => getImage ctx url (uint_add1 try)
          | right _ with err := {
            | Some e => Err (DecodeErr e)
            | None => Ok img } } } } } }.
Proof.
  unfold uint_add1.
  pose proof (Z.mod_pos_bound (try + 1)%Z (2 ^ 64)%Z ltac:(lia)) as Hm.
  destruct (Z_lt_le_dec try 0%Z) as [Hneg|Hpos]; [lia|].
  rewrite Z.mod_small in *; lia.
Qed.

(** The number of requests handed to the HTTP client ([client.Do]) by
    [getImage url try], retries included. *)
Equations? getImage_requests (ctx : Context) (url : string) (try : Z) : nat
  by wf (Z.to_nat (11 - try)%Z) lt :=
getImage_requests ctx url try with NewRequest env url := {
  | Some err => 0
  | None with Do env ctx url try := {
    | Err err => 1
    | Ok resp with Z.eqb (StatusCode resp) 200%Z := {
      | false => 1
      | true with Decode env (Body resp) := {
        | (img, err) with decide (img = None /\ (try <= 10)%Z) := {
          | left Hretry => S (getImage_requests ctx url (uint_add1 try))
          | right _ => 1 } } } } }.
Proof.
  unfold uint_add1.
  pose proof (Z.mod_pos_bound (try + 1)%Z (2 ^ 64)%Z ltac:(lia)) as Hm.
  destruct (Z_lt_le_dec try 0%Z) as [Hneg|Hpos]; [lia|].
  rewrite Z.mod_small in *; lia.
Qed.
End GetImage.


(** ** What the pipeline does that can be observed

    The calls on the progress reporter, the calls on the collaborators, the
    handoffs on the two channels and the calls of [cancel].  A progress call
    is tagged with the unit of work it reports; the reporter itself only
    sees [Increase(1)] or [Add(1)]. *)
Inductive WorkUnit :=
| UChapter (c : Chapter.t)
| UPage (p : PathItem.t)
| UImage (it : ImageItem.t).

Inductive Call :=
| Increase (n : Z) (u : WorkUnit)               (* p.Increase(n): work discovered *)
| Add (n : Z) (u : WorkUnit).                   (* p.Add(n): work completed *)

Inductive Event :=
| Progress (call : Call)
| FetchPathsCall (ctx : Context) (c : Chapter.t)
                                     (* FetchPaths(ctx, &chapter) entered *)
| GetImageCall (ctx : Context) (p : PathItem.t)
                                     (* getImage(httpClient, ctx, path.URL, 0) entered *)
| PathSent (c : Chapter.t) (p : PathItem.t)     (* ch <- path done *)
| ImageSent (p : PathItem.t) (it : ImageItem.t) (* ch <- path.WithImage(image) done *)
| CancelCalled.                                 (* cancel() *)

(** What the progress reporter has been told. *)
Definition calls (log : list Event) : list Call :=
  omap (fun ev => match ev with Progress c => Some c | _ => None end) log.

(** ** errgroup

    A group keeps the first non-nil error it is handed ([errOnce]).  With
    [SetLimit(n)] at most [n] goroutines of the group are alive, and [Go]
    waits for a free slot. *)
Definition record_err (old new : option error) : option error :=
  match old with
  | Some _ => old
  | None => new
  end.

Definition maxJobsChapter : nat := 8.
Definition maxJobsImage : nat := 16.

(** The goroutine that runs the [for { select { ... } }] loop of a stage. *)
Inductive Dispatcher (A : Type) :=
| DSelect                       (* at the select *)
| DGo (a : A)                   (* received a, inside eg.Go waiting for a slot *)
| DReturn (e : option error)    (* returned e; the group has not yet noted it *)
| DExit.                        (* gone *)
Arguments DSelect {A}.
Arguments DGo {A} a.
Arguments DReturn {A} e.
Arguments DExit {A}.

(** The moves of a stage that involve no channel partner. *)
Inductive StageAction :=
| DispCanceled             (* dispatcher takes case <-ctx.Done() *)
| DispClosed               (* dispatcher receives !ok from the closed input *)
| DispSpawn                (* eg.Go obtains a slot and launches the worker *)
| DispExit                 (* the dispatcher's return value reaches the group *)
| WorkerStep (i : nat)     (* worker i runs to its next control point *)
| WorkerBlock (i : nat)    (* no case of the select of worker i is ready: it blocks *)
| WorkerCanceled (i : nat) (* worker i takes case <-ctx.Done() *)
| Close.                   (* eg.Wait() is over: close(ch) *)

(** ** chaptersToPaths *)

(** Control points of the closure passed to the inner [eg.Go]. *)
Inductive PathWorker :=
| PStart (c : Chapter.t)                          (* launched *)
| PFetching (c : Chapter.t)                       (* inside FetchPaths *)
| PFailed (c : Chapter.t) (e : error)             (* err != nil; deferred cancel to run *)
| PAdd (c : Chapter.t) (ps : PathList)            (* before p.Add(1) *)
| PEmit (c : Chapter.t) (ps : PathList)           (* head of the range loop over ps *)
| PBlocked (c : Chapter.t) (p : PathItem.t) (ps : PathList)
                                                  (* blocked in the select on p *)
| PIncrease (c : Chapter.t) (p : PathItem.t) (ps : PathList)  (* p sent; before p.Increase(1) *)
| PReturn (c : Chapter.t) (e : option error).     (* returned e; the group has not yet noted it *)

Record PathStage := {
  pdisp : Dispatcher Chapter.t;
  pworkers : list PathWorker;
  perr : option error;
  paths_closed : bool
}.

Definition path_stage0 : PathStage :=
  {| pdisp := DSelect; pworkers := []; perr := None; paths_closed := false |}.

Definition set_pdisp (d : Dispatcher Chapter.t) (st : PathStage) : PathStage :=
  {| pdisp := d; pworkers := pworkers st; perr := perr st;
     paths_closed := paths_closed st |}.

Definition set_pworker (i : nat) (w : PathWorker) (st : PathStage) : PathStage :=
  {| pdisp := pdisp st; pworkers := <[i := w]> (pworkers st); perr := perr st;
     paths_closed := paths_closed st |}.

Section PathStage.
Variable env : Env.

(** [ctx_done]: the context of the stage is done.  The call of
    [FetchPaths] is answered in one move, under the context as it is
    then. *)
Definition path_worker_step (ctx_done : bool) (i : nat) (st : PathStage)
  : option (PathStage * list Event) :=
  match pworkers st !! i with
  | Some (PStart c) =>
      Some (set_pworker i (PFetching c) st,
            [FetchPathsCall (context ctx_done) c])
  | Some (PFetching c) =>
      match FetchPaths env (context ctx_done) c with
      | Err err =>
          let e := ChapterPathsErr (ChapterInfo.Identifier (Chapter.Info c)) err in
          Some (set_pworker i (PFailed c e) st, [])
      | Ok paths => Some (set_pworker i (PAdd c paths) st, [])
      end
  | Some (PFailed c e) =>
      Some (set_pworker i (PReturn c (Some e)) st, [CancelCalled])
  | Some (PAdd c ps) =>
      Some (set_pworker i (PEmit c ps) st, [Progress (Add 1 (UChapter c))])
  | Some (PEmit c []) =>
      Some (set_pworker i (PReturn c None) st, [])
  | Some (PEmit c (_ :: _)) => None
  | Some (PBlocked c _ _) => None
  | Some (PIncrease c p ps) =>
      Some (set_pworker i (PEmit c ps) st, [Progress (Increase 1 (UPage p))])
  | Some (PReturn c e) =>
      Some ({| pdisp := pdisp st; pworkers := delete i (pworkers st);
               perr := record_err (perr st) e;
               paths_closed := paths_closed st |}, [])
  | None => None
  end.

(** [closed_in]: the input channel has been closed.

    A worker that finds neither case of its [select] ready blocks in it.
    From then on the first case to become ready is taken: once the context
    is done, a blocked worker takes [case <-ctx.Done()]. *)
Definition path_step (a : StageAction) (ctx_done closed_in : bool)
    (st : PathStage) : option (PathStage * list Event) :=
  match a with
  | DispCanceled =>
      match pdisp st with
      | DSelect =>
          if ctx_done then Some (set_pdisp (DReturn (Some Canceled)) st, [])
          else None
      | _ => None
      end
  | DispClosed =>
      match pdisp st with
      | DSelect =>
          if closed_in then Some (set_pdisp (DReturn None) st, []) else None
      | _ => None
      end
  | DispSpawn =>
      match pdisp st with
      | DGo c =>
          (* the dispatcher holds one of the maxJobsChapter + 1 slots *)
          if decide (1 + length (pworkers st) < maxJobsChapter + 1)
          then Some ({| pdisp := DSelect;
                        pworkers := pworkers st ++ [PStart c];
                        perr := perr st;
                        paths_closed := paths_closed st |}, [])
          else None
      | _ => None
      end
  | DispExit =>
      match pdisp st with
      | DReturn e =>
          Some ({| pdisp := DExit; pworkers := pworkers st;
                   perr := record_err (perr st) e;
                   paths_closed := paths_closed st |}, [])
      | _ => None
      end
  | WorkerStep i => path_worker_step ctx_done i st
  | WorkerBlock i =>
      match pworkers st !! i with
      | Some (PEmit c (p :: ps)) =>
          if ctx_done then None
          else Some (set_pworker i (PBlocked c p ps) st, [])
      | _ => None
      end
  | WorkerCanceled i =>
      match pworkers st !! i with
      | Some (PEmit c (_ :: _)) | Some (PBlocked c _ _) =>
          if ctx_done
          then Some (set_pworker i (PReturn c (Some Canceled)) st, [])
          else None
      | _ => None
      end
  | Close =>
      match pdisp st, pworkers st, paths_closed st with
      | DExit, [], false =>
          Some ({| pdisp := DExit; pworkers := []; perr := perr st;
                   paths_closed := true |}, [])
      | _, _, _ => None
      end
  end.

(** The dispatcher takes [case chapter, ok := <-chapters] with [ok]. *)
Definition path_recv (c : Chapter.t) (st : PathStage) : option PathStage :=
  match pdisp st with
  | DSelect => Some (set_pdisp (DGo c) st)
  | _ => None
  end.

(** Worker [i] takes [case ch <- path].  A worker that is blocked in the
    select takes it only while the context is not done. *)
Definition path_send (ctx_done : bool) (i : nat) (st : PathStage)
  : option (Chapter.t * PathItem.t * PathStage) :=
  match pworkers st !! i with
  | Some (PEmit c (p :: ps)) => Some (c, p, set_pworker i (PIncrease c p ps) st)
  | Some (PBlocked c p ps) =>
      if ctx_done then None
      else Some (c, p, set_pworker i (PIncrease c p ps) st)
  | _ => None
  end.
End PathStage.

(** ** pathsToImages *)

Inductive ImageWorker :=
| IStart (p : PathItem.t)                         (* launched *)
| IFetching (p : PathItem.t)                      (* inside getImage *)
| IFailed (p : PathItem.t) (e : error)            (* err != nil; deferred cancel to run *)
| IEmit (p : PathItem.t) (img : Image)            (* at the select *)
| IBlocked (p : PathItem.t) (img : Image)         (* blocked in the select *)
| IReturn (p : PathItem.t) (e : option error).    (* returned e; the group has not yet noted it *)

Record ImageStage := {
  idisp : Dispatcher PathItem.t;
  iworkers : list ImageWorker;
  ierr : option error;
  images_closed : bool
}.

Definition image_stage0 : ImageStage :=
  {| idisp := DSelect; iworkers := []; ierr := None; images_closed := false |}.

Definition set_idisp (d : Dispatcher PathItem.t) (st : ImageStage) : ImageStage :=
  {| idisp := d; iworkers := iworkers st; ierr := ierr st;
     images_closed := images_closed st |}.

Definition set_iworker (i : nat) (w : ImageWorker) (st : ImageStage) : ImageStage :=
  {| idisp := idisp st; iworkers := <[i := w]> (iworkers st); ierr := ierr st;
     images_closed := images_closed st |}.

Section ImageStage.
Variable env : Env.

(** The call of [getImage], retries included, is answered in one move,
    under the context as it is then. *)
Definition image_worker_step (ctx_done : bool) (i : nat) (st : ImageStage)
  : option (ImageStage * list Event) :=
  match iworkers st !! i with
  | Some (IStart p) =>
      Some (set_iworker i (IFetching p) st,
            [GetImageCall (context ctx_done) p])
  | Some (IFetching p) =>
      match getImage env (context ctx_done) (PathItem.URL p) 0%Z with
      | Err err =>
          let e := ChapterImageErr (PathItem.ChapterIdentifier p)
                                   (PathItem.ImageIdentifier p) err in
          Some (set_iworker i (IFailed p e) st, [])
      | Ok image => Some (set_iworker i (IEmit p image) st, [])
      end
  | Some (IFailed p e) =>
      Some (set_iworker i (IReturn p (Some e)) st, [CancelCalled])
  | Some (IEmit p img) => None
  | Some (IBlocked p img) => None
  | Some (IReturn p e) =>
      Some ({| idisp := idisp st; iworkers := delete i (iworkers st);
               ierr := record_err (ierr st) e;
               images_closed := images_closed st |}, [])
  | None => None
  end.

Definition image_step (a : StageAction) (ctx_done closed_in : bool)
    (st : ImageStage) : option (ImageStage * list Event) :=
  match a with
  | DispCanceled =>
      match idisp st with
      | DSelect =>
          if ctx_done then Some (set_idisp (DReturn (Some Canceled)) st, [])
          else None
      | _ => None
      end
  | DispClosed =>
      match idisp st with
      | DSelect =>
          if closed_in then Some (set_idisp (DReturn None) st, []) else None
      | _ => None
      end
  | DispSpawn =>
      match idisp st with
      | DGo p =>
          (* the dispatcher holds one of the maxJobsImage + 1 slots *)
          if decide (1 + length (iworkers st) < maxJobsImage + 1)
          then Some ({| idisp := DSelect;
                        iworkers := iworkers st ++ [IStart p];
                        ierr := ierr st;
                        images_closed := images_closed st |}, [])
          else None
      | _ => None
      end
  | DispExit =>
      match idisp st with
      | DReturn e =>
          Some ({| idisp := DExit; iworkers := iworkers st;
                   ierr := record_err (ierr st) e;
                   images_closed := images_closed st |}, [])
      | _ => None
      end
  | WorkerStep i => image_worker_step ctx_done i st
  | WorkerBlock i =>
      match iworkers st !! i with
      | Some (IEmit p img) =>
          if ctx_done then None
          else Some (set_iworker i (IBlocked p img) st, [])
      | _ => None
      end
  | WorkerCanceled i =>
      match iworkers st !! i with
      | Some (IEmit p _) | Some (IBlocked p _) =>
          if ctx_done
          then Some (set_iworker i (IReturn p (Some Canceled)) st, [])
          else None
      | _ => None
      end
  | Close =>
      match idisp st, iworkers st, images_closed st with
      | DExit, [], false =>
          Some ({| idisp := DExit; iworkers := []; ierr := ierr st;
                   images_closed := true |}, [])
      | _, _, _ => None
      end
  end.

(** The dispatcher takes [case path, ok := <-paths] with [ok]. *)
Definition image_recv (p : PathItem.t) (st : ImageStage) : option ImageStage :=
  match idisp st with
  | DSelect => Some (set_idisp (DGo p) st)
  | _ => None
  end.

(** Worker [i] takes [case ch <- path.WithImage(image)] and returns nil.  A
    worker that is blocked in the select takes it only while the context is
    not done. *)
Definition image_send (ctx_done : bool) (i : nat) (st : ImageStage)
  : option (PathItem.t * ImageItem.t * ImageStage) :=
  match iworkers st !! i with
  | Some (IEmit p img) =>
      Some (p, PathItem.WithImage p img, set_iworker i (IReturn p None) st)
  | Some (IBlocked p img) =>
      if ctx_done then None
      else Some (p, PathItem.WithImage p img, set_iworker i (IReturn p None) st)
  | _ => None
  end.
End ImageStage.

(** A stage is over when its dispatcher and all its workers have left: this
    is when [eg.Wait()] returns. *)
Definition path_over (st : PathStage) : bool :=
  match pdisp st, pworkers st with
  | DExit, [] => true
  | _, _ => false
  end.

Definition image_over (st : ImageStage) : bool :=
  match idisp st, iworkers st with
  | DExit, [] => true
  | _, _ => false
  end.

(** The goroutine of the caller: [for image := range images { ... }], then
    [eg.Wait()] and the return. *)
Inductive Main :=
| MRange                          (* receiving from images *)
| MGot (it : ImageItem.t)         (* received it; before p.Add(1) and append *)
| MWait                           (* images closed; inside eg.Wait() *)
| MReturned (r : option ImageList * option error).

Definition returned (m : Main) : bool :=
  match m with MReturned _ => true | _ => false end.

(** The value returned for the group error [e] and the collected list. *)
Definition return_value (e : option error) (results : ImageList)
  : option ImageList * option error :=
  match e with
  | Some err => (None, Some err)
  | None => (Some results, None)
  end.

Definition has_cancel (evs : list Event) : bool :=
  existsb (fun ev => match ev with CancelCalled => true | _ => false end) evs.

(** ** MangadexPages

    One context tree hangs under the [cancel] of [MangadexPages]: the
    contexts of the three groups are derived from it and are done as soon
    as [cancel] has been called.  A group also cancels its own context when
    it notes an error or when its [Wait] returns; by then every goroutine
    that selects on that context has either called [cancel] itself or
    already seen the context done, or has left, so one flag stands for all
    four contexts.

    A handoff is a move of both partners.  A [select] with two ready cases
    takes either: a worker that gets to its [select] after [cancel] while
    its partner is ready may still hand over.  A worker that has blocked in
    its [select] is woken by the case that becomes ready first: once the
    context is done it leaves through [case <-ctx.Done()]. *)
Module Pages.

(** [go func() { for _, chapter := range chapterList { chapters <- chapter;
    p.Increase(1) }; close(chapters) }()] *)
Inductive Feeder :=
| FSend (l : ChapterList)                   (* head of the loop over l *)
| FIncrease (c : Chapter.t) (l : ChapterList) (* c sent; before p.Increase(1) *)
| FClosed.

(** [eg.Go(childEg.Wait)] *)
Inductive Waiter := WWaiting | WDone.

Record State := {
  feeder : Feeder;
  pstage : PathStage;
  istage : ImageStage;
  pwait : Waiter;
  iwait : Waiter;
  err : option error;        (* of the group of MangadexPages *)
  main : Main;
  results : ImageList;
  canceled : bool;
  log : list Event
}.

Inductive Action :=
| FeederSend               (* chapters <- chapter meets the dispatcher's receive *)
| FeederIncrease           (* p.Increase(1) *)
| FeederClose              (* close(chapters) *)
| Paths (a : StageAction)
| PathHandoff (i : nat)    (* ch <- path of worker i meets the image dispatcher's receive *)
| Images (a : StageAction)
| ImageHandoff (i : nat)   (* the send of image worker i meets the range receive *)
| MainAppend               (* p.Add(1); results = append(results, image) *)
| MainClosed               (* the range loop ends on the closed channel *)
| WaitPaths                (* childEg.Wait of chaptersToPaths returns into the group *)
| WaitImages               (* childEg.Wait of pathsToImages returns into the group *)
| MainReturn.              (* eg.Wait() returns; deferred cancel() *)

Definition init (chapterList : ChapterList) : State :=
  {| feeder := FSend chapterList;
     pstage := path_stage0;
     istage := image_stage0;
     pwait := WWaiting;
     iwait := WWaiting;
     err := None;
     main := MRange;
     results := [];
     canceled := false;
     log := [] |}.

Definition set_feeder (f : Feeder) (s : State) : State :=
  {| feeder := f; pstage := pstage s; istage := istage s; pwait := pwait s;
     iwait := iwait s; err := err s; main := main s; results := results s;
     canceled := canceled s; log := log s |}.

Definition set_pstage (st : PathStage) (s : State) : State :=
  {| feeder := feeder s; pstage := st; istage := istage s; pwait := pwait s;
     iwait := iwait s; err := err s; main := main s; results := results s;
     canceled := canceled s; log := log s |}.

Definition set_istage (st : ImageStage) (s : State) : State :=
  {| feeder := feeder s; pstage := pstage s; istage := st; pwait := pwait s;
     iwait := iwait s; err := err s; main := main s; results := results s;
     canceled := canceled s; log := log s |}.

Definition set_main (m : Main) (s : State) : State :=
  {| feeder := feeder s; pstage := pstage s; istage := istage s;
     pwait := pwait s; iwait := iwait s; err := err s; main := m;
     results := results s; canceled := canceled s; log := log s |}.

(** Append what a move did to the log; a [cancel()] among it sets the flag. *)
Definition emit (evs : list Event) (s : State) : State :=
  {| feeder := feeder s; pstage := pstage s; istage := istage s;
     pwait := pwait s; iwait := iwait s; err := err s; main := main s;
     results := results s;
     canceled := canceled s || has_cancel evs;
     log := log s ++ evs |}.

Section Step.
Variable env : Env.

Definition chapters_closed (s : State) : bool :=
  match feeder s with FClosed => true | _ => false end.

Definition step (a : Action) (s : State) : option State :=
  match a with
  | FeederSend =>
      match feeder s with
      | FSend (c :: l) =>
          st ← path_recv c (pstage s);
          Some (set_feeder (FIncrease c l) (set_pstage st s))
      | _ => None
      end
  | FeederIncrease =>
      match feeder s with
      | FIncrease c l =>
          Some (emit [Progress (Increase 1 (UChapter c))] (set_feeder (FSend l) s))
      | _ => None
      end
  | FeederClose =>
      match feeder s with
      | FSend [] => Some (set_feeder FClosed s)
      | _ => None
      end
  | Paths a =>
      '(st, evs) ← path_step env a (canceled s) (chapters_closed s) (pstage s);
      Some (emit evs (set_pstage st s))
  | PathHandoff i =>
      '(c, p, pst) ← path_send (canceled s) i (pstage s);
      ist ← image_recv p (istage s);
      Some (emit [PathSent c p] (set_istage ist (set_pstage pst s)))
  | Images a =>
      '(st, evs) ← image_step env a (canceled s) (paths_closed (pstage s))
                               (istage s);
      Some (emit evs (set_istage st s))
  | ImageHandoff i =>
      match main s with
      | MRange =>
          '(p, it, ist) ← image_send (canceled s) i (istage s);
          Some (emit [ImageSent p it] (set_main (MGot it) (set_istage ist s)))
      | _ => None
      end
  | MainAppend =>
      match main s with
      | MGot it =>
          Some {| feeder := feeder s; pstage := pstage s; istage := istage s;
                  pwait := pwait s; iwait := iwait s; err := err s;
                  main := MRange;
                  results := results s ++ [it];
                  canceled := canceled s;
                  log := log s ++ [Progress (Add 1 (UImage it))] |}
      | _ => None
      end
  | MainClosed =>
      match main s with
      | MRange =>
          if images_closed (istage s) then Some (set_main MWait s) else None
      | _ => None
      end
  | WaitPaths =>
      match pwait s with
      | WWaiting =>
          if path_over (pstage s)
          then Some {| feeder := feeder s; pstage := pstage s;
                       istage := istage s;
                       pwait := WDone; iwait := iwait s;
                       err := record_err (err s) (perr (pstage s));
                       main := main s; results := results s;
                       canceled := canceled s; log := log s |}
          else None
      | WDone => None
      end
  | WaitImages =>
      match iwait s with
      | WWaiting =>
          if image_over (istage s)
          then Some {| feeder := feeder s; pstage := pstage s;
                       istage := istage s;
                       pwait := pwait s; iwait := WDone;
                       err := record_err (err s) (ierr (istage s));
                       main := main s; results := results s;
                       canceled := canceled s; log := log s |}
          else None
      | WDone => None
      end
  | MainReturn =>
      match main s, pwait s, iwait s with
      | MWait, WDone, WDone =>
          Some (emit [CancelCalled]
                  (set_main (MReturned (return_value (err s) (results s))) s))
      | _, _, _ => None
      end
  end.

(** A schedule is run from left to right; it is refused as a whole as
    soon as one of its moves is not possible. *)
Fixpoint run (sched : list Action) (s : State) : option State :=
  match sched with
  | [] => Some s
  | a :: sched' => s' ← step a s; run sched' s'
  end.

Definition reachable (chapterList : ChapterList) (s : State) : Prop :=
  exists sched, run sched (init chapterList) = Some s.

(** The moves that can be possible in [s] at all. *)
Definition stage_actions (n : nat) : list StageAction :=
  [DispCanceled; DispClosed; DispSpawn; DispExit; Close]
  ++ map WorkerStep (seq 0 n) ++ map WorkerCanceled (seq 0 n)
  ++ map WorkerBlock (seq 0 n).

Definition candidates (s : State) : list Action :=
  [MainReturn; MainClosed; MainAppend; WaitPaths; WaitImages]
  ++ map ImageHandoff (seq 0 (length (iworkers (istage s))))
  ++ map Images (stage_actions (length (iworkers (istage s))))
  ++ map PathHandoff (seq 0 (length (pworkers (pstage s))))
  ++ map Paths (stage_actions (length (pworkers (pstage s))))
  ++ [FeederIncrease; FeederSend; FeederClose].

Definition enabled (s : State) : list Action :=
  filter (fun a => is_Some (step a s)) (candidates s).

(** The scheduler that always takes the first possible move. *)
Fixpoint first_schedule (fuel : nat) (s : State) : list Action :=
  match fuel with
  | O => []
  | S fuel' =>
      match enabled s with
      | a :: _ =>
          match step a s with
          | Some s' => a :: first_schedule fuel' s'
          | None => []
          end
      | [] => []
      end
  end.
End Step.
End Pages.


(** * Analysis of the stages *)

(** ** What remains to be reported

    The progress calls that a unit of work still has ahead of it when
    nothing fails.  They are the bookkeeping behind the counting claims:
    as long as nothing has failed, the calls made so far together with the
    calls ahead are those of the whole chapter list.  As long as nothing has
    failed nobody has called [cancel], so the collaborators are taken with
    the live context. *)
Section Expected.
Variable env : Env.

Definition image_calls (p : PathItem.t) : list Call :=
  match getImage env CtxLive (PathItem.URL p) 0%Z with
  | Ok img => [Add 1 (UImage (PathItem.WithImage p img))]
  | Err _ => []
  end.

Definition page_calls (p : PathItem.t) : list Call :=
  Increase 1 (UPage p) :: image_calls p.

Definition manifest_calls (c : Chapter.t) : list Call :=
  match FetchPaths env CtxLive c with
  | Ok ps => Add 1 (UChapter c) :: flat_map page_calls ps
  | Err _ => []
  end.

Definition chapter_calls (c : Chapter.t) : list Call :=
  Increase 1 (UChapter c) :: manifest_calls c.

Definition expected_calls (l : ChapterList) : list Call :=
  flat_map chapter_calls l.

(** The images of a page and of a chapter list. *)
Definition page_images (p : PathItem.t) : ImageList :=
  match getImage env CtxLive (PathItem.URL p) 0%Z with
  | Ok img => [PathItem.WithImage p img]
  | Err _ => []
  end.

Definition chapter_images (c : Chapter.t) : ImageList :=
  match FetchPaths env CtxLive c with
  | Ok ps => flat_map page_images ps
  | Err _ => []
  end.

Definition expected_images (l : ChapterList) : ImageList :=
  flat_map chapter_images l.

Definition disp_future {A} (f : A -> list Call) (d : Dispatcher A) : list Call :=
  match d with
  | DGo a => f a
  | _ => []
  end.

Definition pw_future (w : PathWorker) : list Call :=
  match w with
  | PStart c | PFetching c => manifest_calls c
  | PAdd c ps => Add 1 (UChapter c) :: flat_map page_calls ps
  | PEmit c ps => flat_map page_calls ps
  | PBlocked c p ps => flat_map page_calls (p :: ps)
  | PIncrease c p ps => Increase 1 (UPage p) :: flat_map page_calls ps
  | PFailed _ _ | PReturn _ _ => []
  end.

Definition path_future (st : PathStage) : list Call :=
  disp_future manifest_calls (pdisp st) ++ flat_map pw_future (pworkers st).

Definition iw_future (w : ImageWorker) : list Call :=
  match w with
  | IStart p | IFetching p => image_calls p
  | IEmit p img | IBlocked p img => [Add 1 (UImage (PathItem.WithImage p img))]
  | IFailed _ _ | IReturn _ _ => []
  end.

Definition image_future (st : ImageStage) : list Call :=
  disp_future image_calls (idisp st) ++ flat_map iw_future (iworkers st).
End Expected.

(** ** Evidence of a failure

    A stage has failed once one of its goroutines is about to return an
    error, or has returned one. *)
Definition disp_failed {A} (d : Dispatcher A) : bool :=
  match d with
  | DReturn (Some _) => true
  | _ => false
  end.

Definition pw_failed (w : PathWorker) : bool :=
  match w with
  | PFailed _ _ | PReturn _ (Some _) => true
  | _ => false
  end.

Definition iw_failed (w : ImageWorker) : bool :=
  match w with
  | IFailed _ _ | IReturn _ (Some _) => true
  | _ => false
  end.

Definition path_failed (st : PathStage) : bool :=
  disp_failed (pdisp st) || existsb pw_failed (pworkers st)
  || bool_decide (is_Some (perr st)).

Definition image_failed (st : ImageStage) : bool :=
  disp_failed (idisp st) || existsb iw_failed (iworkers st)
  || bool_decide (is_Some (ierr st)).

(** The weight of a stage bounds the number of moves it can still make. *)
Definition disp_weight {A} (f : A -> nat) (d : Dispatcher A) : nat :=
  match d with
  | DSelect => 2
  | DGo a => 3 + f a
  | DReturn _ => 1
  | DExit => 0
  end.

Definition iw_weight (w : ImageWorker) : nat :=
  match w with
  | IStart _ => 7
  | IFetching _ => 6
  | IEmit _ _ => 5
  | IBlocked _ _ => 4
  | IFailed _ _ => 2
  | IReturn _ _ => 1
  end.

Definition image_weight (st : ImageStage) : nat :=
  disp_weight (fun _ => 7) (idisp st) + sum_list_with iw_weight (iworkers st)
  + (if images_closed st then 0 else 1).

(** What it costs to bring one page through the image stage and into the
    result list. *)
Definition page_weight : nat := 11.

Section Weights.
Variable env : Env.

(** A worker with the pages [ps] still to hand over, blocked in its select. *)
Definition pw_emit_weight (ps : PathList) : nat := 2 + (page_weight + 3) * length ps.

(** The manifest may be fetched under either state of the context. *)
Definition manifest_weight_under (ctx : Context) (c : Chapter.t) : nat :=
  match FetchPaths env ctx c with
  | Ok ps => 3 + pw_emit_weight ps
  | Err _ => 3
  end.

Definition manifest_weight (c : Chapter.t) : nat :=
  manifest_weight_under CtxLive c `max` manifest_weight_under CtxDone c.

Definition pw_weight (w : PathWorker) : nat :=
  match w with
  | PStart c => 2 + manifest_weight c
  | PFetching c => 1 + manifest_weight c
  | PFailed _ _ => 2
  | PAdd _ ps => 2 + pw_emit_weight ps
  | PEmit _ ps => 1 + pw_emit_weight ps
  | PBlocked _ p ps => pw_emit_weight (p :: ps)
  | PIncrease _ _ ps => 2 + pw_emit_weight ps
  | PReturn _ _ => 1
  end.

Definition path_weight (st : PathStage) : nat :=
  disp_weight (fun c => 2 + manifest_weight c) (pdisp st)
  + sum_list_with pw_weight (pworkers st)
  + (if paths_closed st then 0 else 1).
End Weights.

(** ** Well-formed stages

    The errors that travel through the groups are the canceled signal or a
    fetch error wrapped with the identity of its chapter or page. *)
Definition fatal_or_canceled (e : error) : bool :=
  match e with
  | Canceled | ChapterPathsErr _ _ | ChapterImageErr _ _ _ => true
  | _ => false
  end.

Definition opt_error_ok (e : option error) : bool :=
  match e with
  | Some e => fatal_or_canceled e
  | None => true
  end.

Definition disp_error_ok {A} (d : Dispatcher A) : bool :=
  match d with
  | DReturn e => opt_error_ok e
  | _ => true
  end.

Definition disp_left_clean {A} (d : Dispatcher A) : bool :=
  match d with
  | DReturn None | DExit => true
  | _ => false
  end.

Section PathInv.
Variable env : Env.

Definition pw_ok (w : PathWorker) : Prop :=
  match w with
  | PStart _ | PFetching _ => True
  | PFailed c e => exists ctx err, FetchPaths env ctx c = Err err /\
      e = ChapterPathsErr (ChapterInfo.Identifier (Chapter.Info c)) err
  | PAdd c ps | PEmit c ps =>
      exists ctx ps0, FetchPaths env ctx c = Ok ps0 /\ ps `suffix_of` ps0
  | PIncrease c p ps | PBlocked c p ps =>
      exists ctx ps0, FetchPaths env ctx c = Ok ps0 /\ (p :: ps) `suffix_of` ps0
  | PReturn _ e => opt_error_ok e = true
  end.

Definition path_inv (st : PathStage) : Prop :=
  length (pworkers st) <= maxJobsChapter /\
  (paths_closed st = true -> pdisp st = DExit /\ pworkers st = []) /\
  Forall pw_ok (pworkers st) /\
  opt_error_ok (perr st) = true /\
  disp_error_ok (pdisp st) = true.
End PathInv.

Section ImageInv.
Variable env : Env.

Definition iw_ok (w : ImageWorker) : Prop :=
  match w with
  | IStart _ | IFetching _ => True
  | IFailed p e =>
      exists ctx err, getImage env ctx (PathItem.URL p) 0%Z = Err err /\
      e = ChapterImageErr (PathItem.ChapterIdentifier p)
                          (PathItem.ImageIdentifier p) err
  | IEmit p img | IBlocked p img =>
      exists ctx, getImage env ctx (PathItem.URL p) 0%Z = Ok img
  | IReturn _ e => opt_error_ok e = true
  end.

Definition image_inv (st : ImageStage) : Prop :=
  length (iworkers st) <= maxJobsImage /\
  (images_closed st = true -> idisp st = DExit /\ iworkers st = []) /\
  Forall iw_ok (iworkers st) /\
  opt_error_ok (ierr st) = true /\
  disp_error_ok (idisp st) = true.
End ImageInv.

(** * Analysis of MangadexPages *)

(** The images that the collector has been handed, in the order of the
    [p.Add(1)] calls that go with them. *)
Definition images_added (cs : list Call) : ImageList :=
  omap (fun c => match c with Add _ (UImage it) => Some it | _ => None end) cs.

Definition main_future (m : Main) : list Call :=
  match m with
  | MGot it => [Add 1 (UImage it)]
  | _ => []
  end.

Definition main_weight (m : Main) : nat :=
  match m with
  | MRange => 2
  | MGot _ => 3
  | MWait => 1
  | MReturned _ => 0
  end.

Definition waiter_weight (w : Pages.Waiter) : nat :=
  match w with
  | Pages.WWaiting => 1
  | Pages.WDone => 0
  end.

Section PagesAnalysis.
Variable env : Env.

Definition feeder_future (f : Pages.Feeder) : list Call :=
  match f with
  | Pages.FSend l => expected_calls env l
  | Pages.FIncrease c l => Increase 1 (UChapter c) :: expected_calls env l
  | Pages.FClosed => []
  end.

Definition pages_future (s : Pages.State) : list Call :=
  feeder_future (Pages.feeder s) ++ path_future env (Pages.pstage s)
  ++ image_future env (Pages.istage s) ++ main_future (Pages.main s).

Definition pages_failed (s : Pages.State) : bool :=
  path_failed (Pages.pstage s) || image_failed (Pages.istage s).

Definition feeder_weight (f : Pages.Feeder) : nat :=
  match f with
  | Pages.FSend l => 1 + sum_list_with (fun c => 6 + manifest_weight env c) l
  | Pages.FIncrease _ l =>
      2 + sum_list_with (fun c => 6 + manifest_weight env c) l
  | Pages.FClosed => 0
  end.

Definition pages_weight (s : Pages.State) : nat :=
  feeder_weight (Pages.feeder s) + path_weight env (Pages.pstage s)
  + image_weight (Pages.istage s)
  + waiter_weight (Pages.pwait s) + waiter_weight (Pages.iwait s)
  + main_weight (Pages.main s).

(** The invariants of the pipeline, one by one. *)
Definition inv_stages (s : Pages.State) : Prop :=
  path_inv env (Pages.pstage s) /\ image_inv env (Pages.istage s).

Definition inv_canceled (s : Pages.State) : Prop :=
  Pages.canceled s = true ->
  pages_failed s = true \/ returned (Pages.main s) = true.

Definition inv_future (l : ChapterList) (s : Pages.State) : Prop :=
  pages_failed s = false ->
  calls (Pages.log s) ++ pages_future s ≡ₚ expected_calls env l.

Definition inv_results (s : Pages.State) : Prop :=
  Pages.results s = images_added (calls (Pages.log s)).
End PagesAnalysis.

(** An error that has been returned by a goroutine: by then [cancel] has
    been called. *)
Definition pw_noted (w : PathWorker) : bool :=
  match w with
  | PReturn _ (Some _) => true
  | _ => false
  end.

Definition iw_noted (w : ImageWorker) : bool :=
  match w with
  | IReturn _ (Some _) => true
  | _ => false
  end.

Definition path_noted (st : PathStage) : bool :=
  disp_failed (pdisp st) || existsb pw_noted (pworkers st)
  || bool_decide (is_Some (perr st)).

Definition image_noted (st : ImageStage) : bool :=
  disp_failed (idisp st) || existsb iw_noted (iworkers st)
  || bool_decide (is_Some (ierr st)).

Definition inv_noted (s : Pages.State) : Prop :=
  path_noted (Pages.pstage s) || image_noted (Pages.istage s) = true ->
  Pages.canceled s = true.

Section PagesInvariants.
Variable env : Env.

(** A dispatcher that left without an error saw its input closed, and the
    collector leaves its loop only on the closed channel. *)
Definition inv_drain (s : Pages.State) : Prop :=
  (path_failed (Pages.pstage s) = false ->
   disp_left_clean (pdisp (Pages.pstage s)) = true ->
   Pages.feeder s = Pages.FClosed) /\
  (image_failed (Pages.istage s) = false ->
   disp_left_clean (idisp (Pages.istage s)) = true ->
   paths_closed (Pages.pstage s) = true) /\
  match Pages.main s with
  | MWait | MReturned _ => images_closed (Pages.istage s) = true
  | _ => True
  end.

(** The group of [MangadexPages]: a [childEg.Wait] has returned only if its
    stage is over, and it has handed the error of the stage to the group. *)
Definition inv_waiters (s : Pages.State) : Prop :=
  (Pages.pwait s = Pages.WDone ->
   path_over (Pages.pstage s) = true /\
   (is_Some (perr (Pages.pstage s)) -> is_Some (Pages.err s))) /\
  (Pages.iwait s = Pages.WDone ->
   image_over (Pages.istage s) = true /\
   (is_Some (ierr (Pages.istage s)) -> is_Some (Pages.err s))) /\
  opt_error_ok (Pages.err s) = true /\
  (is_Some (Pages.err s) ->
   is_Some (perr (Pages.pstage s)) \/ is_Some (ierr (Pages.istage s))) /\
  (forall r, Pages.main s = MReturned r ->
     Pages.pwait s = Pages.WDone /\ Pages.iwait s = Pages.WDone /\
     r = return_value (Pages.err s) (Pages.results s)).

(** What the log tells. *)
Definition inv_log (s : Pages.State) : Prop :=
  Pages.canceled s = has_cancel (Pages.log s) /\
  (forall c p, PathSent c p ∈ Pages.log s ->
     exists ctx ps, FetchPaths env ctx c = Ok ps /\ p ∈ ps) /\
  (forall p it, ImageSent p it ∈ Pages.log s ->
     exists ctx img, getImage env ctx (PathItem.URL p) 0%Z = Ok img /\
                     it = PathItem.WithImage p img) /\
  (forall ctx c, FetchPathsCall ctx c ∈ Pages.log s ->
     (exists ctx', is_ok (FetchPaths env ctx' c) = true) \/
     path_failed (Pages.pstage s) = true \/
     PFetching c ∈ pworkers (Pages.pstage s)) /\
  (forall ctx p, GetImageCall ctx p ∈ Pages.log s ->
     (exists ctx', is_ok (getImage env ctx' (PathItem.URL p) 0%Z) = true) \/
     image_failed (Pages.istage s) = true \/
     IFetching p ∈ iworkers (Pages.istage s)).

Record pages_inv (l : ChapterList) (s : Pages.State) : Prop := {
  pages_inv_stages : inv_stages env s;
  pages_inv_canceled : inv_canceled s;
  pages_inv_future : inv_future env l s;
  pages_inv_results : inv_results s;
  pages_inv_drain : inv_drain s;
  pages_inv_waiters : inv_waiters s;
  pages_inv_log : inv_log s;
  pages_inv_noted : inv_noted s
}.
End PagesInvariants.

(** ** Runs in which no call on a collaborator fails *)
Section Succeed.
Variable env : Env.

(** The page decodes: [getImage] gives an image and no error. *)
Definition page_succeeds (p : PathItem.t) : Prop :=
  is_ok (getImage env CtxLive (PathItem.URL p) 0%Z) = true.

(** The manifest of the chapter resolves and all its pages decode. *)
Definition chapter_succeeds (c : Chapter.t) : Prop :=
  exists ps, FetchPaths env CtxLive c = Ok ps /\ Forall page_succeeds ps.

Definition all_succeed (l : ChapterList) : Prop := Forall chapter_succeeds l.

Definition disp_good {A} (P : A -> Prop) (d : Dispatcher A) : Prop :=
  match d with
  | DGo a => P a
  | _ => True
  end.

Definition pw_good (w : PathWorker) : Prop :=
  match w with
  | PStart c | PFetching c => chapter_succeeds c
  | PAdd _ ps | PEmit _ ps | PIncrease _ _ ps => Forall page_succeeds ps
  | PBlocked _ p ps => Forall page_succeeds (p :: ps)
  | PFailed _ _ | PReturn _ _ => True
  end.

Definition iw_good (w : ImageWorker) : Prop :=
  match w with
  | IStart p | IFetching p => page_succeeds p
  | _ => True
  end.

Definition path_good (st : PathStage) : Prop :=
  disp_good chapter_succeeds (pdisp st) /\ Forall pw_good (pworkers st).

Definition image_good (st : ImageStage) : Prop :=
  disp_good page_succeeds (idisp st) /\ Forall iw_good (iworkers st).

Definition feeder_good (f : Pages.Feeder) : Prop :=
  match f with
  | Pages.FSend l | Pages.FIncrease _ l => Forall chapter_succeeds l
  | Pages.FClosed => True
  end.

(** Nothing fails, and nobody calls [cancel] before the return. *)
Definition inv_good (s : Pages.State) : Prop :=
  feeder_good (Pages.feeder s) /\ path_good (Pages.pstage s) /\
  image_good (Pages.istage s) /\ pages_failed s = false /\
  (returned (Pages.main s) = false -> Pages.canceled s = false).

(** All the pages of a chapter list, and the image each decodes to. *)
Definition chapter_pages (c : Chapter.t) : PathList :=
  match FetchPaths env CtxLive c with
  | Ok ps => ps
  | Err _ => []
  end.

Definition all_pages (l : ChapterList) : PathList := flat_map chapter_pages l.

Definition decoded (p : PathItem.t) : ImageItem.t :=
  PathItem.WithImage p
    match getImage env CtxLive (PathItem.URL p) 0%Z with
    | Ok img => img
    | Err _ => None
    end.
End Succeed.

(** ** Operations in flight *)

Definition pw_fetching (w : PathWorker) : bool :=
  match w with PFetching _ => true | _ => false end.

Definition iw_fetching (w : ImageWorker) : bool :=
  match w with IFetching _ => true | _ => false end.

(** The manifest fetches, and the image fetch-and-decode operations, that
    have been entered and have not yet returned. *)
Definition active_manifest_fetches (s : Pages.State) : nat :=
  length (List.filter pw_fetching (pworkers (Pages.pstage s))).

Definition active_image_fetches (s : Pages.State) : nat :=
  length (List.filter iw_fetching (iworkers (Pages.istage s))).

(** * A small catalog to run the pipeline on

    Chapter A has three pages and chapter B two, all of which decode.
    Chapter Q has one page that always decodes to the nil image without an
    error, chapter D one page that no codec can read.  The first page of
    chapter N answers 404.  Any other chapter has no manifest.  Both clients
    refuse a call whose context is done. *)
Definition example_chapter (id : string) : Chapter.t :=
  Chapter.mk (ChapterInfo.mk "" 0 "" [] "" 0 id "1").

Definition example_page (url : string) (chapter : string) (n : Z) : PathItem.t :=
  PathItem.mk url n chapter "1".

Definition example_env : Env := {|
  FetchPaths := fun ctx c =>
    let id := ChapterInfo.Identifier (Chapter.Info c) in
    if ctx is CtxDone then Err (External "context canceled")
    else if String.eqb id "A" then
      Ok [example_page "a1" "A" 1; example_page "a2" "A" 2;
          example_page "a3" "A" 3]
    else if String.eqb id "B" then
      Ok [example_page "b1" "B" 1; example_page "b2" "B" 2]
    else if String.eqb id "Q" then Ok [example_page "q1" "Q" 1]
    else if String.eqb id "D" then Ok [example_page "d1" "D" 1]
    else if String.eqb id "N" then
      Ok [example_page "n1" "N" 1; example_page "n2" "N" 2]
    else Err (External "no manifest");
  FetchCovers := fun ctx _ =>
    if ctx is CtxDone then Err (External "context canceled")
    else Ok [example_page "c1" "" 1; example_page "c2" "" 2];
  NewRequest := fun _ => None;
  Do := fun ctx url _ =>
    if ctx is CtxDone then Err (External "context canceled")
    else if String.eqb url "n1"
    then Ok {| StatusCode := 404; Status := "404 Not Found"; Body := "" |}
    else Ok {| StatusCode := 200; Status := "200 OK"; Body := url |};
  Decode := fun body =>
    if String.eqb body "q1" then (None, None)
    else if String.eqb body "d1" then (None, Some (External "unknown format"))
    else (Some [Z.of_nat (String.length body)], None)
|}.

Definition chapters_AB : ChapterList := [example_chapter "A"; example_chapter "B"].

(** A run on chapter N: its first page answers 404 while the path worker
    still has the second page to hand over.  The path stage unwinds first,
    and its [Wait] reaches the group of [MangadexPages] before that of the
    image stage. *)
Definition chapters_N : ChapterList := [example_chapter "N"].

Definition schedule_N_canceled : list Pages.Action :=
  [ Pages.FeederSend; Pages.Paths DispSpawn;
    Pages.Paths (WorkerStep 0);      (* FetchPaths entered *)
    Pages.Paths (WorkerStep 0);      (* two pages *)
    Pages.Paths (WorkerStep 0);      (* p.Add(1) *)
    Pages.PathHandoff 0;             (* n1 goes to the image stage *)
    Pages.Images DispSpawn;
    Pages.Images (WorkerStep 0);     (* getImage entered *)
    Pages.Images (WorkerStep 0);     (* status 404 *)
    Pages.Images (WorkerStep 0);     (* deferred cancel() *)
    Pages.Paths (WorkerStep 0);      (* p.Increase(1) *)
    Pages.Paths (WorkerCanceled 0);  (* the path worker sees ctx.Done() *)
    Pages.Paths (WorkerStep 0);      (* "canceled" is the error of the path group *)
    Pages.Paths DispCanceled; Pages.Paths DispExit;
    Pages.WaitPaths;                 (* and of the group of MangadexPages *)
    Pages.Images (WorkerStep 0);     (* the 404 is the error of the image group *)
    Pages.Images DispCanceled; Pages.Images DispExit; Pages.Images Close;
    Pages.WaitImages; Pages.MainClosed; Pages.MainReturn ].

(** ** Counting the calls on the progress reporter *)

Definition count_calls (f : Call -> bool) (cs : list Call) : nat :=
  sum_list_with (fun c => if f c then 1 else 0) cs.

Definition is_discovered (c : Call) : bool :=
  match c with Increase _ _ => true | _ => false end.

Definition is_completed (c : Call) : bool :=
  match c with Add _ _ => true | _ => false end.

Definition chapter_discovered (c : Call) : bool :=
  match c with Increase _ (UChapter _) => true | _ => false end.

Definition page_discovered (c : Call) : bool :=
  match c with Increase _ (UPage _) => true | _ => false end.

Definition chapter_completed (c : Call) : bool :=
  match c with Add _ (UChapter _) => true | _ => false end.

Definition image_completed (c : Call) : bool :=
  match c with Add _ (UImage _) => true | _ => false end.

(** The calls of a run in which nothing fails, chapter by chapter. *)
Definition successful_calls (env : Env) (l : ChapterList) : list Call :=
  flat_map (fun c =>
    Increase 1 (UChapter c) :: Add 1 (UChapter c) ::
    flat_map (fun p => [Increase 1 (UPage p); Add 1 (UImage (decoded env p))])
             (chapter_pages env c)) l.

(** A schedule that takes one chapter with [pages] pages through the
    pipeline, page after page, and the schedule of a whole run on chapters
    A and B. *)
Definition schedule_page : list Pages.Action :=
  [ Pages.PathHandoff 0;           (* ch <- path *)
    Pages.Images DispSpawn;
    Pages.Images (WorkerStep 0);   (* getImage entered *)
    Pages.Images (WorkerStep 0);   (* decoded *)
    Pages.ImageHandoff 0;          (* ch <- path.WithImage(image) *)
    Pages.MainAppend;              (* p.Add(1); append *)
    Pages.Images (WorkerStep 0);   (* the image worker leaves *)
    Pages.Paths (WorkerStep 0) ].  (* p.Increase(1) *)

Definition schedule_chapter (pages : nat) : list Pages.Action :=
  [ Pages.FeederSend; Pages.Paths DispSpawn;
    Pages.Paths (WorkerStep 0);    (* FetchPaths entered *)
    Pages.Paths (WorkerStep 0);    (* manifest resolved *)
    Pages.Paths (WorkerStep 0) ]   (* p.Add(1) *)
  ++ concat (replicate pages schedule_page)
  ++ [ Pages.Paths (WorkerStep 0); (* end of the loop: return nil *)
       Pages.Paths (WorkerStep 0); (* the path worker leaves *)
       Pages.FeederIncrease ].     (* p.Increase(1) *)

Definition schedule_drain : list Pages.Action :=
  [ Pages.FeederClose; Pages.Paths DispClosed; Pages.Paths DispExit;
    Pages.WaitPaths; Pages.Paths Close;
    Pages.Images DispClosed; Pages.Images DispExit; Pages.WaitImages;
    Pages.Images Close; Pages.MainClosed; Pages.MainReturn ].

Definition schedule_AB : list Pages.Action :=
  schedule_chapter 3 ++ schedule_chapter 2 ++ schedule_drain.

(** The error message mentions the chapter [id]: it is one of the
    identifiers that [fmt.Errorf] has put in front of the cause. *)
Fixpoint names (e : error) (id : Identifier) : bool :=
  match e with
  | ChapterPathsErr id' e' => String.eqb id id' || names e' id
  | ChapterImageErr id' _ e' => String.eqb id id' || names e' id
  | PrepareErr e' | DoErr e' | DecodeErr e' => names e' id
  | External _ | Canceled | StatusErr _ => false
  end.

(** A run on two chapters without a manifest: both fetches are in flight
    together, both fail, and the group keeps the error of the first. *)
Definition chapters_XY : ChapterList := [example_chapter "X"; example_chapter "Y"].

Definition schedule_XY : list Pages.Action :=
  [ Pages.FeederSend; Pages.Paths DispSpawn; Pages.FeederIncrease;
    Pages.FeederSend; Pages.Paths DispSpawn;
    Pages.Paths (WorkerStep 0);   (* FetchPaths of X entered *)
    Pages.Paths (WorkerStep 1);   (* FetchPaths of Y entered *)
    Pages.Paths (WorkerStep 0);   (* X: no manifest *)
    Pages.Paths (WorkerStep 1);   (* Y: no manifest *)
    Pages.Paths (WorkerStep 0);   (* X: deferred cancel() *)
    Pages.Paths (WorkerStep 1);   (* Y: deferred cancel() *)
    Pages.Paths (WorkerStep 0);   (* the group notes the error of X *)
    Pages.Paths (WorkerStep 0);   (* the error of Y comes second and is dropped *)
    Pages.Paths DispCanceled; Pages.Paths DispExit; Pages.WaitPaths;
    Pages.Images DispCanceled; Pages.Images DispExit; Pages.Images Close;
    Pages.WaitImages; Pages.MainClosed; Pages.MainReturn ].

(** A run on chapter X, without a manifest, and chapter A: the worker for A
    has been launched when the fetch for X fails and [cancel] is called. *)
Definition chapters_XA : ChapterList := [example_chapter "X"; example_chapter "A"].

Definition schedule_XA_canceled : list Pages.Action :=
  [ Pages.FeederSend; Pages.Paths DispSpawn; Pages.FeederIncrease;
    Pages.FeederSend; Pages.Paths DispSpawn;   (* the worker for A is launched *)
    Pages.Paths (WorkerStep 0);   (* FetchPaths of X entered *)
    Pages.Paths (WorkerStep 0);   (* X: no manifest *)
    Pages.Paths (WorkerStep 0) ]. (* X: deferred cancel() *)

(** ** Attempts of getImage *)

(** Attempt [try] on [url] gets a 200 answer whose body decodes to [img]
    with the decoder's verdict [err]. *)
Definition decodes_to (env : Env) (ctx : Context) (url : string) (try : Z)
    (img : Image) (err : option error) : Prop :=
  NewRequest env url = None /\
  exists resp, Do env ctx url try = Ok resp /\ StatusCode resp = 200%Z /\
               Decode env (Body resp) = (img, err).

(** The quirk: a nil image and no error. *)
Definition quirk_at (env : Env) (ctx : Context) (url : string) (try : Z) : Prop :=
  decodes_to env ctx url try None None.

(** A nil image, with or without an error. *)
Definition null_at (env : Env) (ctx : Context) (url : string) (try : Z) : Prop :=
  exists err, decodes_to env ctx url try None err.

Definition chapters_Q : ChapterList := [example_chapter "Q"].
Definition page_q1 : PathItem.t := example_page "q1" "Q" 1.
Definition page_d1 : PathItem.t := example_page "d1" "D" 1.
Definition page_n1 : PathItem.t := example_page "n1" "N" 1.

(** ** MangadexCovers

    [FetchCovers] is called first, on the caller's goroutine.  If it fails
    nothing is started.  Otherwise a feeder sends the cover locators to
    [pathsToImages] and the caller collects the images into a slice made
    with [make(md.ImageList, len(covers))]; [eg.Wait()] is that of the image
    stage itself. *)
Module Covers.

(** [go func() { for _, path := range covers { coverPaths <- path;
    p.Increase(1) }; close(coverPaths) }()] *)
Inductive Feeder :=
| FSend (l : PathList)                       (* head of the loop over l *)
| FIncrease (p : PathItem.t) (l : PathList)  (* p sent; before p.Increase(1) *)
| FClosed.

Record State := {
  feeder : Feeder;
  istage : ImageStage;
  main : Main;
  results : ImageList;
  canceled : bool;
  log : list Event
}.

Inductive Action :=
| FeederSend               (* coverPaths <- path meets the dispatcher's receive *)
| FeederIncrease           (* p.Increase(1) *)
| FeederClose              (* close(coverPaths) *)
| Images (a : StageAction)
| ImageHandoff (i : nat)   (* the send of image worker i meets the range receive *)
| MainAppend               (* p.Add(1); results = append(results, coverImage) *)
| MainClosed               (* the range loop ends on the closed channel *)
| MainReturn.              (* eg.Wait() returns; deferred cancel() *)

(** After [FetchCovers] has returned [covers]. *)
Definition start (covers : PathList) : State :=
  {| feeder := FSend covers;
     istage := image_stage0;
     main := MRange;
     results := replicate (length covers) ImageItem.zero;
     canceled := false;
     log := [] |}.

(** After [FetchCovers] has failed: [return nil, err], and the deferred
    [cancel()]. *)
Definition failed (err : error) : State :=
  {| feeder := FClosed;
     istage := {| idisp := DExit; iworkers := []; ierr := None;
                  images_closed := true |};
     main := MReturned (None, Some err);
     results := [];
     canceled := true;
     log := [CancelCalled] |}.

(** [FetchCovers] is handed the context that [MangadexCovers] has just
    made: nobody has the [cancel] of it yet. *)
Definition init (env : Env) (manga : Manga.t) : State :=
  match FetchCovers env CtxLive (MangaInfo.ID (Manga.Info manga)) with
  | Err err => failed err
  | Ok covers => start covers
  end.

Definition set_feeder (f : Feeder) (s : State) : State :=
  {| feeder := f; istage := istage s; main := main s; results := results s;
     canceled := canceled s; log := log s |}.

Definition set_istage (st : ImageStage) (s : State) : State :=
  {| feeder := feeder s; istage := st; main := main s; results := results s;
     canceled := canceled s; log := log s |}.

Definition set_main (m : Main) (s : State) : State :=
  {| feeder := feeder s; istage := istage s; main := m; results := results s;
     canceled := canceled s; log := log s |}.

Definition emit (evs : list Event) (s : State) : State :=
  {| feeder := feeder s; istage := istage s; main := main s;
     results := results s;
     canceled := canceled s || has_cancel evs;
     log := log s ++ evs |}.

Definition covers_closed (s : State) : bool :=
  match feeder s with FClosed => true | _ => false end.

Definition step (env : Env) (a : Action) (s : State) : option State :=
  match a with
  | FeederSend =>
      match feeder s with
      | FSend (p :: l) =>
          st ← image_recv p (istage s);
          Some (set_feeder (FIncrease p l) (set_istage st s))
      | _ => None
      end
  | FeederIncrease =>
      match feeder s with
      | FIncrease p l =>
          Some (emit [Progress (Increase 1 (UPage p))] (set_feeder (FSend l) s))
      | _ => None
      end
  | FeederClose =>
      match feeder s with
      | FSend [] => Some (set_feeder FClosed s)
      | _ => None
      end
  | Images a =>
      '(st, evs) ← image_step env a (canceled s) (covers_closed s) (istage s);
      Some (emit evs (set_istage st s))
  | ImageHandoff i =>
      match main s with
      | MRange =>
          '(p, it, ist) ← image_send (canceled s) i (istage s);
          Some (emit [ImageSent p it] (set_main (MGot it) (set_istage ist s)))
      | _ => None
      end
  | MainAppend =>
      match main s with
      | MGot it =>
          Some {| feeder := feeder s; istage := istage s;
                  main := MRange;
                  results := results s ++ [it];
                  canceled := canceled s;
                  log := log s ++ [Progress (Add 1 (UImage it))] |}
      | _ => None
      end
  | MainClosed =>
      match main s with
      | MRange =>
          if images_closed (istage s) then Some (set_main MWait s) else None
      | _ => None
      end
  | MainReturn =>
      match main s with
      | MWait =>
          if image_over (istage s)
          then Some (emit [CancelCalled]
                       (set_main (MReturned (return_value (ierr (istage s))
                                                          (results s))) s))
          else None
      | _ => None
      end
  end.

Fixpoint run (env : Env) (sched : list Action) (s : State) : option State :=
  match sched with
  | [] => Some s
  | a :: sched' => s' ← step env a s; run env sched' s'
  end.

Definition reachable (env : Env) (manga : Manga.t) (s : State) : Prop :=
  exists sched, run env sched (init env manga) = Some s.
End Covers.

(** ** Analysis of MangadexCovers *)

(** The units of work inside the image stage that can still become an
    image. *)
Definition iw_pending (w : ImageWorker) : nat :=
  match w with
  | IStart _ | IFetching _ | IEmit _ _ | IBlocked _ _ => 1
  | IFailed _ _ | IReturn _ _ => 0
  end.

Definition image_pending (st : ImageStage) : nat :=
  match idisp st with DGo _ => 1 | _ => 0 end
  + sum_list_with iw_pending (iworkers st).

Definition covers_feeder_pending (f : Covers.Feeder) : nat :=
  match f with
  | Covers.FSend l | Covers.FIncrease _ l => length l
  | Covers.FClosed => 0
  end.

Definition main_pending (m : Main) : nat :=
  match m with MGot _ => 1 | _ => 0 end.

Section CoversInvariants.
Variable env : Env.

Definition covers_feeder_future (f : Covers.Feeder) : list Call :=
  match f with
  | Covers.FSend l => flat_map (page_calls env) l
  | Covers.FIncrease p l => Increase 1 (UPage p) :: flat_map (page_calls env) l
  | Covers.FClosed => []
  end.

Definition covers_future (s : Covers.State) : list Call :=
  covers_feeder_future (Covers.feeder s) ++ image_future env (Covers.istage s)
  ++ main_future (Covers.main s).

(** [n] is [len(covers)]. *)
Record covers_inv (covers : PathList) (s : Covers.State) : Prop := {
  covers_inv_stage : image_inv env (Covers.istage s);
  covers_inv_results :
    Covers.results s
    = replicate (length covers) ImageItem.zero
      ++ images_added (calls (Covers.log s));
  covers_inv_count :
    image_failed (Covers.istage s) = false ->
    length (images_added (calls (Covers.log s)))
    + main_pending (Covers.main s) + image_pending (Covers.istage s)
    + covers_feeder_pending (Covers.feeder s) = length covers;
  covers_inv_future :
    image_failed (Covers.istage s) = false ->
    calls (Covers.log s) ++ covers_future s ≡ₚ flat_map (page_calls env) covers;
  covers_inv_drain :
    image_failed (Covers.istage s) = false ->
    disp_left_clean (idisp (Covers.istage s)) = true ->
    Covers.feeder s = Covers.FClosed;
  covers_inv_canceled :
    Covers.canceled s = true ->
    image_failed (Covers.istage s) = true \/ returned (Covers.main s) = true;
  covers_inv_main :
    match Covers.main s with
    | MWait => images_closed (Covers.istage s) = true
    | MReturned r =>
        image_over (Covers.istage s) = true /\
        r = return_value (ierr (Covers.istage s)) (Covers.results s)
    | _ => True
    end
}.
End CoversInvariants.

(** A run of [MangadexCovers] on the example catalog, whose cover manifest
    has two locators. *)
Definition example_manga : Manga.t :=
  Manga.mk (MangaInfo.mk "" [] [] false 7).

Definition schedule_cover : list Covers.Action :=
  [ Covers.FeederSend;             (* coverPaths <- path *)
    Covers.Images DispSpawn;
    Covers.Images (WorkerStep 0);  (* getImage entered *)
    Covers.Images (WorkerStep 0);  (* decoded *)
    Covers.ImageHandoff 0;
    Covers.MainAppend;             (* p.Add(1); append *)
    Covers.Images (WorkerStep 0);  (* the image worker leaves *)
    Covers.FeederIncrease ].       (* p.Increase(1) *)

Definition schedule_covers : list Covers.Action :=
  schedule_cover ++ schedule_cover
  ++ [ Covers.FeederClose; Covers.Images DispClosed; Covers.Images DispExit;
       Covers.Images Close; Covers.MainClosed; Covers.MainReturn ].

(** The weight of a state of [MangadexCovers]. *)
Definition covers_feeder_weight (f : Covers.Feeder) : nat :=
  match f with
  | Covers.FSend l => 1 + 10 * length l
  | Covers.FIncrease _ l => 2 + 10 * length l
  | Covers.FClosed => 0
  end.

Definition covers_weight (s : Covers.State) : nat :=
  covers_feeder_weight (Covers.feeder s) + image_weight (Covers.istage s)
  + main_weight (Covers.main s).

(** ** Workers blocked in a handoff *)






(** A server that sends a body no codec can read on the first three
    attempts, and the page from the fourth on. *)
Definition example_flaky_env : Env := {|
  FetchPaths := FetchPaths example_env;
  FetchCovers := FetchCovers example_env;
  NewRequest := NewRequest example_env;
  Do := fun ctx url try =>
    match ctx with
    | CtxDone => Err (External "context canceled")
    | CtxLive =>
        let body := if (try <? 3)%Z then "d1" else url in
        Ok {| StatusCode := 200; Status := "200 OK"; Body := body |}
    end;
  Decode := Decode example_env
|}.

(** A run on X and A that fails on X before chapter A has been sent. *)
Definition schedule_XA_failed : list Pages.Action :=
  [ Pages.FeederSend; Pages.Paths DispSpawn; Pages.FeederIncrease;
    Pages.Paths (WorkerStep 0);   (* FetchPaths of X entered *)
    Pages.Paths (WorkerStep 0);   (* X: no manifest *)
    Pages.Paths (WorkerStep 0);   (* X: deferred cancel() *)
    Pages.Paths (WorkerStep 0);   (* the group notes the error of X *)
    Pages.Paths DispCanceled; Pages.Paths DispExit; Pages.WaitPaths;
    Pages.Images DispCanceled; Pages.Images DispExit; Pages.Images Close;
    Pages.WaitImages; Pages.MainClosed; Pages.MainReturn ].

(** * Properties *)

(** ** Lists of workers *)

Lemma lookup_split {A} (l : list A) (i : nat) (x : A) :
  l !! i = Some x ->
  exists l1 l2, l = l1 ++ x :: l2 /\ length l1 = i /\
                (forall y, <[i := y]> l = l1 ++ y :: l2) /\
                delete i l = l1 ++ l2.
Proof.
  intros Hl. apply list_elem_of_split_length in Hl as (l1 & l2 & -> & ->).
  exists l1, l2. repeat split.
  - intros y. rewrite insert_app_r_alt by lia.
    by rewrite Nat.sub_diag.
  - apply delete_middle.
Qed.

Lemma existsb_middle {A} (f : A -> bool) (l1 l2 : list A) (x : A) :
  existsb f (l1 ++ x :: l2) = f x || existsb f (l1 ++ l2).
Proof.
  rewrite !existsb_app. simpl. destruct (existsb f l1), (f x); done.
Qed.

Lemma flat_map_middle {A B} (f : A -> list B) (l1 l2 : list A) (x : A) :
  flat_map f (l1 ++ x :: l2) ≡ₚ f x ++ flat_map f (l1 ++ l2).
Proof. rewrite !flat_map_app. simpl. solve_Permutation. Qed.

Lemma sum_list_with_middle {A} (f : A -> nat) (l1 l2 : list A) (x : A) :
  sum_list_with f (l1 ++ x :: l2) = f x + sum_list_with f (l1 ++ l2).
Proof. rewrite !sum_list_with_app. simpl. lia. Qed.

Lemma calls_app (l1 l2 : list Event) : calls (l1 ++ l2) = calls l1 ++ calls l2.
Proof. apply omap_app. Qed.

Lemma record_err_is_Some (old new : option error) :
  is_Some old -> is_Some (record_err old new).
Proof. by intros [e ->]. Qed.

Lemma record_err_None (old new : option error) :
  record_err old new = None -> old = None /\ new = None.
Proof. by destruct old. Qed.

(** ** getImage *)

Section GetImageFacts.
Variable env : Env.

(** One unfolding of the body, as the Go source reads. *)
Lemma getImage_body ctx url try :
  getImage env ctx url try =
  match NewRequest env url with
  | Some err => Err (PrepareErr err)
  | None =>
    match Do env ctx url try with
    | Err err => Err (DoErr err)
    | Ok resp =>
      if negb (StatusCode resp =? 200)%Z then Err (StatusErr (Status resp))
      else
        let '(img, err) := Decode env (Body resp) in
        if decide (img = None /\ (try <= 10)%Z)
        then getImage env ctx url (uint_add1 try)
        else match err with
             | Some e => Err (DecodeErr e)
             | None => Ok img
             end
    end
  end.
Proof.
  rewrite getImage_equation_1.
  destruct (NewRequest env url); simpl; [done|].
  destruct (Do env ctx url try) as [resp|]; simpl; [|done].
  destruct (StatusCode resp =? 200)%Z; simpl; [|done].
  destruct (Decode env (Body resp)) as [img err]; simpl.
  destruct (decide (img = None /\ (try <= 10)%Z)); simpl; [done|].
  by destruct err.
Qed.

Lemma getImage_requests_body ctx url try :
  getImage_requests env ctx url try =
  match NewRequest env url with
  | Some err => 0
  | None =>
    match Do env ctx url try with
    | Err err => 1
    | Ok resp =>
      if negb (StatusCode resp =? 200)%Z then 1
      else
        let '(img, err) := Decode env (Body resp) in
        if decide (img = None /\ (try <= 10)%Z)
        then S (getImage_requests env ctx url (uint_add1 try))
        else 1
    end
  end.
Proof.
  rewrite getImage_requests_equation_1.
  destruct (NewRequest env url); simpl; [done|].
  destruct (Do env ctx url try) as [resp|]; simpl; [|done].
  destruct (StatusCode resp =? 200)%Z; simpl; [|done].
  destruct (Decode env (Body resp)) as [img err]; simpl.
  by destruct (decide (img = None /\ (try <= 10)%Z)).
Qed.

(** A client that honours the context refuses the request of a call whose
    context is done. *)
Lemma getImage_refused url try :
  honours_context env -> is_ok (getImage env CtxDone url try) = false.
Proof.
  intros [_ Hdo]. rewrite getImage_body.
  destruct (NewRequest env url); [done|].
  specialize (Hdo url try). by destruct (Do env CtxDone url try).
Qed.
End GetImageFacts.

(** ** chaptersToPaths, stage by itself *)

Ltac split_workers :=
  match goal with
  | H : ?ws !! ?i = Some ?w |- _ =>
      let l1 := fresh "l1" in
      let l2 := fresh "l2" in
      let Hins := fresh "Hins" in
      let Hdel := fresh "Hdel" in
      apply lookup_split in H as (l1 & l2 & -> & <- & Hins & Hdel);
      rewrite ?Hins, ?Hdel in *; clear Hins Hdel;
      rewrite ?existsb_middle, ?sum_list_with_middle, ?flat_map_middle,
              ?length_app in *;
      simpl in *
  end.

Ltac stage_cases H :=
  unfold path_step, path_worker_step, path_recv, path_send,
         image_step, image_worker_step, image_recv, image_send in H;
  repeat (case_match; simplify_eq/=; try done).

Lemma record_err_ok old new :
  opt_error_ok old = true -> opt_error_ok new = true ->
  opt_error_ok (record_err old new) = true.
Proof. by destruct old. Qed.

Section PathStageFacts.
Variable env : Env.

Lemma path_over_true st :
  path_over st = true <-> pdisp st = DExit /\ pworkers st = [].
Proof.
  unfold path_over. destruct (pdisp st), (pworkers st); split; intros; try done.
  all: by destruct H.
Qed.

Lemma path_step_inv a d c st st' evs :
  path_step env a d c st = Some (st', evs) -> path_inv env st -> path_inv env st'.
Proof.
  intros Hstep. destruct st as [dp ws pe cl]; simpl in *.
  destruct a; stage_cases Hstep; simpl in *.
  all: unfold path_inv; simpl; try split_workers.
  all: rewrite ?length_app; simpl.
  all: intros (Hlen & Hcl & Hws & Hpe & Hdp).
  all: rewrite ?Forall_app, ?Forall_cons in *.
  all: split; [unfold maxJobsChapter in *; try lia|].
  all: split; [try done; try (intros Hc; destruct (Hcl Hc) as [? Hnil]; try done; by destruct l1)|].
  all: split; [|split; auto using record_err_ok].
  all: try done.
  all: destruct Hws as (? & Hw & ?); repeat split; try done; simpl in *; eauto.
  - by destruct Hw as (? & ? & _ & ->).
  - destruct Hw as (ctx & ps0 & ? & Hsuf). exists ctx, ps0. split; [done|].
    etrans; [|exact Hsuf]. by apply suffix_cons_r.
  - by apply record_err_ok.
Qed.

Lemma path_recv_inv c st st' :
  path_recv c st = Some st' -> path_inv env st -> path_inv env st'.
Proof.
  intros Hstep. destruct st as [dp ws pe cl]; simpl in *.
  stage_cases Hstep. unfold path_inv; simpl.
  intros (Hlen & Hcl & Hws & Hpe & Hdp). 
  split; [done|]. split; [|done]. intros Hc; by destruct (Hcl Hc).
Qed.

Lemma path_send_inv d i st c p st' :
  path_send d i st = Some (c, p, st') -> path_inv env st ->
  path_inv env st' /\
  exists ctx ps0, FetchPaths env ctx c = Ok ps0 /\ p ∈ ps0.
Proof.
  intros Hstep. destruct st as [dp ws pe cl]; simpl in *.
  stage_cases Hstep; unfold path_inv; simpl; split_workers.
  all: intros (Hlen & Hcl & Hws & Hpe & Hdp).
  all: rewrite ?Forall_app, ?Forall_cons in *; destruct Hws as (? & Hw & ?).
  all: split; [split; [lia|split; [|done]]|].
  all: try (intros Hc; destruct (Hcl Hc) as [? Hnil]; by destruct l1).
  all: destruct Hw as (ctx & ps0 & ? & Hsuf); exists ctx, ps0; split; [done|].
  all: destruct Hsuf as [k ->]; apply elem_of_app; right; apply elem_of_cons;
    by left.
Qed.


Lemma path_step_failed a d c st st' evs :
  path_step env a d c st = Some (st', evs) ->
  path_failed st' = false ->
  path_failed st = false /\ has_cancel evs = false.
Proof.
  intros Hstep. destruct st as [dp ws pe cl]; simpl in *.
  destruct a; stage_cases Hstep; simpl in *.
  all: unfold path_failed; simpl; try split_workers.
  all: rewrite ?existsb_app; simpl.
  all: rewrite ?orb_false_r, ?orb_true_r; simpl; try done.
  all: try (destruct pe; simpl; rewrite ?orb_true_r, ?orb_false_r; simpl; try done).
  all: try (destruct e; simpl; rewrite ?orb_true_r, ?orb_false_r; simpl; try done).
Qed.

(** While the context is live. *)
Lemma path_step_future a c st st' evs :
  path_step env a false c st = Some (st', evs) ->
  path_failed st' = false ->
  calls evs ++ path_future env st' ≡ₚ path_future env st.
Proof.
  intros Hstep. destruct st as [dp ws pe cl]; simpl in *.
  destruct a; stage_cases Hstep; simpl in *.
  all: unfold path_failed, path_future; simpl; try split_workers.
  all: rewrite ?existsb_app, ?flat_map_app; simpl.
  all: rewrite ?orb_false_r, ?orb_true_r, ?app_nil_r; simpl; try done.
  all: intros _; unfold manifest_calls.
  all: repeat match goal with H : FetchPaths _ _ _ = _ |- _ => rewrite H end.
  all: simpl; solve_Permutation.
Qed.

Lemma path_step_clean a d c st st' evs :
  path_step env a d c st = Some (st', evs) ->
  path_failed st' = false ->
  disp_left_clean (pdisp st') = true ->
  disp_left_clean (pdisp st) = true \/ c = true.
Proof.
  intros Hstep. destruct st as [dp ws pe cl]; simpl in *.
  destruct a; stage_cases Hstep; simpl in *; auto.
  unfold path_failed; simpl.
  destruct pe; simpl; rewrite ?orb_true_r; done.
Qed.

Lemma path_step_weight a d c st st' evs :
  path_step env a d c st = Some (st', evs) ->
  path_weight env st' < path_weight env st.
Proof.
  intros Hstep. destruct st as [dp ws pe cl]; simpl in *.
  destruct a; stage_cases Hstep; simpl in *.
  all: unfold path_weight; simpl; try split_workers.
  all: rewrite ?sum_list_with_app; simpl.
  all: unfold manifest_weight, manifest_weight_under, pw_emit_weight, page_weight.
  all: try (destruct d; simpl in * ).
  all: repeat match goal with H : FetchPaths _ _ _ = _ |- _ => rewrite H end.
  all: simpl; try lia.
  all: repeat case_match; lia.
Qed.

Lemma path_recv_spec ch st st' :
  path_recv ch st = Some st' ->
  pdisp st = DSelect /\ pdisp st' = DGo ch /\
  path_failed st' = path_failed st /\
  path_future env st' = manifest_calls env ch ++ path_future env st /\
  path_weight env st' = 3 + manifest_weight env ch + path_weight env st.
Proof.
  intros Hstep. destruct st as [dp ws pe cl]; simpl in *.
  stage_cases Hstep. unfold path_failed, path_future, path_weight; simpl.
  repeat split; try done. lia.
Qed.

Lemma path_send_spec d i st ch p st' :
  path_send d i st = Some (ch, p, st') ->
  pdisp st' = pdisp st /\
  path_failed st' = path_failed st /\
  path_future env st ≡ₚ image_calls env p ++ path_future env st' /\
  page_weight + 1 + path_weight env st' <= path_weight env st.
Proof.
  intros Hstep. destruct st as [dp ws pe cl]; simpl in *.
  stage_cases Hstep; unfold path_failed, path_future, path_weight; simpl.
  all: split_workers.
  all: rewrite ?existsb_app, ?flat_map_app, ?sum_list_with_app; simpl.
  all: repeat split; try done.
  all: try (unfold page_calls; solve_Permutation).
  all: unfold pw_emit_weight, page_weight; simpl; lia.
Qed.
End PathStageFacts.

(** ** pathsToImages, stage by itself *)

Section ImageStageFacts.
Variable env : Env.

Lemma image_over_true st :
  image_over st = true <-> idisp st = DExit /\ iworkers st = [].
Proof.
  unfold image_over. destruct (idisp st), (iworkers st); split; intros; try done.
  all: by destruct H.
Qed.

Lemma image_step_inv a d c st st' evs :
  image_step env a d c st = Some (st', evs) -> image_inv env st -> image_inv env st'.
Proof.
  intros Hstep. destruct st as [dp ws pe cl]; simpl in *.
  destruct a; stage_cases Hstep; simpl in *.
  all: unfold image_inv; simpl; try split_workers.
  all: rewrite ?length_app; simpl.
  all: intros (Hlen & Hcl & Hws & Hpe & Hdp).
  all: rewrite ?Forall_app, ?Forall_cons in *.
  all: split; [unfold maxJobsImage in *; try lia|].
  all: split; [try done; try (intros Hc; destruct (Hcl Hc) as [? Hnil]; try done; by destruct l1)|].
  all: split; [|split; auto using record_err_ok].
  all: try done.
  all: destruct Hws as (? & Hw & ?); repeat split; try done; simpl in *; eauto.
  - by destruct Hw as (? & ? & _ & ->).
  - by apply record_err_ok.
Qed.

Lemma image_recv_inv p st st' :
  image_recv p st = Some st' -> image_inv env st -> image_inv env st'.
Proof.
  intros Hstep. destruct st as [dp ws pe cl]; simpl in *.
  stage_cases Hstep. unfold image_inv; simpl.
  intros (Hlen & Hcl & Hws & Hpe & Hdp).
  split; [done|]. split; [|done]. intros Hc; by destruct (Hcl Hc).
Qed.

Lemma image_send_inv d i st p it st' :
  image_send d i st = Some (p, it, st') -> image_inv env st ->
  image_inv env st' /\
  exists ctx img, getImage env ctx (PathItem.URL p) 0%Z = Ok img /\
                  it = PathItem.WithImage p img.
Proof.
  intros Hstep. destruct st as [dp ws pe cl]; simpl in *.
  stage_cases Hstep; unfold image_inv; simpl; split_workers.
  all: intros (Hlen & Hcl & Hws & Hpe & Hdp).
  all: rewrite ?Forall_app, ?Forall_cons in *; destruct Hws as (? & Hw & ?).
  all: split; [split; [lia|split; [|done]]|].
  all: try (intros Hc; destruct (Hcl Hc) as [? Hnil]; by destruct l1).
  all: destruct Hw as [ctx Hw]; eauto.
Qed.

Lemma image_step_failed a d c st st' evs :
  image_step env a d c st = Some (st', evs) ->
  image_failed st' = false ->
  image_failed st = false /\ has_cancel evs = false.
Proof.
  intros Hstep. destruct st as [dp ws pe cl]; simpl in *.
  destruct a; stage_cases Hstep; simpl in *.
  all: unfold image_failed; simpl; try split_workers.
  all: rewrite ?existsb_app; simpl.
  all: rewrite ?orb_false_r, ?orb_true_r; simpl; try done.
  all: try (destruct pe; simpl; rewrite ?orb_true_r, ?orb_false_r; simpl; try done).
  all: try (destruct e; simpl; rewrite ?orb_true_r, ?orb_false_r; simpl; try done).
Qed.

(** While the context is live. *)
Lemma image_step_future a c st st' evs :
  image_step env a false c st = Some (st', evs) ->
  image_failed st' = false ->
  calls evs ++ image_future env st' ≡ₚ image_future env st.
Proof.
  intros Hstep. destruct st as [dp ws pe cl]; simpl in *.
  destruct a; stage_cases Hstep; simpl in *.
  all: unfold image_failed, image_future; simpl; try split_workers.
  all: rewrite ?existsb_app, ?flat_map_app; simpl.
  all: rewrite ?orb_false_r, ?orb_true_r, ?app_nil_r; simpl; try done.
  all: intros _; unfold image_calls.
  all: repeat match goal with H : getImage _ _ _ _ = _ |- _ => rewrite H end.
  all: simpl; solve_Permutation.
Qed.

Lemma image_step_clean a d c st st' evs :
  image_step env a d c st = Some (st', evs) ->
  image_failed st' = false ->
  disp_left_clean (idisp st') = true ->
  disp_left_clean (idisp st) = true \/ c = true.
Proof.
  intros Hstep. destruct st as [dp ws pe cl]; simpl in *.
  destruct a; stage_cases Hstep; simpl in *; auto.
  unfold image_failed; simpl.
  destruct pe; simpl; rewrite ?orb_true_r; done.
Qed.

Lemma image_step_weight a d c st st' evs :
  image_step env a d c st = Some (st', evs) ->
  image_weight st' < image_weight st.
Proof.
  intros Hstep. destruct st as [dp ws pe cl]; simpl in *.
  destruct a; stage_cases Hstep; simpl in *.
  all: unfold image_weight; simpl; try split_workers.
  all: rewrite ?sum_list_with_app; simpl.
  all: simpl; try lia.
Qed.

Lemma image_recv_spec p st st' :
  image_recv p st = Some st' ->
  idisp st = DSelect /\ idisp st' = DGo p /\
  image_failed st' = image_failed st /\
  image_future env st' = image_calls env p ++ image_future env st /\
  image_weight st' = 8 + image_weight st.
Proof.
  intros Hstep. destruct st as [dp ws pe cl]; simpl in *.
  stage_cases Hstep; unfold image_failed, image_future, image_weight; simpl.
  all: repeat split; try done.
Qed.

Lemma image_send_spec d i st p it st' :
  image_send d i st = Some (p, it, st') ->
  idisp st' = idisp st /\
  image_failed st' = image_failed st /\
  image_future env st ≡ₚ Add 1 (UImage it) :: image_future env st' /\
  3 + image_weight st' <= image_weight st.
Proof.
  intros Hstep. destruct st as [dp ws pe cl]; simpl in *.
  stage_cases Hstep; unfold image_failed, image_future, image_weight; simpl.
  all: split_workers.
  all: rewrite ?existsb_app, ?flat_map_app, ?sum_list_with_app; simpl.
  all: repeat split; try done.
  all: try solve_Permutation.
  all: lia.
Qed.
End ImageStageFacts.

(** ** MangadexPages: the invariants are kept by every move *)

Ltac pages_cases H :=
  unfold Pages.step in H;
  repeat (first
    [ progress simplify_eq/=
    | match type of H with
      | context [path_step ?e ?a ?d ?c ?st] =>
          let Hp := fresh "Hpath" in
          destruct (path_step e a d c st) as [[??]|] eqn:Hp
      | context [image_step ?e ?a ?d ?c ?st] =>
          let Hp := fresh "Himage" in
          destruct (image_step e a d c st) as [[??]|] eqn:Hp
      | context [path_recv ?c ?st] =>
          let Hp := fresh "Hprecv" in
          destruct (path_recv c st) as [?|] eqn:Hp
      | context [image_recv ?c ?st] =>
          let Hp := fresh "Hirecv" in
          destruct (image_recv c st) as [?|] eqn:Hp
      | context [path_send ?d ?c ?st] =>
          let Hp := fresh "Hpsend" in
          destruct (path_send d c st) as [[[??]?]|] eqn:Hp
      | context [image_send ?d ?c ?st] =>
          let Hp := fresh "Hisend" in
          destruct (image_send d c st) as [[[??]?]|] eqn:Hp
      | context [match ?x with _ => _ end] => destruct x eqn:?
      end ]).

Lemma path_step_no_image env a d c st st' evs :
  path_step env a d c st = Some (st', evs) -> images_added (calls evs) = [].
Proof.
  intros Hstep. destruct st as [dp ws pe cl]; simpl in *.
  destruct a; stage_cases Hstep.
Qed.

Lemma image_step_no_image env a d c st st' evs :
  image_step env a d c st = Some (st', evs) -> images_added (calls evs) = [].
Proof.
  intros Hstep. destruct st as [dp ws pe cl]; simpl in *.
  destruct a; stage_cases Hstep.
Qed.

Section PagesFacts.
Variable env : Env.

Lemma pages_step_stages a s s' :
  Pages.step env a s = Some s' -> inv_stages env s -> inv_stages env s'.
Proof.
  intros Hstep [Hp Hi]. destruct s; simpl in *.
  destruct a; pages_cases Hstep; unfold inv_stages; simpl.
  all: eauto using path_step_inv, image_step_inv, path_recv_inv, image_recv_inv.
  - split; eauto using image_recv_inv.
    by eapply path_send_inv.
  - split; [done|]. by eapply image_send_inv.
Qed.

Lemma pages_step_failed a s s' :
  Pages.step env a s = Some s' ->
  pages_failed s' = false -> pages_failed s = false.
Proof.
  intros Hstep. destruct s; simpl in *.
  destruct a; pages_cases Hstep; unfold pages_failed; simpl; try done.
  all: rewrite !orb_false_iff; intros [Hp Hi].
  - apply path_recv_spec with (env := env) in Hprecv as (_ & _ & <- & _). done.
  - eapply path_step_failed in Hpath as [? _]; done.
  - apply path_send_spec with (env := env) in Hpsend as (_ & <- & _).
    apply image_recv_spec with (env := env) in Hirecv as (_ & _ & <- & _). done.
  - eapply image_step_failed in Himage as [? _]; done.
  - apply image_send_spec with (env := env) in Hisend as (_ & <- & _). done.
Qed.

Lemma pages_step_canceled a s s' :
  Pages.step env a s = Some s' -> inv_canceled s -> inv_canceled s'.
Proof.
  intros Hstep Hinv Hc.
  destruct (pages_failed s') eqn:Hf; [by left|right].
  pose proof (pages_step_failed _ _ _ Hstep Hf) as Hf0.
  revert Hinv Hc Hf Hf0. unfold inv_canceled.
  destruct s; simpl in *.
  destruct a; pages_cases Hstep; unfold pages_failed; simpl.
  all: rewrite ?orb_false_r; try done.
  all: try (intros Hinv Hc; destruct (Hinv Hc) as [?|?]; congruence).
  - intros Hinv Hc Hf Hf0. apply orb_false_iff in Hf as [Hf _].
    eapply path_step_failed in Hpath as [_ Hnc]; [|done].
    rewrite Hnc, orb_false_r in Hc. destruct (Hinv Hc); congruence.
  - intros Hinv Hc Hf Hf0. apply orb_false_iff in Hf as [_ Hf].
    eapply image_step_failed in Himage as [_ Hnc]; [|done].
    rewrite Hnc, orb_false_r in Hc. destruct (Hinv Hc); congruence.
Qed.

Lemma pages_step_results a s s' :
  Pages.step env a s = Some s' -> inv_results s -> inv_results s'.
Proof.
  intros Hstep. unfold inv_results. destruct s; simpl in *.
  destruct a; pages_cases Hstep; simpl; try done.
  all: rewrite ?calls_app; unfold images_added; rewrite ?omap_app; simpl.
  all: rewrite ?app_nil_r; try done.
  all: try (by intros ->).
  - apply path_step_no_image in Hpath. unfold images_added in Hpath.
    rewrite Hpath, app_nil_r. done.
  - apply image_step_no_image in Himage. unfold images_added in Himage.
    rewrite Himage, app_nil_r. done.
Qed.

End PagesFacts.

(** ** More on the stages: closing, ending, and what is logged *)

Lemma elem_of_middle {A} (x w : A) (l1 l2 : list A) :
  x ∈ l1 ++ w :: l2 <-> x = w \/ x ∈ l1 ++ l2.
Proof. rewrite !elem_of_app, elem_of_cons. tauto. Qed.

Section StageEnd.
Variable env : Env.

Lemma path_step_closed a d c st st' evs :
  path_step env a d c st = Some (st', evs) ->
  paths_closed st = true -> paths_closed st' = true.
Proof.
  intros Hstep. destruct st as [dp ws pe cl]; simpl in *.
  destruct a; stage_cases Hstep.
Qed.

Lemma path_recv_closed c st st' :
  path_recv c st = Some st' -> paths_closed st' = paths_closed st.
Proof. intros Hstep. destruct st; by stage_cases Hstep. Qed.

Lemma path_send_closed d i st c p st' :
  path_send d i st = Some (c, p, st') -> paths_closed st' = paths_closed st.
Proof. intros Hstep. destruct st; by stage_cases Hstep. Qed.

Lemma image_step_closed a d c st st' evs :
  image_step env a d c st = Some (st', evs) ->
  images_closed st = true -> images_closed st' = true.
Proof.
  intros Hstep. destruct st as [dp ws pe cl]; simpl in *.
  destruct a; stage_cases Hstep.
Qed.

Lemma image_recv_closed c st st' :
  image_recv c st = Some st' -> images_closed st' = images_closed st.
Proof. intros Hstep. destruct st; by stage_cases Hstep. Qed.

Lemma image_send_closed d i st p it st' :
  image_send d i st = Some (p, it, st') -> images_closed st' = images_closed st.
Proof. intros Hstep. destruct st; by stage_cases Hstep. Qed.

(** Once a stage is over, only its channel remains to be closed. *)
Lemma path_step_over a d c st st' evs :
  path_step env a d c st = Some (st', evs) ->
  path_over st = true ->
  path_over st' = true /\ perr st' = perr st /\ evs = [].
Proof.
  intros Hstep Hover. apply path_over_true in Hover as [Hd Hw].
  destruct st as [dp ws pe cl]; simpl in *. subst.
  destruct a; stage_cases Hstep.
Qed.

Lemma path_recv_over c st st' :
  path_recv c st = Some st' -> path_over st = false.
Proof. intros Hstep. destruct st; by stage_cases Hstep. Qed.

Lemma path_send_over d i st c p st' :
  path_send d i st = Some (c, p, st') -> path_over st = false.
Proof.
  intros Hstep. destruct st as [dp ws pe cl]; stage_cases Hstep.
  all: unfold path_over; simpl; destruct dp; try done; by destruct ws.
Qed.

Lemma image_step_over a d c st st' evs :
  image_step env a d c st = Some (st', evs) ->
  image_over st = true ->
  image_over st' = true /\ ierr st' = ierr st /\ evs = [].
Proof.
  intros Hstep Hover. apply image_over_true in Hover as [Hd Hw].
  destruct st as [dp ws pe cl]; simpl in *. subst.
  destruct a; stage_cases Hstep.
Qed.

Lemma image_recv_over c st st' :
  image_recv c st = Some st' -> image_over st = false.
Proof. intros Hstep. destruct st; by stage_cases Hstep. Qed.

Lemma image_send_over d i st p it st' :
  image_send d i st = Some (p, it, st') -> image_over st = false.
Proof.
  intros Hstep. destruct st as [dp ws pe cl]; stage_cases Hstep.
  all: unfold image_over; simpl; destruct dp; try done; by destruct ws.
Qed.

(** What a stage logs by itself: progress calls, the entry into a fetch,
    and calls of cancel. *)
Lemma path_step_events a d c st st' evs ev :
  path_step env a d c st = Some (st', evs) -> ev ∈ evs ->
  match ev with
  | Progress _ | CancelCalled => True
  | FetchPathsCall ctx ch => ctx = context d /\ PFetching ch ∈ pworkers st'
  | _ => False
  end.
Proof.
  intros Hstep. destruct st as [dp ws pe cl]; simpl in *.
  destruct a; stage_cases Hstep; try split_workers.
  all: rewrite ?elem_of_cons, ?elem_of_nil; intros; destruct_or?; simplify_eq; try done.
  split; [done|]. apply elem_of_middle. by left.
Qed.

Lemma image_step_events a d c st st' evs ev :
  image_step env a d c st = Some (st', evs) -> ev ∈ evs ->
  match ev with
  | Progress _ | CancelCalled => True
  | GetImageCall ctx p => ctx = context d /\ IFetching p ∈ iworkers st'
  | _ => False
  end.
Proof.
  intros Hstep. destruct st as [dp ws pe cl]; simpl in *.
  destruct a; stage_cases Hstep; try split_workers.
  all: rewrite ?elem_of_cons, ?elem_of_nil; intros; destruct_or?; simplify_eq; try done.
  split; [done|]. apply elem_of_middle. by left.
Qed.

(** A fetch that has been entered is still running, or has succeeded, or
    has made the stage fail. *)
Lemma path_step_fetching a d c st st' evs ch :
  path_step env a d c st = Some (st', evs) ->
  PFetching ch ∈ pworkers st ->
  (exists ctx, is_ok (FetchPaths env ctx ch) = true) \/ path_failed st' = true \/
  PFetching ch ∈ pworkers st'.
Proof.
  intros Hstep. destruct st as [dp ws pe cl]; simpl in *.
  destruct a; stage_cases Hstep; unfold path_failed; simpl;
    try split_workers; auto.
  all: rewrite ?orb_true_r; auto.
  all: rewrite ?elem_of_middle, ?elem_of_app; intros; destruct_or?; simplify_eq; auto.
  all: try (right; right; auto; fail).
  all: try (left; eexists;
            by match goal with H : FetchPaths _ _ _ = _ |- _ => rewrite H end).
Qed.

Lemma path_recv_fetching c st st' :
  path_recv c st = Some st' -> pworkers st' = pworkers st.
Proof. intros Hstep. destruct st; by stage_cases Hstep. Qed.

Lemma path_send_fetching d i st c p st' ch :
  path_send d i st = Some (c, p, st') ->
  PFetching ch ∈ pworkers st -> PFetching ch ∈ pworkers st'.
Proof.
  intros Hstep. destruct st as [dp ws pe cl]; stage_cases Hstep.
  all: split_workers; rewrite !elem_of_middle; intros [?|?]; [done|by right].
Qed.

Lemma image_step_fetching a d c st st' evs p :
  image_step env a d c st = Some (st', evs) ->
  IFetching p ∈ iworkers st ->
  (exists ctx, is_ok (getImage env ctx (PathItem.URL p) 0%Z) = true) \/
  image_failed st' = true \/
  IFetching p ∈ iworkers st'.
Proof.
  intros Hstep. destruct st as [dp ws pe cl]; simpl in *.
  destruct a; stage_cases Hstep; unfold image_failed; simpl;
    try split_workers; auto.
  all: rewrite ?orb_true_r; auto.
  all: rewrite ?elem_of_middle, ?elem_of_app; intros; destruct_or?; simplify_eq; auto.
  all: try (right; right; auto; fail).
  all: try (left; eexists;
            by match goal with H : getImage _ _ _ _ = _ |- _ => rewrite H end).
Qed.

Lemma image_recv_fetching c st st' :
  image_recv c st = Some st' -> iworkers st' = iworkers st.
Proof. intros Hstep. destruct st; by stage_cases Hstep. Qed.

Lemma image_send_fetching d i st p it st' q :
  image_send d i st = Some (p, it, st') ->
  IFetching q ∈ iworkers st -> IFetching q ∈ iworkers st'.
Proof.
  intros Hstep. destruct st as [dp ws pe cl]; stage_cases Hstep.
  all: split_workers; rewrite !elem_of_middle; intros [?|?]; [done|by right].
Qed.
End StageEnd.

Section StageErr.
Variable env : Env.

Lemma path_step_perr a d c st st' evs :
  path_step env a d c st = Some (st', evs) ->
  is_Some (perr st) -> is_Some (perr st').
Proof.
  intros Hstep. destruct st as [dp ws pe cl]; simpl in *.
  destruct a; stage_cases Hstep; auto using record_err_is_Some.
Qed.

Lemma path_recv_perr c st st' :
  path_recv c st = Some st' -> perr st' = perr st.
Proof. intros Hstep. destruct st; by stage_cases Hstep. Qed.

Lemma path_send_perr d i st c p st' :
  path_send d i st = Some (c, p, st') -> perr st' = perr st.
Proof. intros Hstep. destruct st; by stage_cases Hstep. Qed.

Lemma image_step_ierr a d c st st' evs :
  image_step env a d c st = Some (st', evs) ->
  is_Some (ierr st) -> is_Some (ierr st').
Proof.
  intros Hstep. destruct st as [dp ws pe cl]; simpl in *.
  destruct a; stage_cases Hstep; auto using record_err_is_Some.
Qed.

Lemma image_recv_ierr c st st' :
  image_recv c st = Some st' -> ierr st' = ierr st.
Proof. intros Hstep. destruct st; by stage_cases Hstep. Qed.

Lemma image_send_ierr d i st p it st' :
  image_send d i st = Some (p, it, st') -> ierr st' = ierr st.
Proof. intros Hstep. destruct st; by stage_cases Hstep. Qed.
End StageErr.

Section PagesFacts2.
Variable env : Env.

Lemma pages_step_drain a s s' :
  Pages.step env a s = Some s' -> inv_drain s -> inv_drain s'.
Proof.
  intros Hstep. unfold inv_drain. destruct s; simpl in *.
  destruct a; pages_cases Hstep; simpl; try done.
  all: intros (Hp & Hi & Hm).
  - pose proof (path_recv_closed _ _ _ Hprecv) as ->.
    apply path_recv_spec with (env := env) in Hprecv as (_ & Hd & _).
    rewrite Hd. done.
  - repeat split; try done. intros Hf Hd. by specialize (Hp Hf Hd).
  - repeat split; done.
  - repeat split; [|intros Hf Hd; eauto using path_step_closed|done].
    intros Hf Hd.
    destruct (path_step_failed _ _ _ _ _ _ _ Hpath Hf) as [Hf0 _].
    destruct (path_step_clean _ _ _ _ _ _ _ Hpath Hf Hd) as [Hd0|Hc]; [auto|].
    unfold Pages.chapters_closed in Hc; simpl in Hc. by destruct feeder.
  - pose proof (path_send_closed _ _ _ _ _ _ Hpsend) as ->.
    pose proof (image_recv_closed _ _ _ Hirecv) as ->.
    apply path_send_spec with (env := env) in Hpsend as (-> & -> & _).
    apply image_recv_spec with (env := env) in Hirecv as (_ & -> & _).
    repeat split; try done.
  - repeat split; [done| |].
    + intros Hf Hd.
      destruct (image_step_failed _ _ _ _ _ _ _ Himage Hf) as [Hf0 _].
      destruct (image_step_clean _ _ _ _ _ _ _ Himage Hf Hd) as [Hd0|Hc]; auto.
    + destruct main; try done; eauto using image_step_closed.
  - apply image_send_spec with (env := env) in Hisend as (-> & -> & _).
    repeat split; done.
  - repeat split; done.
Qed.

Lemma pages_step_waiters a s s' :
  Pages.step env a s = Some s' ->
  inv_stages env s -> inv_waiters s -> inv_waiters s'.
Proof.
  intros Hstep [Hps His]. unfold inv_waiters. destruct s; simpl in *.
  destruct a; pages_cases Hstep; simpl; try done.
  all: intros (Hp & Hi & He & Hes & Hr).
  - (* FeederSend *)
    pose proof (path_recv_over _ _ _ Hprecv) as Hno.
    pose proof (path_recv_perr _ _ _ Hprecv) as Hpe. rewrite Hpe.
    split_and!; try done. intros Hw; destruct (Hp Hw); congruence.
  - (* Paths *)
    split_and!; try done.
    + intros Hw. destruct (Hp Hw) as [Hov Hpe].
      destruct (path_step_over _ _ _ _ _ _ _ Hpath Hov) as (? & -> & _). done.
    + intros Hs. destruct (Hes Hs); eauto using path_step_perr.
  - (* PathHandoff *)
    pose proof (path_send_over _ _ _ _ _ _ Hpsend) as Hno.
    pose proof (image_recv_over _ _ _ Hirecv) as Hno'.
    pose proof (path_send_perr _ _ _ _ _ _ Hpsend) as Hpe.
    pose proof (image_recv_ierr _ _ _ Hirecv) as Hie. rewrite Hpe, Hie.
    split_and!; try done; intros Hw;
      try destruct (Hp Hw); try destruct (Hi Hw); congruence.
  - (* Images *)
    split_and!; try done.
    + intros Hw. destruct (Hi Hw) as [Hov Hie].
      destruct (image_step_over _ _ _ _ _ _ _ Himage Hov) as (? & -> & _). done.
    + intros Hs. destruct (Hes Hs); eauto using image_step_ierr.
  - (* ImageHandoff *)
    pose proof (image_send_over _ _ _ _ _ _ Hisend) as Hno.
    pose proof (image_send_ierr _ _ _ _ _ _ Hisend) as Hie. rewrite Hie.
    split_and!; try done; intros Hw;
      try destruct (Hp Hw); try destruct (Hi Hw); congruence.
  - (* MainAppend *) split_and!; done.
  - (* MainClosed *) split_and!; done.
  - (* WaitPaths *)
    destruct Hps as (_ & _ & _ & Hpe & _).
    split_and!; try done.
    + intros _. split; [done|]. intros Hs. by destruct err.
    + intros Hw. destruct (Hi Hw) as [? Hie]. split; [done|]. intros Hs.
      apply record_err_is_Some. auto.
    + by apply record_err_ok.
    + destruct err; simpl; auto.
    + intros r Hm. by destruct (Hr r Hm).
  - (* WaitImages *)
    destruct His as (_ & _ & _ & Hie & _).
    split_and!; try done.
    + intros Hw. destruct (Hp Hw) as [? Hpe]. split; [done|]. intros Hs.
      apply record_err_is_Some. auto.
    + intros _. split; [done|]. intros Hs. by destruct err.
    + by apply record_err_ok.
    + destruct err; simpl; auto.
    + intros r Hm. by destruct (Hr r Hm) as (? & ? & ?).
  - (* MainReturn *)
    split_and!; try done. by intros r [= <-].
Qed.

Lemma path_over_future st : path_over st = true -> path_future env st = [].
Proof.
  intros Hover. apply path_over_true in Hover as [Hd Hw].
  unfold path_future. by rewrite Hd, Hw.
Qed.

Lemma image_over_future st : image_over st = true -> image_future env st = [].
Proof.
  intros Hover. apply image_over_true in Hover as [Hd Hw].
  unfold image_future. by rewrite Hd, Hw.
Qed.

(** As long as nothing has failed, the context is live until the return,
    and by then both stages are over. *)
Lemma pages_live s :
  inv_waiters s -> inv_canceled s -> pages_failed s = false ->
  Pages.canceled s = false \/
  (path_over (Pages.pstage s) = true /\ image_over (Pages.istage s) = true).
Proof.
  intros Hw Hcan Hf. destruct (Pages.canceled s) eqn:Hc; [right|by left].
  destruct (Hcan Hc) as [?|Hret]; [congruence|].
  destruct (Pages.main s) eqn:Hm; try done.
  destruct Hw as (Hp & Hi & _ & _ & Hr).
  destruct (Hr _ Hm) as (Hpw & Hiw & _).
  split; [by apply Hp|by apply Hi].
Qed.

Lemma pages_step_future l a s s' :
  Pages.step env a s = Some s' ->
  inv_waiters s -> inv_canceled s ->
  inv_future env l s -> inv_future env l s'.
Proof.
  intros Hstep Hw Hcan Hinv Hf.
  pose proof (pages_step_failed _ _ _ _ Hstep Hf) as Hf0.
  pose proof (pages_live _ Hw Hcan Hf0) as Hlive.
  specialize (Hinv Hf0). revert Hinv Hf Hlive. clear Hf0 Hw Hcan.
  unfold pages_future, pages_failed.
  destruct s; simpl in *.
  destruct a; pages_cases Hstep; simpl.
  all: rewrite ?calls_app, ?orb_false_iff; simpl.
  all: intros Hinv [Hfp Hfi] Hlive; rewrite <- Hinv; clear Hinv.
  all: try solve_Permutation.
  - apply path_recv_spec with (env := env) in Hprecv as (_ & _ & _ & -> & _).
    solve_Permutation.
  - destruct Hlive as [->|[Hpo _]].
    + rewrite <- (path_step_future _ _ _ _ _ _ Hpath Hfp). solve_Permutation.
    + destruct (path_step_over _ _ _ _ _ _ _ Hpath Hpo) as (Hpo' & _ & ->).
      rewrite (path_over_future _ Hpo), (path_over_future _ Hpo').
      solve_Permutation.
  - apply path_send_spec with (env := env) in Hpsend as (_ & _ & -> & _).
    apply image_recv_spec with (env := env) in Hirecv as (_ & _ & _ & -> & _).
    solve_Permutation.
  - destruct Hlive as [->|[_ Hio]].
    + rewrite <- (image_step_future _ _ _ _ _ _ Himage Hfi). solve_Permutation.
    + destruct (image_step_over _ _ _ _ _ _ _ Himage Hio) as (Hio' & _ & ->).
      rewrite (image_over_future _ Hio), (image_over_future _ Hio').
      solve_Permutation.
  - apply image_send_spec with (env := env) in Hisend as (_ & _ & -> & _).
    solve_Permutation.
Qed.

Lemma has_cancel_app l1 l2 : has_cancel (l1 ++ l2) = has_cancel l1 || has_cancel l2.
Proof. apply existsb_app. Qed.

Lemma path_step_failed_mono a d c st st' evs :
  path_step env a d c st = Some (st', evs) ->
  path_failed st = true -> path_failed st' = true.
Proof.
  intros Hstep Hf. destruct (path_failed st') eqn:Hf'; [done|].
  destruct (path_step_failed _ _ _ _ _ _ _ Hstep Hf'). congruence.
Qed.

Lemma image_step_failed_mono a d c st st' evs :
  image_step env a d c st = Some (st', evs) ->
  image_failed st = true -> image_failed st' = true.
Proof.
  intros Hstep Hf. destruct (image_failed st') eqn:Hf'; [done|].
  destruct (image_step_failed _ _ _ _ _ _ _ Hstep Hf'). congruence.
Qed.

Lemma pages_step_log a s s' :
  Pages.step env a s = Some s' ->
  inv_stages env s -> inv_log env s -> inv_log env s'.
Proof.
  intros Hstep [Hps His]. unfold inv_log. destruct s; simpl in *.
  destruct a; pages_cases Hstep; simpl; try done.
  all: intros (Hc & Hsent & Hisent & Hfetch & Hget).
  all: rewrite ?has_cancel_app; simpl; rewrite ?orb_false_r.
  all: split; [by rewrite Hc|].
  - (* FeederSend *)
    pose proof (path_recv_fetching _ _ _ Hprecv) as ->.
    apply path_recv_spec with (env := env) in Hprecv as (_ & _ & -> & _).
    done.
  - (* FeederIncrease *)
    split_and!; intros *; rewrite elem_of_app, list_elem_of_singleton;
      (intros [?|?]; [eauto|done]).
  - (* Paths *)
    split_and!; intros *; rewrite elem_of_app; (intros [Hin|Hin]).
    all: try (by apply (path_step_events _ _ _ _ _ _ _ _ Hpath) in Hin).
    all: eauto.
    + destruct (Hfetch _ _ Hin) as [?|[?|?]]; eauto using path_step_failed_mono.
      eapply path_step_fetching in Hpath; eauto.
    + apply (path_step_events _ _ _ _ _ _ _ _ Hpath) in Hin as [_ ?]. auto.
  - (* PathHandoff *)
    destruct (path_send_inv _ _ _ _ _ _ _ Hpsend Hps) as [_ Hok].
    pose proof (image_recv_fetching _ _ _ Hirecv) as ->.
    pose proof (fun ch => path_send_fetching _ _ _ _ _ _ ch Hpsend) as Hfe.
    apply path_send_spec with (env := env) in Hpsend as (_ & -> & _).
    apply image_recv_spec with (env := env) in Hirecv as (_ & _ & -> & _).
    split_and!; intros *; rewrite elem_of_app, list_elem_of_singleton;
      (intros [Hin|Hin]); simplify_eq; eauto.
    destruct (Hfetch _ _ Hin) as [?|[?|?]]; eauto.
  - (* Images *)
    split_and!; intros *; rewrite elem_of_app; (intros [Hin|Hin]).
    all: try (by apply (image_step_events _ _ _ _ _ _ _ _ Himage) in Hin).
    all: eauto.
    + destruct (Hget _ _ Hin) as [?|[?|?]]; eauto using image_step_failed_mono.
      eapply image_step_fetching in Himage; eauto.
    + apply (image_step_events _ _ _ _ _ _ _ _ Himage) in Hin as [_ ?]. auto.
  - (* ImageHandoff *)
    destruct (image_send_inv _ _ _ _ _ _ _ Hisend His) as [_ Hok].
    pose proof (fun q => image_send_fetching _ _ _ _ _ _ q Hisend) as Hfe.
    apply image_send_spec with (env := env) in Hisend as (_ & -> & _).
    split_and!; intros *; rewrite elem_of_app, list_elem_of_singleton;
      (intros [Hin|Hin]); simplify_eq; eauto.
    destruct (Hget _ _ Hin) as [?|[?|?]]; eauto.
  - (* MainAppend *)
    split_and!; intros *; rewrite elem_of_app, list_elem_of_singleton;
      (intros [?|?]; [eauto|done]).
  - (* MainReturn *)
    split_and!; intros *; rewrite elem_of_app, list_elem_of_singleton;
      (intros [?|?]; [eauto|done]).
Qed.
End PagesFacts2.

Section Noted.
Variable env : Env.

Lemma path_step_noted a d c st st' evs :
  path_step env a d c st = Some (st', evs) ->
  path_noted st' = true ->
  path_noted st = true \/ d = true \/ has_cancel evs = true.
Proof.
  intros Hstep. destruct st as [dp ws pe cl]; simpl in *.
  destruct a; stage_cases Hstep; unfold path_noted; simpl;
    try split_workers; auto.
  all: rewrite ?existsb_app; simpl; rewrite ?orb_false_r, ?orb_true_r; auto.
  all: try (destruct pe; simpl; rewrite ?orb_true_r, ?orb_false_r; simpl; auto).
  all: try (destruct e; simpl; rewrite ?orb_true_r, ?orb_false_r; simpl; auto).
Qed.

Lemma path_recv_noted c st st' :
  path_recv c st = Some st' -> path_noted st' = path_noted st.
Proof. intros Hstep. destruct st; by stage_cases Hstep. Qed.

Lemma path_send_noted d i st c p st' :
  path_send d i st = Some (c, p, st') -> path_noted st' = path_noted st.
Proof.
  intros Hstep. destruct st; stage_cases Hstep; unfold path_noted; simpl.
  all: split_workers; done.
Qed.

Lemma image_step_noted a d c st st' evs :
  image_step env a d c st = Some (st', evs) ->
  image_noted st' = true ->
  image_noted st = true \/ d = true \/ has_cancel evs = true.
Proof.
  intros Hstep. destruct st as [dp ws pe cl]; simpl in *.
  destruct a; stage_cases Hstep; unfold image_noted; simpl;
    try split_workers; auto.
  all: rewrite ?existsb_app; simpl; rewrite ?orb_false_r, ?orb_true_r; auto.
  all: try (destruct pe; simpl; rewrite ?orb_true_r, ?orb_false_r; simpl; auto).
  all: try (destruct e; simpl; rewrite ?orb_true_r, ?orb_false_r; simpl; auto).
Qed.

Lemma image_recv_noted c st st' :
  image_recv c st = Some st' -> image_noted st' = image_noted st.
Proof. intros Hstep. destruct st; by stage_cases Hstep. Qed.

Lemma image_send_noted d i st p it st' :
  image_send d i st = Some (p, it, st') -> image_noted st' = image_noted st.
Proof.
  intros Hstep. destruct st; stage_cases Hstep; unfold image_noted; simpl.
  all: split_workers; done.
Qed.

Lemma pages_step_canceled_mono a s s' :
  Pages.step env a s = Some s' ->
  Pages.canceled s = true -> Pages.canceled s' = true.
Proof.
  intros Hstep. destruct s; simpl in *.
  destruct a; pages_cases Hstep; simpl; try done.
  all: by intros ->.
Qed.

Lemma pages_step_noted a s s' :
  Pages.step env a s = Some s' -> inv_noted s -> inv_noted s'.
Proof.
  intros Hstep Hinv Hn.
  pose proof (pages_step_canceled_mono _ _ _ Hstep) as Hmono.
  revert Hinv Hn Hmono. unfold inv_noted. destruct s; simpl in *.
  destruct a; pages_cases Hstep; simpl; auto.
  - rewrite (path_recv_noted _ _ _ Hprecv). auto.
  - intros Hinv Hn Hmono. apply orb_true_iff in Hn as [Hn|Hn].
    + destruct (path_step_noted _ _ _ _ _ _ Hpath Hn) as [Ho|[Ho|Ho]].
      * apply Hmono, Hinv. by rewrite Ho.
      * subst. auto.
      * rewrite Ho. apply orb_true_r.
    + apply Hmono, Hinv. rewrite Hn. apply orb_true_r.
  - rewrite (path_send_noted _ _ _ _ _ _ Hpsend).
    rewrite (image_recv_noted _ _ _ Hirecv). rewrite orb_false_r. auto.
  - intros Hinv Hn Hmono. apply orb_true_iff in Hn as [Hn|Hn].
    + apply Hmono, Hinv. by rewrite Hn.
    + destruct (image_step_noted _ _ _ _ _ _ Himage Hn) as [Ho|[Ho|Ho]].
      * apply Hmono, Hinv. rewrite Ho. apply orb_true_r.
      * subst. auto.
      * rewrite Ho. apply orb_true_r.
  - rewrite (image_send_noted _ _ _ _ _ _ Hisend). rewrite orb_false_r. auto.
Qed.
End Noted.

(** ** MangadexPages: every reachable state satisfies the invariants *)

Section PagesReach.
Variable env : Env.

Lemma pages_step_inv l a s s' :
  Pages.step env a s = Some s' -> pages_inv env l s -> pages_inv env l s'.
Proof.
  intros Hstep [H1 H2 H3 H4 H5 H6 H7 H8]. split.
  - eapply pages_step_stages; eauto.
  - eapply pages_step_canceled; eauto.
  - eapply pages_step_future; eauto.
  - eapply pages_step_results; eauto.
  - eapply pages_step_drain; eauto.
  - eapply pages_step_waiters; eauto.
  - eapply pages_step_log; eauto.
  - eapply pages_step_noted; eauto.
Qed.

Lemma pages_init_inv l : pages_inv env l (Pages.init l).
Proof.
  split.
  - split; unfold path_inv, image_inv; simpl;
      unfold maxJobsChapter, maxJobsImage; split_and!; auto with lia; done.
  - intros Hc. done.
  - intros _. unfold pages_future; simpl. by rewrite !app_nil_r.
  - done.
  - unfold inv_drain; simpl. split_and!; done.
  - unfold inv_waiters; simpl. split_and!; try done; by intros [? ?].
  - unfold inv_log; simpl. split_and!; try done; intros *; by rewrite elem_of_nil.
  - intros Hn. done.
Qed.

Lemma pages_run_inv l sched s s' :
  Pages.run env sched s = Some s' -> pages_inv env l s -> pages_inv env l s'.
Proof.
  revert s. induction sched as [|a sched IH]; intros s Hrun Hinv; simpl in Hrun.
  - by simplify_eq.
  - destruct (Pages.step env a s) as [s1|] eqn:Hstep; simpl in Hrun; [|done].
    eauto using pages_step_inv.
Qed.

Lemma pages_reachable_inv l s :
  Pages.reachable env l s -> pages_inv env l s.
Proof. intros [sched Hrun]. eauto using pages_run_inv, pages_init_inv. Qed.

Lemma pages_run_app sched1 sched2 s :
  Pages.run env (sched1 ++ sched2) s =
  Pages.run env sched1 s ≫= Pages.run env sched2.
Proof.
  revert s. induction sched1 as [|a sched1 IH]; intros s; simpl; [done|].
  destruct (Pages.step env a s); simpl; auto.
Qed.

Lemma pages_reachable_step l a s s' :
  Pages.reachable env l s -> Pages.step env a s = Some s' ->
  Pages.reachable env l s'.
Proof.
  intros [sched Hrun] Hstep. exists (sched ++ [a]).
  rewrite pages_run_app, Hrun. simpl. by rewrite Hstep.
Qed.

Lemma images_added_app cs1 cs2 :
  images_added (cs1 ++ cs2) = images_added cs1 ++ images_added cs2.
Proof. apply omap_app. Qed.

Lemma images_added_pages ps :
  images_added (flat_map (page_calls env) ps) = flat_map (page_images env) ps.
Proof.
  induction ps as [|p ps IH]; [done|].
  change (flat_map (page_calls env) (p :: ps))
    with (page_calls env p ++ flat_map (page_calls env) ps).
  change (flat_map (page_images env) (p :: ps))
    with (page_images env p ++ flat_map (page_images env) ps).
  rewrite images_added_app, IH. f_equal.
  unfold page_calls, image_calls, page_images.
  by destruct (getImage env CtxLive (PathItem.URL p) 0%Z).
Qed.

Lemma images_added_expected l :
  images_added (expected_calls env l) = expected_images env l.
Proof.
  induction l as [|c l IH]; [done|].
  unfold expected_calls, expected_images in *.
  change (flat_map (chapter_calls env) (c :: l))
    with (chapter_calls env c ++ flat_map (chapter_calls env) l).
  change (flat_map (chapter_images env) (c :: l))
    with (chapter_images env c ++ flat_map (chapter_images env) l).
  rewrite images_added_app, IH. f_equal.
  unfold chapter_calls, manifest_calls, chapter_images.
  destruct (FetchPaths env CtxLive c); [|done].
  apply images_added_pages.
Qed.

(** What holds when [MangadexPages] has returned. *)
Lemma pages_returned_error l s r :
  pages_inv env l s -> Pages.main s = MReturned r ->
  r = return_value (Pages.err s) (Pages.results s) /\
  path_over (Pages.pstage s) = true /\ image_over (Pages.istage s) = true /\
  (pages_failed s = true <-> is_Some (Pages.err s)).
Proof.
  intros [_ _ _ _ _ Hw _ _] Hm.
  destruct Hw as (Hp & Hi & _ & Hes & Hr).
  destruct (Hr _ Hm) as (Hpw & Hiw & ->).
  destruct (Hp Hpw) as [Hpo Hpe]. destruct (Hi Hiw) as [Hio Hie].
  split_and!; try done.
  apply path_over_true in Hpo as [Hpd Hpws].
  apply image_over_true in Hio as [Hid Hiws].
  unfold pages_failed, path_failed, image_failed.
  rewrite Hpd, Hpws, Hid, Hiws. simpl.
  rewrite orb_true_iff, !bool_decide_eq_true. split; [intros [?|?]; auto|done].
Qed.

Lemma pages_returned_clean l s r :
  pages_inv env l s -> Pages.main s = MReturned r ->
  Pages.err s = None ->
  calls (Pages.log s) ≡ₚ expected_calls env l /\
  Pages.results s ≡ₚ expected_images env l.
Proof.
  intros Hinv Hm He.
  destruct (pages_returned_error _ _ _ Hinv Hm) as (_ & Hpo & Hio & Hf).
  assert (pages_failed s = false) as Hnf.
  { destruct (pages_failed s); [|done].
    destruct Hf as [Hf _]. destruct (Hf eq_refl) as [? Hs]. congruence. }
  destruct Hinv as [_ _ Hfut Hres Hdr _ _ _].
  assert (pages_future env s = []) as Hnil.
  { apply orb_false_iff in Hnf as [Hpf Hif].
    apply path_over_true in Hpo as [Hpd Hpws].
    apply image_over_true in Hio as [Hid Hiws].
    destruct Hdr as (Hfeed & _ & _).
    unfold pages_future, path_future, image_future.
    rewrite Hfeed, Hpd, Hpws, Hid, Hiws, Hm; [done|done|].
    by rewrite Hpd. }
  specialize (Hfut Hnf). rewrite Hnil, app_nil_r in Hfut.
  split; [done|].
  rewrite Hres, <- images_added_expected. unfold images_added.
  by rewrite Hfut.
Qed.
End PagesReach.

(** ** MangadexPages returns: every move uses up weight, and some move is
    possible until the return *)

Section PagesTermination.
Variable env : Env.

Lemma pages_step_weight a s s' :
  Pages.step env a s = Some s' -> pages_weight env s' < pages_weight env s.
Proof.
  intros Hstep. unfold pages_weight. destruct s; simpl in *.
  destruct a; pages_cases Hstep; simpl; try lia.
  - apply path_recv_spec with (env := env) in Hprecv as (_ & _ & _ & _ & ->).
    lia.
  - apply path_step_weight in Hpath. lia.
  - apply path_send_spec with (env := env) in Hpsend as (_ & _ & _ & Hle).
    apply image_recv_spec with (env := env) in Hirecv as (_ & _ & _ & _ & ->).
    unfold page_weight in Hle. lia.
  - apply image_step_weight in Himage. lia.
  - apply image_send_spec with (env := env) in Hisend as (_ & _ & _ & Hle).
    lia.
Qed.

Lemma pages_run_weight sched s s' :
  Pages.run env sched s = Some s' ->
  length sched + pages_weight env s' <= pages_weight env s.
Proof.
  revert s. induction sched as [|a sched IH]; intros s Hrun; simpl in *.
  - simplify_eq. lia.
  - destruct (Pages.step env a s) as [s1|] eqn:Hstep; simpl in Hrun; [|done].
    apply pages_step_weight in Hstep. apply IH in Hrun. lia.
Qed.

Ltac can_do a :=
  exists a; unfold Pages.step, path_step, image_step, path_worker_step,
    image_worker_step, path_send, path_recv, image_send, image_recv; simpl;
  repeat case_match; simplify_eq/=; eauto; fail.

Lemma pages_progress l s :
  pages_inv env l s -> returned (Pages.main s) = false ->
  exists a s', Pages.step env a s = Some s'.
Proof.
  intros [[Hps His] _ _ _ Hdr Hw _ Hn] Hret.
  destruct s as [fe [pd pws pe pcl] [id iws ie icl] pw iw er m rs cn lg].
  unfold inv_drain, inv_waiters, inv_noted in *; simpl in *.
  destruct Hdr as (_ & Hdi & Hdm).
  destruct m as [|it| |r]; [|can_do Pages.MainAppend| |done].
  - (* in the range loop *)
    destruct icl; [can_do Pages.MainClosed|].
    destruct iws as [|w iws].
    2:{ destruct w; [can_do (Pages.Images (WorkerStep 0))..| | |].
        - can_do (Pages.ImageHandoff 0).
        - destruct cn; [can_do (Pages.Images (WorkerCanceled 0))
                       |can_do (Pages.ImageHandoff 0)].
        - can_do (Pages.Images (WorkerStep 0)). }
    destruct id as [|p|e|]; [|can_do (Pages.Images DispSpawn)
                             |can_do (Pages.Images DispExit)
                             |can_do (Pages.Images Close)].
    destruct cn; [can_do (Pages.Images DispCanceled)|].
    destruct pcl; [can_do (Pages.Images DispClosed)|].
    destruct pws as [|w pws].
    2:{ destruct w as [| | | |c [|p ps]| | |];
          [can_do (Pages.Paths (WorkerStep 0))..| | | |].
        - can_do (Pages.PathHandoff 0).
        - can_do (Pages.PathHandoff 0).
        - can_do (Pages.Paths (WorkerStep 0)).
        - can_do (Pages.Paths (WorkerStep 0)). }
    destruct pd as [|c|e|]; [|can_do (Pages.Paths DispSpawn)
                             |can_do (Pages.Paths DispExit)
                             |can_do (Pages.Paths Close)].
    destruct fe as [[|c cs]|c cs|].
    + can_do Pages.FeederClose.
    + can_do Pages.FeederSend.
    + can_do Pages.FeederIncrease.
    + can_do (Pages.Paths DispClosed).
  - (* inside eg.Wait() *)
    destruct His as (_ & Hicl & _). destruct (Hicl Hdm) as [Hid Hiws].
    simpl in Hid, Hiws. subst id iws.
    destruct iw; [can_do Pages.WaitImages|].
    destruct pw; [|can_do Pages.MainReturn].
    destruct pws as [|w pws].
    2:{ assert (cn = true) as ->.
        { apply Hn. apply orb_true_iff. right.
          unfold image_noted, image_failed in *; simpl in *.
          destruct ie; [done|].
          destruct Hps as (_ & Hpcl & _). by destruct (Hpcl (Hdi eq_refl eq_refl)). }
        destruct w as [| | | |c [|p ps]| | |];
          [can_do (Pages.Paths (WorkerStep 0))..| | | |].
        - can_do (Pages.Paths (WorkerCanceled 0)).
        - can_do (Pages.Paths (WorkerCanceled 0)).
        - can_do (Pages.Paths (WorkerStep 0)).
        - can_do (Pages.Paths (WorkerStep 0)). }
    destruct pd as [|c|e|]; [|can_do (Pages.Paths DispSpawn)
                             |can_do (Pages.Paths DispExit)
                             |can_do Pages.WaitPaths].
    destruct fe as [[|c cs]|c cs|].
    + can_do Pages.FeederClose.
    + can_do Pages.FeederSend.
    + can_do Pages.FeederIncrease.
    + can_do (Pages.Paths DispClosed).
Qed.

(** From every reachable state some schedule leads to the return. *)
Lemma pages_returns l s :
  pages_inv env l s ->
  exists sched s', Pages.run env sched s = Some s' /\
                   returned (Pages.main s') = true.
Proof.
  remember (pages_weight env s) as n eqn:Hn.
  revert s Hn. induction (lt_wf n) as [n _ IH]. intros s -> Hinv.
  destruct (returned (Pages.main s)) eqn:Hret.
  { exists [], s. done. }
  destruct (pages_progress _ _ Hinv Hret) as (a & s1 & Hstep).
  destruct (IH (pages_weight env s1)
              (pages_step_weight _ _ _ Hstep) s1 eq_refl
              (pages_step_inv _ _ _ _ _ Hstep Hinv))
    as (sched & s' & Hrun & Hret').
  exists (a :: sched), s'. simpl. rewrite Hstep. done.
Qed.
End PagesTermination.

(** ** Runs in which nothing fails *)

Section Good.
Variable env : Env.

Lemma path_step_good a d c st st' evs :
  path_step env a d c st = Some (st', evs) ->
  d = false \/ path_over st = true ->
  path_good env st -> path_failed st = false ->
  path_good env st' /\ path_failed st' = false /\ has_cancel evs = false.
Proof.
  intros Hstep Hd. destruct st as [dp ws pe cl]; simpl in *.
  rewrite path_over_true in Hd; simpl in Hd.
  destruct a; stage_cases Hstep; unfold path_good, path_failed; simpl;
    try split_workers.
  all: rewrite ?existsb_app, ?Forall_app, ?Forall_cons; simpl.
  all: rewrite ?orb_false_r, ?orb_true_r; simpl; try done.
  all: intros (Hgd & Hgw) Hf.
  all: try (destruct Hd as [?|[? Hnil]]; [done|]; simplify_eq;
            try (by destruct l1); fail).
  all: try (assert (d = false) as -> by
              (destruct Hd as [?|[? Hnil]]; [done|by destruct l1])).
  all: clear Hd.
  all: repeat match goal with
       | H : _ || _ = false |- _ => apply orb_false_iff in H as [??]
       | H : _ /\ _ |- _ => destruct H
       end.
  all: simplify_eq/=.
  all: try match goal with
       | H : chapter_succeeds _ _ |- _ => destruct H as (? & ? & ?); simplify_eq
       end.
  all: try (destruct pe; [done|]); simpl.
  all: try (destruct e; [done|]); simpl.
  all: rewrite ?orb_false_iff; split_and?; auto.
  all: try match goal with
       | H : Forall _ (_ :: _) |- _ => by apply Forall_cons in H as [??]
       end.
  all: congruence.
Qed.

Lemma path_recv_good c st st' :
  path_recv c st = Some st' -> chapter_succeeds env c ->
  path_good env st -> path_good env st'.
Proof.
  intros Hstep Hc. destruct st; stage_cases Hstep. by intros [_ ?].
Qed.

Lemma path_send_good d i st c p st' :
  path_send d i st = Some (c, p, st') ->
  path_good env st -> path_good env st' /\ page_succeeds env p.
Proof.
  intros Hstep. destruct st; stage_cases Hstep; unfold path_good; simpl.
  all: split_workers; rewrite !Forall_app, !Forall_cons; simpl.
  all: intros (? & ? & Hps & ?); apply Forall_cons in Hps as [??]; done.
Qed.

Lemma image_step_good a d c st st' evs :
  image_step env a d c st = Some (st', evs) ->
  d = false \/ image_over st = true ->
  image_good env st -> image_failed st = false ->
  image_good env st' /\ image_failed st' = false /\ has_cancel evs = false.
Proof.
  intros Hstep Hd. destruct st as [dp ws pe cl]; simpl in *.
  rewrite image_over_true in Hd; simpl in Hd.
  destruct a; stage_cases Hstep; unfold image_good, image_failed; simpl;
    try split_workers.
  all: rewrite ?existsb_app, ?Forall_app, ?Forall_cons; simpl.
  all: rewrite ?orb_false_r, ?orb_true_r; simpl; try done.
  all: intros (Hgd & Hgw) Hf.
  all: try (destruct Hd as [?|[? Hnil]]; [done|]; simplify_eq;
            try (by destruct l1); fail).
  all: try (assert (d = false) as -> by
              (destruct Hd as [?|[? Hnil]]; [done|by destruct l1])).
  all: clear Hd.
  all: repeat match goal with
       | H : _ || _ = false |- _ => apply orb_false_iff in H as [??]
       | H : _ /\ _ |- _ => destruct H
       end.
  all: simplify_eq/=.
  all: try match goal with
       | H : page_succeeds _ _ |- _ => unfold page_succeeds in H
       end.
  all: try (destruct pe; [done|]); simpl.
  all: try (destruct e; [done|]); simpl.
  all: rewrite ?orb_false_iff; split_and?; auto.
  all: try congruence.
  match goal with H : getImage _ _ _ _ = Err _ |- _ => by rewrite H in * end.
Qed.

Lemma image_recv_good p st st' :
  image_recv p st = Some st' -> page_succeeds env p ->
  image_good env st -> image_good env st'.
Proof.
  intros Hstep Hc. destruct st; stage_cases Hstep. by intros [_ ?].
Qed.

Lemma image_send_good d i st p it st' :
  image_send d i st = Some (p, it, st') ->
  image_good env st -> image_good env st'.
Proof.
  intros Hstep. destruct st; stage_cases Hstep; unfold image_good; simpl.
  all: split_workers; rewrite !Forall_app, !Forall_cons; simpl; tauto.
Qed.

Lemma pages_step_good l a s s' :
  Pages.step env a s = Some s' ->
  pages_inv env l s -> inv_good env s -> inv_good env s'.
Proof.
  intros Hstep [_ _ _ _ _ Hw _ _].
  assert (returned (Pages.main s) = true ->
          path_over (Pages.pstage s) = true /\
          image_over (Pages.istage s) = true) as Hover.
  { destruct (Pages.main s) eqn:Hm; try done. intros _.
    destruct Hw as (Hp & Hi & _ & _ & Hr).
    destruct (Hr _ Hm) as (Hpw & Hiw & _).
    split; [by apply Hp|by apply Hi]. }
  clear Hw. revert Hover. unfold inv_good, pages_failed.
  destruct s; simpl in *.
  destruct a; pages_cases Hstep; simpl.
  all: intros Hover (Hgf & Hgp & Hgi & Hf & Hc).
  all: apply orb_false_iff in Hf as [Hfp Hfi].
  all: rewrite ?orb_false_r, ?orb_false_iff.
  all: try (split_and!; done).
  - (* FeederSend *)
    apply Forall_cons in Hgf as [Hg1 Hg2].
    pose proof (path_recv_good _ _ _ Hprecv Hg1 Hgp).
    apply path_recv_spec with (env := env) in Hprecv as (_ & _ & -> & _).
    split_and!; done.
  - (* Paths *)
    assert (canceled = false \/ path_over pstage = true) as Hd.
    { destruct (returned main); [right; by apply Hover|left; by apply Hc]. }
    destruct (path_step_good _ _ _ _ _ _ Hpath Hd Hgp Hfp) as (? & ? & ->).
    split_and!; try done. intros ?; split; auto.
  - (* PathHandoff *)
    destruct (path_send_good _ _ _ _ _ _ Hpsend Hgp) as [? Hp].
    pose proof (image_recv_good _ _ _ Hirecv Hp Hgi).
    apply path_send_spec with (env := env) in Hpsend as (_ & -> & _).
    apply image_recv_spec with (env := env) in Hirecv as (_ & _ & -> & _).
    split_and!; done.
  - (* Images *)
    assert (canceled = false \/ image_over istage = true) as Hd.
    { destruct (returned main); [right; by apply Hover|left; by apply Hc]. }
    destruct (image_step_good _ _ _ _ _ _ Himage Hd Hgi Hfi) as (? & ? & ->).
    split_and!; try done. intros ?; split; auto.
  - (* ImageHandoff *)
    pose proof (image_send_good _ _ _ _ _ _ Hisend Hgi).
    apply image_send_spec with (env := env) in Hisend as (_ & -> & _).
    split_and!; auto.
Qed.

Lemma pages_init_good l : all_succeed env l -> inv_good env (Pages.init l).
Proof. intros Hl. unfold inv_good, path_good, image_good; simpl. split_and!; done. Qed.

Lemma pages_run_good l sched s s' :
  Pages.run env sched s = Some s' ->
  pages_inv env l s -> inv_good env s -> inv_good env s'.
Proof.
  revert s. induction sched as [|a sched IH]; intros s Hrun Hinv Hg; simpl in Hrun.
  - by simplify_eq.
  - destruct (Pages.step env a s) as [s1|] eqn:Hstep; simpl in Hrun; [|done].
    eauto using pages_step_inv, pages_step_good.
Qed.

Lemma pages_reachable_good l s :
  all_succeed env l -> Pages.reachable env l s -> inv_good env s.
Proof.
  intros Hl [sched Hrun].
  eauto using pages_run_good, pages_init_inv, pages_init_good.
Qed.

(** With nothing failing, the images expected are those of all the pages. *)
Lemma expected_images_decoded l :
  all_succeed env l ->
  expected_images env l = map (decoded env) (all_pages env l).
Proof.
  unfold all_succeed, expected_images, all_pages.
  induction 1 as [|c l (ps & Hps & Hall) _ IH]; [done|].
  simpl. rewrite map_app, IH. f_equal.
  unfold chapter_images, chapter_pages. rewrite Hps.
  clear Hps. induction Hall as [|p ps Hp _ IHps]; [done|].
  simpl. rewrite IHps. f_equal.
  unfold page_images, decoded, page_succeeds in *.
  by destruct (getImage env CtxLive (PathItem.URL p) 0%Z).
Qed.
End Good.

(** * The claims *)

Lemma filter_length_le {A} (f : A -> bool) (l : list A) :
  length (List.filter f l) <= length l.
Proof. induction l as [|x l IH]; simpl; [lia|]. destruct (f x); simpl; lia. Qed.

(** C7. At no point of a run of [MangadexPages] are more than
    [maxJobsChapter] = 8 manifest fetches in flight, nor more than
    [maxJobsImage] = 16 image fetch-and-decode operations: the bound holds in
    every state that a schedule can reach.  The number of live workers of
    each stage is bounded in the same way. *)
Theorem C7_bounded_concurrency env chapterList s :
  Pages.reachable env chapterList s ->
  maxJobsChapter = 8 /\ maxJobsImage = 16 /\
  active_manifest_fetches s <= maxJobsChapter /\
  active_image_fetches s <= maxJobsImage /\
  length (pworkers (Pages.pstage s)) <= maxJobsChapter /\
  length (iworkers (Pages.istage s)) <= maxJobsImage.
Proof.
  intros Hs. apply pages_reachable_inv in Hs as [[Hp Hi] _ _ _ _ _ _ _].
  destruct Hp as (Hp & _). destruct Hi as (Hi & _).
  unfold active_manifest_fetches, active_image_fetches.
  pose proof (filter_length_le pw_fetching (pworkers (Pages.pstage s))).
  pose proof (filter_length_le iw_fetching (iworkers (Pages.istage s))).
  split_and!; try done; lia.
Qed.

(** A state with two manifest fetches in flight. *)
Lemma C7_bounded_concurrency_witness :
  exists s, Pages.reachable example_env chapters_AB s /\
    active_manifest_fetches s = 2 /\
    active_manifest_fetches s <= maxJobsChapter /\
    active_image_fetches s <= maxJobsImage.
Proof.
  pose (sched := [Pages.FeederSend; Pages.Paths DispSpawn; Pages.FeederIncrease;
                  Pages.FeederSend; Pages.Paths DispSpawn;
                  Pages.Paths (WorkerStep 0); Pages.Paths (WorkerStep 1)]).
  destruct (Pages.run example_env sched (Pages.init chapters_AB)) as [s|] eqn:Hrun;
    [|by vm_compute in Hrun].
  exists s.
  assert (Pages.reachable example_env chapters_AB s) as Hs by (by exists sched).
  split; [done|]. split.
  - vm_compute in Hrun. by simplify_eq.
  - destruct (C7_bounded_concurrency example_env chapters_AB s Hs)
      as (_ & _ & Hm & Hi & _).
    done.
Defined.

Lemma decoded_provenance env p :
  ImageItem.chapterID (decoded env p) = PathItem.chapterID p /\
  ImageItem.volumeID (decoded env p) = PathItem.volumeID p /\
  ImageItem.imageID (decoded env p) = PathItem.imageID p.
Proof. done. Qed.

(** C1. When every manifest of the chapter list resolves and every page of
    it is fetched and decoded, [MangadexPages] returns (no reachable state
    before the return is stuck, and no schedule is longer than the weight of
    the initial state), and what it returns is a list with no error that
    holds, up to order, exactly one image per page of all the chapters, each
    built by [WithImage] from its page and carrying the chapter, volume and
    page identifiers of that page. *)
Theorem C1_pages_one_image_per_page env (chapterList : ChapterList) :
  all_succeed env chapterList ->
  (forall s, Pages.reachable env chapterList s ->
     returned (Pages.main s) = false ->
     exists a s', Pages.step env a s = Some s') /\
  (forall sched s,
     Pages.run env sched (Pages.init chapterList) = Some s ->
     length sched <= pages_weight env (Pages.init chapterList)) /\
  (exists sched s r,
     Pages.run env sched (Pages.init chapterList) = Some s /\
     Pages.main s = MReturned r) /\
  forall s r,
    Pages.reachable env chapterList s -> Pages.main s = MReturned r ->
    exists results,
      r = (Some results, None) /\
      results ≡ₚ map (decoded env) (all_pages env chapterList) /\
      length results = length (all_pages env chapterList) /\
      forall it, it ∈ results ->
        exists p img,
          p ∈ all_pages env chapterList /\
          getImage env CtxLive (PathItem.URL p) 0%Z = Ok img /\
          it = PathItem.WithImage p img /\
          ImageItem.chapterID it = PathItem.chapterID p /\
          ImageItem.volumeID it = PathItem.volumeID p /\
          ImageItem.imageID it = PathItem.imageID p.
Proof.
  intros Hall. split_and!.
  - intros s Hs Hret. eapply pages_progress; eauto using pages_reachable_inv.
  - intros sched s Hrun. apply pages_run_weight in Hrun. lia.
  - destruct (pages_returns env chapterList (Pages.init chapterList)
                (pages_init_inv env chapterList)) as (sched & s & Hrun & Hret).
    destruct (Pages.main s) as [| | |r] eqn:Hm; try done.
    by exists sched, s, r.
  - intros s r Hs Hm.
    pose proof (pages_reachable_inv _ _ _ Hs) as Hinv.
    pose proof (pages_reachable_good _ _ _ Hall Hs) as (_ & _ & _ & Hnf & _).
    destruct (pages_returned_error _ _ _ _ Hinv Hm) as (-> & _ & _ & Hf).
    destruct (Pages.err s) as [e|] eqn:He.
    { destruct Hf as [_ Hf]. rewrite Hf in Hnf; [done|by eexists]. }
    destruct (pages_returned_clean _ _ _ _ Hinv Hm He) as [_ Hres].
    rewrite expected_images_decoded in Hres by done.
    exists (Pages.results s). split_and!; try done.
    + by rewrite Hres, length_map.
    + intros it Hit. rewrite Hres in Hit.
      apply list_elem_of_fmap in Hit as (p & -> & Hp).
      assert (page_succeeds env p) as Hok.
      { unfold all_pages in Hp. apply list_elem_of_In, in_flat_map in Hp
          as (c & Hc & Hp).
        apply list_elem_of_In in Hc.
        unfold all_succeed in Hall. rewrite Forall_forall in Hall.
        destruct (Hall _ Hc) as (ps & Hps & Hpages).
        unfold chapter_pages in Hp. rewrite Hps in Hp.
        rewrite Forall_forall in Hpages. apply Hpages.
        by apply list_elem_of_In. }
      unfold page_succeeds in Hok. unfold decoded.
      destruct (getImage env CtxLive (PathItem.URL p) 0%Z) as [img|] eqn:Hg;
        [|done].
      exists p, img. split_and!; done.
Qed.

(** Chapters A and B of the example catalog: five pages, five images. *)
Lemma C1_pages_one_image_per_page_witness :
  all_succeed example_env chapters_AB /\
  forall s r,
    Pages.reachable example_env chapters_AB s -> Pages.main s = MReturned r ->
    exists results, r = (Some results, None) /\ length results = 5.
Proof.
  assert (all_succeed example_env chapters_AB) as Hall.
  { unfold all_succeed, chapters_AB.
    apply List.Forall_cons; [|apply List.Forall_cons; [|apply List.Forall_nil]].
    - exists [example_page "a1" "A" 1; example_page "a2" "A" 2;
              example_page "a3" "A" 3].
      split; [reflexivity|].
      repeat first [apply List.Forall_nil | apply List.Forall_cons];
        by vm_compute.
    - exists [example_page "b1" "B" 1; example_page "b2" "B" 2].
      split; [reflexivity|].
      repeat first [apply List.Forall_nil | apply List.Forall_cons];
        by vm_compute. }
  split; [exact Hall|].
  intros s r Hs Hm.
  destruct (C1_pages_one_image_per_page example_env chapters_AB Hall)
    as (_ & _ & _ & Hret).
  destruct (Hret s r Hs Hm) as (results & Hr & _ & Hlen & _).
  exists results. split; [done|]. rewrite Hlen. reflexivity.
Defined.

(** C3, as stated, fails: in this run the caller is handed the "canceled"
    signal of the path stage, not the 404 of page n1 that caused it. *)
Lemma C3_counterexample_canceled_returned :
  Pages.main <$> Pages.run example_env schedule_N_canceled (Pages.init chapters_N)
  = Some (MReturned (None, Some Canceled)).
Proof. vm_compute. reflexivity. Qed.

(** C3, amended.  [MangadexPages] returns either the complete list of images
    and no error, or no list and exactly one error.  The error is the first
    one the groups have noted: it is the error of a failed fetch, wrapped with
    the identity of the chapter (and page), or it is the "canceled" signal
    of a goroutine that unwound; in both cases some goroutine of the run
    has failed. *)
Theorem C3_result_or_one_error env chapterList s r :
  Pages.reachable env chapterList s -> Pages.main s = MReturned r ->
  (exists results,
     r = (Some results, None) /\ results ≡ₚ expected_images env chapterList /\
     pages_failed s = false) \/
  (exists e,
     r = (None, Some e) /\ fatal_or_canceled e = true /\
     pages_failed s = true).
Proof.
  intros Hs Hm. pose proof (pages_reachable_inv _ _ _ Hs) as Hinv.
  destruct (pages_returned_error _ _ _ _ Hinv Hm) as (-> & _ & _ & Hf).
  destruct (Pages.err s) as [e|] eqn:He.
  - right. exists e. split_and!; [done| |apply Hf; by eexists].
    destruct Hinv as [_ _ _ _ _ Hw _ _]. destruct Hw as (_ & _ & Hok & _).
    by rewrite He in Hok.
  - left. destruct (pages_returned_clean _ _ _ _ Hinv Hm He) as [_ Hres].
    exists (Pages.results s). split_and!; try done.
    destruct (pages_failed s); [|done].
    destruct Hf as [Hf _]. by destruct (Hf eq_refl).
Qed.

(** The run on chapter N ends in the second case. *)
Lemma C3_result_or_one_error_witness :
  exists s,
    Pages.run example_env schedule_N_canceled (Pages.init chapters_N) = Some s /\
    Pages.main s = MReturned (None, Some Canceled) /\
    pages_failed s = true.
Proof.
  destruct (Pages.run example_env schedule_N_canceled (Pages.init chapters_N))
    as [s|] eqn:Hrun; [|by vm_compute in Hrun].
  exists s. split; [done|].
  assert (Pages.main s = MReturned (None, Some Canceled)) as Hm.
  { vm_compute in Hrun. by simplify_eq. }
  split; [done|].
  assert (Pages.reachable example_env chapters_N s) as Hs
    by (by exists schedule_N_canceled).
  destruct (C3_result_or_one_error example_env chapters_N s _ Hs Hm)
    as [(results & Hr & _)|(e & _ & _ & Hf)]; [done|exact Hf].
Defined.

Lemma count_calls_app f cs1 cs2 :
  count_calls f (cs1 ++ cs2) = count_calls f cs1 + count_calls f cs2.
Proof. apply sum_list_with_app. Qed.

Section Counting.
Variable env : Env.

Lemma chapter_calls_successful c :
  chapter_succeeds env c ->
  chapter_calls env c =
  Increase 1 (UChapter c) :: Add 1 (UChapter c) ::
  flat_map (fun p => [Increase 1 (UPage p); Add 1 (UImage (decoded env p))])
           (chapter_pages env c).
Proof.
  intros (ps & Hps & Hall).
  unfold chapter_calls, manifest_calls, chapter_pages. rewrite Hps.
  do 2 f_equal. clear Hps.
  induction Hall as [|p ps Hp _ IHps]; [done|].
  change (flat_map (page_calls env) (p :: ps))
    with (page_calls env p ++ flat_map (page_calls env) ps).
  rewrite IHps. simpl. unfold page_calls. simpl. f_equal.
  unfold image_calls, decoded, page_succeeds in *.
  by destruct (getImage env CtxLive (PathItem.URL p) 0%Z).
Qed.

Lemma expected_calls_successful l :
  all_succeed env l -> expected_calls env l = successful_calls env l.
Proof.
  unfold all_succeed, expected_calls, successful_calls.
  induction 1 as [|c l Hc _ IH]; [done|].
  change (flat_map (chapter_calls env) (c :: l))
    with (chapter_calls env c ++ flat_map (chapter_calls env) l).
  rewrite IH, (chapter_calls_successful _ Hc). done.
Qed.

Lemma successful_calls_counts l :
  count_calls chapter_discovered (successful_calls env l) = length l /\
  count_calls chapter_completed (successful_calls env l) = length l /\
  count_calls page_discovered (successful_calls env l)
    = length (all_pages env l) /\
  count_calls image_completed (successful_calls env l)
    = length (all_pages env l) /\
  count_calls is_discovered (successful_calls env l)
    = length l + length (all_pages env l) /\
  count_calls is_completed (successful_calls env l)
    = length l + length (all_pages env l).
Proof.
  assert (forall ps,
    let cs := flat_map (fun p => [Increase 1 (UPage p);
                                  Add 1 (UImage (decoded env p))]) ps in
    count_calls chapter_discovered cs = 0 /\
    count_calls chapter_completed cs = 0 /\
    count_calls page_discovered cs = length ps /\
    count_calls image_completed cs = length ps /\
    count_calls is_discovered cs = length ps /\
    count_calls is_completed cs = length ps) as Hpages.
  { induction ps as [|p ps IH]; [done|]. simpl in *.
    unfold count_calls in *. simpl. lia. }
  unfold successful_calls, all_pages.
  induction l as [|c l IH]; [done|].
  simpl. rewrite !length_app.
  specialize (Hpages (chapter_pages env c)). simpl in Hpages.
  unfold count_calls in *. simpl. rewrite !sum_list_with_app. lia.
Qed.
End Counting.

(** C4, as stated, fails on its own example: in a run on chapters A (three
    pages) and B (two pages) in which everything succeeds, the reporter is
    told of 2 chapters and 5 pages discovered, but of 7 units completed, not
    5: [chaptersToPaths] also calls [p.Add(1)] once per resolved chapter. *)
Lemma C4_counterexample_seven_completed :
  exists s results,
    Pages.run example_env schedule_AB (Pages.init chapters_AB) = Some s /\
    Pages.main s = MReturned (Some results, None) /\
    length results = 5 /\
    count_calls chapter_discovered (calls (Pages.log s)) = 2 /\
    count_calls page_discovered (calls (Pages.log s)) = 5 /\
    count_calls is_completed (calls (Pages.log s)) = 7 /\
    count_calls is_completed (calls (Pages.log s)) <> 5.
Proof.
  destruct (Pages.run example_env schedule_AB (Pages.init chapters_AB))
    as [s|] eqn:Hrun; [|by vm_compute in Hrun].
  vm_compute in Hrun. simplify_eq.
  eexists _, _. split; [reflexivity|]. split; [reflexivity|].
  by vm_compute.
Qed.

(** C4, amended.  In a run in which nothing fails, the reporter receives,
    up to order, exactly these calls: one "discovered" and one "completed"
    per chapter, one "discovered" per page and one "completed" per image
    produced.  So it counts as many chapters discovered and completed as the
    list has chapters, as many pages discovered and images completed as
    there are pages, and the completed calls are those of the chapters and
    of the images together: for chapters of 3 and 2 pages, 2 + 5 = 7. *)
Theorem C4_progress_calls env (chapterList : ChapterList) s r :
  all_succeed env chapterList ->
  Pages.reachable env chapterList s -> Pages.main s = MReturned r ->
  let cs := calls (Pages.log s) in
  cs ≡ₚ successful_calls env chapterList /\
  count_calls chapter_discovered cs = length chapterList /\
  count_calls page_discovered cs = length (all_pages env chapterList) /\
  count_calls chapter_completed cs = length chapterList /\
  count_calls image_completed cs = length (all_pages env chapterList) /\
  count_calls image_completed cs = length (Pages.results s) /\
  count_calls is_discovered cs
    = length chapterList + length (all_pages env chapterList) /\
  count_calls is_completed cs
    = length chapterList + length (all_pages env chapterList).
Proof.
  intros Hall Hs Hm cs.
  pose proof (pages_reachable_inv _ _ _ Hs) as Hinv.
  pose proof (pages_reachable_good _ _ _ Hall Hs) as (_ & _ & _ & Hnf & _).
  destruct (pages_returned_error _ _ _ _ Hinv Hm) as (-> & _ & _ & Hf).
  destruct (Pages.err s) as [e|] eqn:He.
  { destruct Hf as [_ Hf]. rewrite Hf in Hnf; [done|by eexists]. }
  destruct (pages_returned_clean _ _ _ _ Hinv Hm He) as [Hcalls Hres].
  rewrite expected_calls_successful in Hcalls by done.
  rewrite expected_images_decoded in Hres by done.
  destruct (successful_calls_counts env chapterList)
    as (H1 & H2 & H3 & H4 & H5 & H6).
  unfold count_calls in *. subst cs.
  rewrite Hcalls, Hres, length_map. split_and!; done.
Qed.

(** Chapters A and B: 2 + 5 calls of either kind. *)
Lemma C4_progress_calls_witness :
  all_succeed example_env chapters_AB /\
  exists s r,
    Pages.reachable example_env chapters_AB s /\ Pages.main s = MReturned r /\
    count_calls chapter_discovered (calls (Pages.log s)) = 2 /\
    count_calls page_discovered (calls (Pages.log s)) = 5 /\
    count_calls chapter_completed (calls (Pages.log s)) = 2 /\
    count_calls image_completed (calls (Pages.log s)) = 5 /\
    count_calls is_completed (calls (Pages.log s)) = 7.
Proof.
  assert (all_succeed example_env chapters_AB) as Hall.
  { unfold all_succeed, chapters_AB.
    apply List.Forall_cons; [|apply List.Forall_cons; [|apply List.Forall_nil]].
    - exists [example_page "a1" "A" 1; example_page "a2" "A" 2;
              example_page "a3" "A" 3].
      split; [reflexivity|].
      repeat first [apply List.Forall_nil | apply List.Forall_cons];
        by vm_compute.
    - exists [example_page "b1" "B" 1; example_page "b2" "B" 2].
      split; [reflexivity|].
      repeat first [apply List.Forall_nil | apply List.Forall_cons];
        by vm_compute. }
  split; [exact Hall|].
  destruct (Pages.run example_env schedule_AB (Pages.init chapters_AB))
    as [s|] eqn:Hrun; [|by vm_compute in Hrun].
  assert (Pages.reachable example_env chapters_AB s) as Hs
    by (by exists schedule_AB).
  assert (exists r, Pages.main s = MReturned r) as [r Hm].
  { vm_compute in Hrun. simplify_eq. by eexists. }
  exists s, r. split; [done|]. split; [done|].
  destruct (C4_progress_calls example_env chapters_AB s r Hall Hs Hm)
    as (_ & H1 & H2 & H3 & H4 & _ & _ & H6).
  rewrite H1, H2, H3, H4, H6. clear. by vm_compute.
Defined.

(** C5, as stated, fails for the second of two chapters whose manifests both
    fail: the fetch for Y was made and failed, the run fails, but the error
    returned names X only. *)
Lemma C5_counterexample_other_chapter_named :
  exists s e,
    Pages.run example_env schedule_XY (Pages.init chapters_XY) = Some s /\
    FetchPaths example_env CtxLive (example_chapter "Y")
      = Err (External "no manifest") /\
    In (FetchPathsCall CtxLive (example_chapter "Y")) (Pages.log s) /\
    Pages.main s = MReturned (None, Some e) /\
    e = ChapterPathsErr "X" (External "no manifest") /\
    names e "Y" = false.
Proof.
  destruct (Pages.run example_env schedule_XY (Pages.init chapters_XY))
    as [s|] eqn:Hrun; [|by vm_compute in Hrun].
  vm_compute in Hrun. simplify_eq.
  eexists _, _. split; [reflexivity|]. split; [reflexivity|].
  split; [simpl; tauto|]. split; [reflexivity|]. split; reflexivity.
Qed.

(** C5, amended.  For a chapter whose manifest resolution fails, whatever
    the state of the context it is answered under, no page locator is ever
    handed on, in any state of any run.  If the fetch for that chapter was
    made, the run fails: [MangadexPages] returns no list, hence no image of
    that chapter, and one error.  That error is the first the groups have
    noted: the wrapped error of some failed fetch, of this chapter or of
    another unit, or the "canceled" signal. *)
Theorem C5_failed_manifest env (chapterList : ChapterList) s c :
  Pages.reachable env chapterList s ->
  (forall ctx, is_ok (FetchPaths env ctx c) = false) ->
  (forall p, PathSent c p ∉ Pages.log s) /\
  (forall i ps, pworkers (Pages.pstage s) !! i ≠ Some (PEmit c ps)) /\
  (forall i p ps, pworkers (Pages.pstage s) !! i ≠ Some (PBlocked c p ps)) /\
  (forall ctx r,
     FetchPathsCall ctx c ∈ Pages.log s -> Pages.main s = MReturned r ->
     exists e, r = (None, Some e) /\ fatal_or_canceled e = true).
Proof.
  intros Hs Hc. pose proof (pages_reachable_inv _ _ _ Hs) as Hinv.
  split_and!.
  - intros p Hp. destruct Hinv as [_ _ _ _ _ _ Hlog _].
    destruct Hlog as (_ & Hsent & _).
    destruct (Hsent _ _ Hp) as (ctx & ps & Hps & _).
    specialize (Hc ctx). by rewrite Hps in Hc.
  - intros i ps Hw. destruct Hinv as [[Hp _] _ _ _ _ _ _ _].
    destruct Hp as (_ & _ & Hws & _).
    rewrite Forall_forall in Hws.
    apply list_elem_of_lookup_2, Hws in Hw.
    destruct Hw as (ctx & ps0 & Hps & _).
    specialize (Hc ctx). by rewrite Hps in Hc.
  - intros i p ps Hw. destruct Hinv as [[Hp _] _ _ _ _ _ _ _].
    destruct Hp as (_ & _ & Hws & _).
    rewrite Forall_forall in Hws.
    apply list_elem_of_lookup_2, Hws in Hw.
    destruct Hw as (ctx & ps0 & Hps & _).
    specialize (Hc ctx). by rewrite Hps in Hc.
  - intros ctx r Hcall Hm.
    destruct (pages_returned_error _ _ _ _ Hinv Hm) as (-> & Hpo & _ & Hf).
    destruct Hinv as [_ _ _ _ _ Hw Hlog _].
    destruct Hlog as (_ & _ & _ & Hfetch & _).
    assert (pages_failed s = true) as Hfail.
    { apply path_over_true in Hpo as [_ Hnil].
      destruct (Hfetch _ _ Hcall) as [[ctx' Hok]|[Hpf|Hin]].
      - by rewrite Hc in Hok.
      - unfold pages_failed. by rewrite Hpf.
      - rewrite Hnil in Hin. by apply elem_of_nil in Hin. }
    apply Hf in Hfail as [e He]. rewrite He. exists e. split; [done|].
    destruct Hw as (_ & _ & Hok & _). by rewrite He in Hok.
Qed.

(** Chapter Y in the run on X and Y. *)
Lemma C5_failed_manifest_witness :
  exists s e,
    Pages.reachable example_env chapters_XY s /\
    (forall ctx, is_ok (FetchPaths example_env ctx (example_chapter "Y")) = false) /\
    Pages.main s = MReturned (None, Some e) /\
    fatal_or_canceled e = true /\
    forall p, PathSent (example_chapter "Y") p ∉ Pages.log s.
Proof.
  destruct (Pages.run example_env schedule_XY (Pages.init chapters_XY))
    as [s|] eqn:Hrun; [|by vm_compute in Hrun].
  assert (Pages.reachable example_env chapters_XY s) as Hs
    by (by exists schedule_XY).
  assert (forall ctx, is_ok (FetchPaths example_env ctx (example_chapter "Y"))
                      = false) as Hc by (by intros []).
  destruct (C5_failed_manifest example_env chapters_XY s _ Hs Hc)
    as (Hsent & _ & _ & Hret).
  assert (FetchPathsCall CtxLive (example_chapter "Y") ∈ Pages.log s /\
          exists r, Pages.main s = MReturned r) as [Hcall [r Hm]].
  { vm_compute in Hrun. simplify_eq. split; [|by eexists].
    simpl. apply list_elem_of_In. simpl. tauto. }
  destruct (Hret _ r Hcall Hm) as (e & -> & He).
  exists s, e. split_and!; done.
Defined.

(** ** After cancel *)


Section AfterCancel.
Variable env : Env.












End AfterCancel.



(** ** getImage: status, retries *)

Section GetImageRetry.
Variable env : Env.
Variable ctx : Context.

Lemma uint_add1_small try : (0 <= try <= 11)%Z -> uint_add1 try = (try + 1)%Z.
Proof. intros. unfold uint_add1. apply Z.mod_small. lia. Qed.

Lemma getImage_status url try resp :
  NewRequest env url = None -> Do env ctx url try = Ok resp ->
  StatusCode resp <> 200%Z ->
  getImage env ctx url try = Err (StatusErr (Status resp)) /\
  getImage_requests env ctx url try = 1.
Proof.
  intros Hn Hd Hs. rewrite getImage_body, getImage_requests_body, Hn, Hd.
  apply Z.eqb_neq in Hs. by rewrite Hs.
Qed.

Lemma getImage_null_retry url try :
  null_at env ctx url try -> (try <= 10)%Z ->
  getImage env ctx url try = getImage env ctx url (uint_add1 try) /\
  getImage_requests env ctx url try
    = S (getImage_requests env ctx url (uint_add1 try)).
Proof.
  intros (err & Hn & resp & Hd & Hs & Hdec) Hle.
  rewrite getImage_body, getImage_requests_body, Hn, Hd, Hs, Hdec. simpl.
  destruct (decide ((None : Image) = None /\ (try <= 10)%Z)) as [_|Hno]; [done|].
  destruct Hno. done.
Qed.

Lemma getImage_last url try img err :
  decodes_to env ctx url try img err -> (10 < try)%Z ->
  getImage env ctx url try
    = match err with Some e => Err (DecodeErr e) | None => Ok img end /\
  getImage_requests env ctx url try = 1.
Proof.
  intros (Hn & resp & Hd & Hs & Hdec) Hlt.
  rewrite getImage_body, getImage_requests_body, Hn, Hd, Hs, Hdec. simpl.
  destruct (decide (img = None /\ (try <= 10)%Z)) as [[_ ?]|_]; [lia|done].
Qed.

(** An attempt that gives an image is the last one. *)
Lemma getImage_decoded url try bmp err :
  decodes_to env ctx url try (Some bmp) err ->
  getImage env ctx url try
    = match err with Some e => Err (DecodeErr e) | None => Ok (Some bmp) end /\
  getImage_requests env ctx url try = 1.
Proof.
  intros (Hn & resp & Hd & Hs & Hdec).
  rewrite getImage_body, getImage_requests_body, Hn, Hd, Hs, Hdec. simpl.
  destruct (decide ((Some bmp : Image) = None /\ (try <= 10)%Z)) as [[? _]|_]; done.
Qed.

(** Never more than twelve requests: the first and eleven retries. *)
Lemma getImage_requests_from url (n : nat) try :
  (0 <= try)%Z -> Z.to_nat (11 - try) = n ->
  getImage_requests env ctx url try <= S n.
Proof.
  revert try. induction n as [|n IH]; intros try H0 Hn.
  - rewrite getImage_requests_body.
    destruct (NewRequest env url); [lia|].
    destruct (Do env ctx url try) as [resp|]; [|lia].
    destruct (negb _); [lia|].
    destruct (Decode env (Body resp)) as [img err].
    destruct (decide (img = None /\ (try <= 10)%Z)) as [[_ Hle]|_]; [|lia].
    assert (try = 11 \/ try < 11)%Z as [->|?] by lia; [lia|lia].
  - rewrite getImage_requests_body.
    destruct (NewRequest env url); [lia|].
    destruct (Do env ctx url try) as [resp|]; [|lia].
    destruct (negb _); [lia|].
    destruct (Decode env (Body resp)) as [img err].
    destruct (decide (img = None /\ (try <= 10)%Z)) as [[_ Hle]|_]; [|lia].
    rewrite uint_add1_small by lia.
    specialize (IH (try + 1)%Z ltac:(lia) ltac:(lia)). lia.
Qed.

Lemma getImage_requests_bound url : getImage_requests env ctx url 0 <= 12.
Proof. by apply (getImage_requests_from url 11 0%Z). Qed.

(** When the image stays nil, all twelve attempts are made, and the outcome
    is that of the twelfth. *)
Lemma getImage_null_from url (n : nat) try :
  (0 <= try <= 11)%Z -> Z.to_nat (11 - try) = n ->
  (forall t, (try <= t <= 11)%Z -> null_at env ctx url t) ->
  getImage env ctx url try = getImage env ctx url 11 /\
  getImage_requests env ctx url try = S n.
Proof.
  revert try. induction n as [|n IH]; intros try H0 Hn Hnull.
  - assert (try = 11%Z) as -> by lia. split; [done|].
    destruct (Hnull 11%Z ltac:(lia)) as (err & Hdec).
    by destruct (getImage_last _ _ _ _ Hdec ltac:(lia)).
  - destruct (getImage_null_retry url try (Hnull try ltac:(lia)) ltac:(lia))
      as [-> ->].
    rewrite uint_add1_small by lia.
    destruct (IH (try + 1)%Z ltac:(lia) ltac:(lia)) as [-> ->]; [|done].
    intros t Ht. apply Hnull. lia.
Qed.

Lemma getImage_null_persists url err :
  (forall t, (0 <= t <= 11)%Z -> null_at env ctx url t) ->
  decodes_to env ctx url 11 None err ->
  getImage env ctx url 0
    = match err with Some e => Err (DecodeErr e) | None => Ok None end /\
  getImage_requests env ctx url 0 = 12.
Proof.
  intros Hnull Hlast.
  destruct (getImage_null_from url 11 0%Z ltac:(lia) eq_refl Hnull) as [-> ->].
  split; [|done]. by destruct (getImage_last _ _ _ _ Hlast ltac:(lia)).
Qed.
End GetImageRetry.

(** ** One image worker, from the fetch to the group *)

Section ImageWorkerFacts.
Variable env : Env.

(** A failed [getImage]: the worker wraps the error with the chapter and
    image identifiers of the page, calls [cancel], and returns the error to
    its group; it never gets to the handoff. *)
Lemma pages_image_failure s i p err :
  iworkers (Pages.istage s) !! i = Some (IFetching p) ->
  getImage env (context (Pages.canceled s)) (PathItem.URL p) 0%Z = Err err ->
  let e := ChapterImageErr (PathItem.ChapterIdentifier p)
                           (PathItem.ImageIdentifier p) err in
  exists s1 s2 s3,
    Pages.step env (Pages.Images (WorkerStep i)) s = Some s1 /\
    iworkers (Pages.istage s1) !! i = Some (IFailed p e) /\
    Pages.log s1 = Pages.log s /\
    Pages.step env (Pages.ImageHandoff i) s1 = None /\
    Pages.step env (Pages.Images (WorkerStep i)) s1 = Some s2 /\
    iworkers (Pages.istage s2) !! i = Some (IReturn p (Some e)) /\
    Pages.canceled s2 = true /\
    Pages.log s2 = Pages.log s ++ [CancelCalled] /\
    Pages.step env (Pages.ImageHandoff i) s2 = None /\
    Pages.step env (Pages.Images (WorkerStep i)) s2 = Some s3 /\
    ierr (Pages.istage s3) = record_err (ierr (Pages.istage s)) (Some e) /\
    Pages.log s3 = Pages.log s ++ [CancelCalled] /\
    Pages.main s3 = Pages.main s /\ Pages.results s3 = Pages.results s.
Proof.
  intros Hw Hg e.
  destruct s as [fe pst [id iws ie icl] pw iw er m rs cn lg]. simpl in *.
  assert (i < length iws) as Hi by (by eapply lookup_lt_Some).
  unfold Pages.step; simpl. unfold image_worker_step, image_send; simpl.
  rewrite Hw, Hg. simpl. eexists _, _, _.
  split; [reflexivity|]. simpl.
  rewrite !list_lookup_insert_eq by (by rewrite ?length_insert). simpl.
  split; [reflexivity|]. split; [by rewrite app_nil_r|].
  split; [by destruct m|]. split; [reflexivity|]. simpl.
  rewrite !list_lookup_insert_eq by (by rewrite ?length_insert). simpl.
  rewrite !app_nil_r, orb_true_r.
  split_and!; try reflexivity. all: try (by destruct m).
  simpl. by rewrite !app_nil_r.
Qed.

(** A successful [getImage]: the worker offers the image built by
    [WithImage]; when the collector takes it, it is appended to the results
    and counted as completed, and the worker returns nil. *)
Lemma pages_image_success s i p img :
  iworkers (Pages.istage s) !! i = Some (IFetching p) ->
  getImage env (context (Pages.canceled s)) (PathItem.URL p) 0%Z = Ok img ->
  Pages.main s = MRange ->
  let it := PathItem.WithImage p img in
  exists s1 s2 s3,
    Pages.step env (Pages.Images (WorkerStep i)) s = Some s1 /\
    iworkers (Pages.istage s1) !! i = Some (IEmit p img) /\
    Pages.log s1 = Pages.log s /\
    Pages.step env (Pages.ImageHandoff i) s1 = Some s2 /\
    Pages.main s2 = MGot it /\
    iworkers (Pages.istage s2) !! i = Some (IReturn p None) /\
    Pages.step env Pages.MainAppend s2 = Some s3 /\
    Pages.results s3 = Pages.results s ++ [it] /\
    Pages.log s3
      = Pages.log s ++ [ImageSent p it; Progress (Add 1 (UImage it))] /\
    Pages.canceled s3 = Pages.canceled s /\
    ierr (Pages.istage s3) = ierr (Pages.istage s).
Proof.
  intros Hw Hg Hm it.
  destruct s as [fe pst [id iws ie icl] pw iw er m rs cn lg]. simpl in *.
  subst m.
  assert (i < length iws) as Hi by (by eapply lookup_lt_Some).
  unfold Pages.step; simpl. unfold image_worker_step, image_send; simpl.
  rewrite Hw, Hg. simpl. eexists _, _, _.
  split; [reflexivity|]. simpl.
  rewrite !list_lookup_insert_eq by (by rewrite ?length_insert). simpl.
  split; [reflexivity|]. split; [by rewrite app_nil_r|].
  split; [reflexivity|]. simpl.
  rewrite !list_lookup_insert_eq by (by rewrite ?length_insert). simpl.
  split; [reflexivity|]. split; [reflexivity|]. split; [reflexivity|].
  simpl. rewrite !app_nil_r, !orb_false_r, <- !app_assoc. simpl.
  split_and!; reflexivity.
Qed.

(** A page whose fetch was entered and failed makes the run fail. *)
Lemma pages_image_failure_returned l s ctx p r :
  Pages.reachable env l s ->
  (forall ctx', is_ok (getImage env ctx' (PathItem.URL p) 0%Z) = false) ->
  GetImageCall ctx p ∈ Pages.log s -> Pages.main s = MReturned r ->
  exists e, r = (None, Some e) /\ fatal_or_canceled e = true.
Proof.
  intros Hs Hg Hcall Hm. pose proof (pages_reachable_inv _ _ _ Hs) as Hinv.
  destruct (pages_returned_error _ _ _ _ Hinv Hm) as (-> & _ & Hio & Hf).
  destruct Hinv as [_ _ _ _ _ Hw Hlog _].
  destruct Hlog as (_ & _ & _ & _ & Hget).
  assert (pages_failed s = true) as Hfail.
  { apply image_over_true in Hio as [_ Hnil].
    destruct (Hget _ _ Hcall) as [[ctx' Hok]|[Hpf|Hin]].
    - by rewrite Hg in Hok.
    - unfold pages_failed. rewrite Hpf. apply orb_true_r.
    - rewrite Hnil in Hin. by apply elem_of_nil in Hin. }
  apply Hf in Hfail as [e He]. rewrite He. exists e. split; [done|].
  destruct Hw as (_ & _ & Hok & _). by rewrite He in Hok.
Qed.

Lemma pages_image_never_sent l s p it :
  Pages.reachable env l s ->
  (forall ctx, is_ok (getImage env ctx (PathItem.URL p) 0%Z) = false) ->
  ImageSent p it ∉ Pages.log s.
Proof.
  intros Hs Hg Hin. apply pages_reachable_inv in Hs as [_ _ _ _ _ _ Hlog _].
  destruct Hlog as (_ & _ & Hisent & _).
  destruct (Hisent _ _ Hin) as (ctx & img & Himg & _).
  specialize (Hg ctx). by rewrite Himg in Hg.
Qed.
End ImageWorkerFacts.

(** C6. A page whose request is answered with a status other than 200:
    [getImage] returns the status error after that one request, without a
    retry; the worker wraps it with the chapter identifier and the image
    identifier of the page, calls [cancel] and hands the error to its group
    without ever offering an image.  With an HTTP client that refuses a
    request whose context is done, no image of that page is handed on in
    any run, and a run in which that fetch was entered returns an error. *)
Theorem C6_status_is_fatal env p resp :
  NewRequest env (PathItem.URL p) = None ->
  Do env CtxLive (PathItem.URL p) 0%Z = Ok resp ->
  StatusCode resp <> 200%Z ->
  let e := ChapterImageErr (PathItem.ChapterIdentifier p)
                           (PathItem.ImageIdentifier p)
                           (StatusErr (Status resp)) in
  getImage env CtxLive (PathItem.URL p) 0%Z = Err (StatusErr (Status resp)) /\
  getImage_requests env CtxLive (PathItem.URL p) 0%Z = 1 /\
  (forall s i,
     Pages.canceled s = false ->
     iworkers (Pages.istage s) !! i = Some (IFetching p) ->
     exists s1 s2 s3,
       Pages.step env (Pages.Images (WorkerStep i)) s = Some s1 /\
       iworkers (Pages.istage s1) !! i = Some (IFailed p e) /\
       Pages.step env (Pages.ImageHandoff i) s1 = None /\
       Pages.step env (Pages.Images (WorkerStep i)) s1 = Some s2 /\
       iworkers (Pages.istage s2) !! i = Some (IReturn p (Some e)) /\
       Pages.canceled s2 = true /\
       Pages.log s2 = Pages.log s ++ [CancelCalled] /\
       Pages.step env (Pages.ImageHandoff i) s2 = None /\
       Pages.step env (Pages.Images (WorkerStep i)) s2 = Some s3 /\
       ierr (Pages.istage s3) = record_err (ierr (Pages.istage s)) (Some e) /\
       Pages.results s3 = Pages.results s) /\
  (honours_context env ->
   (forall l s it, Pages.reachable env l s -> ImageSent p it ∉ Pages.log s) /\
   (forall l s ctx r,
      Pages.reachable env l s -> GetImageCall ctx p ∈ Pages.log s ->
      Pages.main s = MReturned r ->
      exists e', r = (None, Some e') /\ fatal_or_canceled e' = true)).
Proof.
  intros Hn Hd Hs e.
  destruct (getImage_status env _ _ _ _ Hn Hd Hs) as [Hg Hr].
  split_and!; try done.
  - intros s i Hc Hw.
    assert (getImage env (context (Pages.canceled s)) (PathItem.URL p) 0%Z
            = Err (StatusErr (Status resp))) as Hg' by (by rewrite Hc).
    destruct (pages_image_failure env s i p _ Hw Hg')
      as (s1 & s2 & s3 & H1 & H2 & _ & H3 & H4 & H5 & H6 & H7 & H8 & H9 &
          H10 & _ & _ & H11).
    exists s1, s2, s3. split_and!; done.
  - intros Hh.
    assert (forall ctx, is_ok (getImage env ctx (PathItem.URL p) 0%Z) = false)
      as Hno.
    { intros [|]; [by rewrite Hg|by apply getImage_refused]. }
    split.
    + intros l s it Hreach. by eapply pages_image_never_sent.
    + intros l s ctx r Hreach Hcall Hm. by eapply pages_image_failure_returned.
Qed.

(** Page n1 of the example catalog answers 404. *)
Lemma C6_status_is_fatal_witness :
  getImage example_env CtxLive (PathItem.URL page_n1) 0%Z
    = Err (StatusErr "404 Not Found") /\
  getImage_requests example_env CtxLive (PathItem.URL page_n1) 0%Z = 1 /\
  forall l s it,
    Pages.reachable example_env l s -> ImageSent page_n1 it ∉ Pages.log s.
Proof.
  assert (NewRequest example_env (PathItem.URL page_n1) = None) as Hn
    by reflexivity.
  assert (Do example_env CtxLive (PathItem.URL page_n1) 0%Z
          = Ok {| StatusCode := 404; Status := "404 Not Found"; Body := "" |})
    as Hd by reflexivity.
  assert (StatusCode {| StatusCode := 404; Status := "404 Not Found";
                        Body := "" |} <> 200%Z) as Hs by (simpl; lia).
  assert (honours_context example_env) as Hh by (split; reflexivity).
  destruct (C6_status_is_fatal example_env page_n1 _ Hn Hd Hs)
    as (Hg & Hr & _ & Hrun).
  destruct (Hrun Hh) as [Hsent _].
  split_and!; done.
Defined.

(** C10. When every attempt on a page decodes to the nil image with a nil
    error, [getImage] uses up its retries (twelve requests) and returns the
    nil image and no error; the worker then offers [WithImage] of the nil
    image like any other, and once the collector takes it, it is in the
    results and counted as completed, the worker returns nil, and [cancel]
    is not called. *)
Theorem C10_quirk_yields_nil_image env ctx p :
  (forall try, (0 <= try <= 11)%Z -> quirk_at env ctx (PathItem.URL p) try) ->
  let it := PathItem.WithImage p None in
  getImage env ctx (PathItem.URL p) 0%Z = Ok None /\
  getImage_requests env ctx (PathItem.URL p) 0%Z = 12 /\
  ImageItem.Image it = None /\
  forall s i,
    context (Pages.canceled s) = ctx ->
    iworkers (Pages.istage s) !! i = Some (IFetching p) ->
    Pages.main s = MRange ->
    exists s1 s2 s3,
      Pages.step env (Pages.Images (WorkerStep i)) s = Some s1 /\
      iworkers (Pages.istage s1) !! i = Some (IEmit p None) /\
      Pages.step env (Pages.ImageHandoff i) s1 = Some s2 /\
      Pages.main s2 = MGot it /\
      iworkers (Pages.istage s2) !! i = Some (IReturn p None) /\
      Pages.step env Pages.MainAppend s2 = Some s3 /\
      Pages.results s3 = Pages.results s ++ [it] /\
      Pages.log s3
        = Pages.log s ++ [ImageSent p it; Progress (Add 1 (UImage it))] /\
      Pages.canceled s3 = Pages.canceled s /\
      ierr (Pages.istage s3) = ierr (Pages.istage s).
Proof.
  intros Hq it.
  assert (forall t, (0 <= t <= 11)%Z -> null_at env ctx (PathItem.URL p) t)
    as Hnull.
  { intros t Ht. exists None. by apply Hq. }
  destruct (getImage_null_persists env ctx _ None Hnull (Hq 11%Z ltac:(lia)))
    as [Hg Hr].
  split_and!; try done.
  intros s i Hc Hw Hm. rewrite <- Hc in Hg.
  destruct (pages_image_success env s i p None Hw Hg Hm)
    as (s1 & s2 & s3 & H1 & H2 & _ & H3 & H4 & H5 & H6 & H7 & H8 & H9 & H10).
  exists s1, s2, s3. split_and!; done.
Qed.

(** Page q1 of the example catalog, and the whole run on chapter Q: the
    caller gets a list with one image whose bitmap is nil, and no error. *)
Lemma C10_quirk_yields_nil_image_witness :
  (forall try, (0 <= try <= 11)%Z ->
     quirk_at example_env CtxLive (PathItem.URL page_q1) try) /\
  getImage example_env CtxLive (PathItem.URL page_q1) 0%Z = Ok None /\
  getImage_requests example_env CtxLive (PathItem.URL page_q1) 0%Z = 12 /\
  Pages.main <$> Pages.run example_env (schedule_chapter 1 ++ schedule_drain)
                           (Pages.init chapters_Q)
  = Some (MReturned (Some [PathItem.WithImage page_q1 None], None)).
Proof.
  assert (forall try, (0 <= try <= 11)%Z ->
            quirk_at example_env CtxLive (PathItem.URL page_q1) try) as Hq.
  { intros try _. split; [reflexivity|]. eexists. split; [reflexivity|].
    split; reflexivity. }
  split; [exact Hq|].
  destruct (C10_quirk_yields_nil_image example_env CtxLive page_q1 Hq)
    as (Hg & Hr & _).
  split; [exact Hg|]. split; [exact Hr|].
  vm_compute. reflexivity.
Defined.

(** C2, as stated, fails on the page that always decodes to nil without an
    error: [getImage] makes twelve requests, one more than the first attempt
    and ten retries, and then returns the nil image with no error rather
    than a decode error. *)
Lemma C2_counterexample_twelve_requests_no_error :
  (forall try, quirk_at example_env CtxLive "q1" try) /\
  getImage_requests example_env CtxLive "q1" 0%Z = 12 /\
  ~ (getImage_requests example_env CtxLive "q1" 0%Z <= 1 + 10) /\
  getImage example_env CtxLive "q1" 0%Z = Ok None /\
  forall e, getImage example_env CtxLive "q1" 0%Z <> Err (DecodeErr e).
Proof.
  assert (getImage_requests example_env CtxLive "q1" 0%Z = 12) as Hr
    by (by vm_compute).
  assert (getImage example_env CtxLive "q1" 0%Z = Ok None) as Hg
    by (by vm_compute).
  split.
  { intros try. split; [reflexivity|]. eexists. split; [reflexivity|].
    split; reflexivity. }
  split; [exact Hr|]. split; [rewrite Hr; lia|]. split; [exact Hg|].
  intros e. rewrite Hg. discriminate.
Qed.

(** C2, amended.  [getImage] retries while the decoded image is nil and the
    counter is at most 10, so it never makes more than twelve requests: the
    first attempt and at most eleven more.  When the image is nil on all
    twelve attempts it gives up after the twelfth, and if the decoder
    reported an error on that last attempt the page fails with that decode
    error: the worker wraps it with the identity of the page, calls [cancel]
    and returns it to its group. *)
Theorem C2_retry_budget env ctx p :
  let url := PathItem.URL p in
  getImage_requests env ctx url 0%Z <= 1 + 11 /\
  ((forall try, (0 <= try <= 11)%Z -> null_at env ctx url try) ->
   getImage_requests env ctx url 0%Z = 1 + 11 /\
   forall err,
     decodes_to env ctx url 11 None (Some err) ->
     let e := ChapterImageErr (PathItem.ChapterIdentifier p)
                              (PathItem.ImageIdentifier p) (DecodeErr err) in
     getImage env ctx url 0%Z = Err (DecodeErr err) /\
     forall s i,
       context (Pages.canceled s) = ctx ->
       iworkers (Pages.istage s) !! i = Some (IFetching p) ->
       exists s1 s2,
         Pages.step env (Pages.Images (WorkerStep i)) s = Some s1 /\
         iworkers (Pages.istage s1) !! i = Some (IFailed p e) /\
         Pages.step env (Pages.Images (WorkerStep i)) s1 = Some s2 /\
         iworkers (Pages.istage s2) !! i = Some (IReturn p (Some e)) /\
         Pages.canceled s2 = true).
Proof.
  intros url. split; [apply getImage_requests_bound|].
  intros Hnull.
  destruct (Hnull 11%Z ltac:(lia)) as [err0 Hlast].
  destruct (getImage_null_persists env ctx url err0 Hnull Hlast) as [_ Hr].
  split; [exact Hr|]. intros err Herr e.
  destruct (getImage_null_persists env ctx url _ Hnull Herr) as [Hg _].
  split; [exact Hg|]. intros s i Hc Hw. rewrite <- Hc in Hg.
  destruct (pages_image_failure env s i p _ Hw Hg)
    as (s1 & s2 & _ & H1 & H2 & _ & _ & H3 & H4 & H5 & _).
  exists s1, s2. split_and!; done.
Qed.

(** Page d1 of the example catalog: no codec reads it, on any attempt. *)
Lemma C2_retry_budget_witness :
  (forall try, (0 <= try <= 11)%Z ->
     null_at example_env CtxLive (PathItem.URL page_d1) try) /\
  getImage_requests example_env CtxLive (PathItem.URL page_d1) 0%Z = 12 /\
  getImage example_env CtxLive (PathItem.URL page_d1) 0%Z
    = Err (DecodeErr (External "unknown format")).
Proof.
  assert (forall try, decodes_to example_env CtxLive (PathItem.URL page_d1) try
                        None (Some (External "unknown format"))) as Hd.
  { intros try. split; [reflexivity|]. eexists. split; [reflexivity|].
    split; reflexivity. }
  assert (forall try, (0 <= try <= 11)%Z ->
            null_at example_env CtxLive (PathItem.URL page_d1) try) as Hnull.
  { intros try _. eexists. apply Hd. }
  split; [exact Hnull|].
  destruct (C2_retry_budget example_env CtxLive page_d1) as [_ Hb].
  destruct (Hb Hnull) as [Hr Hf].
  split; [exact Hr|].
  by destruct (Hf _ (Hd 11%Z)).
Defined.

(** ** MangadexCovers: invariants *)

Ltac covers_cases H :=
  unfold Covers.step in H;
  repeat (first
    [ progress simplify_eq/=
    | match type of H with
      | context [image_step ?e ?a ?d ?c ?st] =>
          let Hp := fresh "Himage" in
          destruct (image_step e a d c st) as [[??]|] eqn:Hp
      | context [image_recv ?c ?st] =>
          let Hp := fresh "Hirecv" in
          destruct (image_recv c st) as [?|] eqn:Hp
      | context [image_send ?d ?c ?st] =>
          let Hp := fresh "Hisend" in
          destruct (image_send d c st) as [[[??]?]|] eqn:Hp
      | context [match ?x with _ => _ end] => destruct x eqn:?
      end ]).

Section CoversFacts.
Variable env : Env.

Lemma image_step_pending a d c st st' evs :
  image_step env a d c st = Some (st', evs) ->
  image_failed st' = false -> image_pending st' = image_pending st.
Proof.
  intros Hstep. destruct st as [dp ws pe cl]; simpl in *.
  destruct a; stage_cases Hstep; unfold image_failed, image_pending; simpl;
    try split_workers.
  all: rewrite ?existsb_app, ?sum_list_with_app; simpl.
  all: rewrite ?orb_true_r; try done; try lia.
  all: destruct e; simpl; rewrite ?orb_true_r; try done; lia.
Qed.

Lemma image_recv_pending p st st' :
  image_recv p st = Some st' -> image_pending st' = S (image_pending st).
Proof. intros Hstep. destruct st; by stage_cases Hstep. Qed.

Lemma image_send_pending d i st p it st' :
  image_send d i st = Some (p, it, st') ->
  image_pending st = S (image_pending st').
Proof.
  intros Hstep. destruct st; stage_cases Hstep; unfold image_pending; simpl.
  all: split_workers; lia.
Qed.

Lemma covers_step_inv covers a s s' :
  Covers.step env a s = Some s' ->
  covers_inv env covers s -> covers_inv env covers s'.
Proof.
  intros Hstep [Hst Hres Hcnt Hfut Hdr Hcan Hm].
  destruct s as [fe ist m rs cn lg]; simpl in *.
  destruct a; covers_cases Hstep.
  - (* FeederSend *)
    pose proof (image_recv_inv env _ _ _ Hirecv Hst).
    pose proof (image_recv_pending _ _ _ Hirecv) as Hp.
    pose proof (image_recv_over _ _ _ Hirecv) as Hov.
    pose proof (image_recv_closed _ _ _ Hirecv) as Hcl.
    pose proof (image_recv_ierr _ _ _ Hirecv) as Hie.
    apply image_recv_spec with (env := env) in Hirecv
      as (Hd & Hd' & Hf & Hfu & _).
    split; simpl.
    + done.
    + done.
    + rewrite Hf, Hp. intros Hnf. specialize (Hcnt Hnf). simpl in Hcnt. lia.
    + rewrite Hf. intros Hnf. rewrite <- (Hfut Hnf).
      unfold covers_future; simpl. rewrite Hfu. unfold page_calls.
      solve_Permutation.
    + by rewrite Hd'.
    + by rewrite Hf.
    + destruct m; try done.
      * by rewrite Hcl.
      * destruct Hm as [Hm _]. congruence.
  - (* FeederIncrease *)
    split; simpl.
    + done.
    + rewrite calls_app, images_added_app. simpl. by rewrite app_nil_r.
    + rewrite calls_app, images_added_app. simpl. rewrite app_nil_r.
      intros Hnf. specialize (Hcnt Hnf). simpl in Hcnt. lia.
    + intros Hnf. rewrite <- (Hfut Hnf), calls_app.
      unfold covers_future; simpl. solve_Permutation.
    + intros Hnf Hd. by specialize (Hdr Hnf Hd).
    + by rewrite orb_false_r.
    + by destruct m.
  - (* FeederClose *)
    split; simpl; done.
  - (* Images *)
    pose proof (image_step_no_image _ _ _ _ _ _ _ Himage) as Hno.
    assert (image_failed i = false ->
            cn = false \/ image_over ist = true) as Hlive.
    { intros Hnf.
      destruct (image_step_failed _ _ _ _ _ _ _ Himage Hnf) as [Hnf0 _].
      destruct cn; [right|by left].
      destruct (Hcan eq_refl) as [?|Hret]; [congruence|].
      destruct m; try done. by destruct Hm. }
    split; simpl.
    + eauto using image_step_inv.
    + by rewrite calls_app, images_added_app, Hno, app_nil_r.
    + intros Hnf.
      destruct (image_step_failed _ _ _ _ _ _ _ Himage Hnf) as [Hnf0 _].
      rewrite calls_app, images_added_app, Hno, app_nil_r.
      rewrite (image_step_pending _ _ _ _ _ _ Himage Hnf). auto.
    + intros Hnf.
      destruct (image_step_failed _ _ _ _ _ _ _ Himage Hnf) as [Hnf0 _].
      rewrite <- (Hfut Hnf0), calls_app. unfold covers_future; simpl.
      destruct (Hlive Hnf) as [->|Hio].
      * rewrite <- (image_step_future _ _ _ _ _ _ Himage Hnf).
        solve_Permutation.
      * destruct (image_step_over _ _ _ _ _ _ _ Himage Hio) as (Hio' & _ & ->).
        rewrite (image_over_future _ _ Hio), (image_over_future _ _ Hio').
        solve_Permutation.
    + intros Hnf Hd.
      destruct (image_step_failed _ _ _ _ _ _ _ Himage Hnf) as [Hnf0 _].
      destruct (image_step_clean _ _ _ _ _ _ _ Himage Hnf Hd) as [Hd0|Hc];
        [auto|].
      unfold Covers.covers_closed in Hc; simpl in Hc. by destruct fe.
    + intros Hc. destruct (image_failed i) eqn:Hnf; [by left|right].
      destruct (image_step_failed _ _ _ _ _ _ _ Himage Hnf) as [Hnf0 Hnc].
      rewrite Hnc, orb_false_r in Hc.
      destruct (Hcan Hc) as [?|?]; [congruence|done].
    + destruct m; try done.
      * eauto using image_step_closed.
      * destruct Hm as [Hov ->].
        destruct (image_step_over _ _ _ _ _ _ _ Himage Hov) as (? & -> & ->).
        done.
  - (* ImageHandoff *)
    destruct (image_send_inv env _ _ _ _ _ _ Hisend Hst) as [? _].
    pose proof (image_send_pending _ _ _ _ _ _ Hisend) as Hp.
    apply image_send_spec with (env := env) in Hisend as (Hd & Hf & Hfu & _).
    split; simpl.
    + done.
    + by rewrite calls_app, images_added_app, app_nil_r.
    + rewrite Hf, calls_app, images_added_app, app_nil_r. simpl.
      intros Hnf. specialize (Hcnt Hnf). simpl in Hcnt. lia.
    + rewrite Hf. intros Hnf. rewrite <- (Hfut Hnf), calls_app.
      unfold covers_future; simpl. rewrite Hfu. solve_Permutation.
    + by rewrite Hd, Hf.
    + rewrite Hf, orb_false_r. intros Hc. by destruct (Hcan Hc); [left|].
    + done.
  - (* MainAppend *)
    split; simpl.
    + done.
    + rewrite calls_app, images_added_app. simpl. by rewrite app_assoc.
    + rewrite calls_app, images_added_app, length_app. simpl.
      intros Hnf. specialize (Hcnt Hnf). simpl in Hcnt. lia.
    + intros Hnf. rewrite <- (Hfut Hnf), calls_app.
      unfold covers_future; simpl. solve_Permutation.
    + done.
    + intros Hc. by destruct (Hcan Hc); [left|].
    + done.
  - (* MainClosed *)
    split; simpl; done.
  - (* MainReturn *)
    split; simpl.
    + done.
    + by rewrite calls_app, images_added_app, app_nil_r.
    + rewrite calls_app, images_added_app, app_nil_r. simpl.
      intros Hnf. specialize (Hcnt Hnf). simpl in Hcnt. lia.
    + intros Hnf. rewrite <- (Hfut Hnf), calls_app.
      unfold covers_future; simpl. solve_Permutation.
    + done.
    + by right.
    + done.
Qed.

Lemma covers_start_inv covers : covers_inv env covers (Covers.start covers).
Proof.
  split; simpl.
  - unfold image_inv; simpl. unfold maxJobsImage. split_and!; auto with lia;
      done.
  - by rewrite app_nil_r.
  - intros _. unfold image_pending; simpl. lia.
  - intros _. unfold covers_future, image_future; simpl. by rewrite !app_nil_r.
  - done.
  - done.
  - done.
Qed.

Lemma covers_run_inv covers sched s s' :
  Covers.run env sched s = Some s' ->
  covers_inv env covers s -> covers_inv env covers s'.
Proof.
  revert s. induction sched as [|a sched IH]; intros s Hrun Hinv; simpl in Hrun.
  - by simplify_eq.
  - destruct (Covers.step env a s) as [s1|] eqn:Hstep; simpl in Hrun; [|done].
    eauto using covers_step_inv.
Qed.

(** Nothing moves after a failed [FetchCovers]. *)
Lemma covers_failed_stuck err a : Covers.step env a (Covers.failed err) = None.
Proof. by destruct a as [| | |[]| | | |]. Qed.

Lemma covers_run_failed err sched s :
  Covers.run env sched (Covers.failed err) = Some s -> s = Covers.failed err.
Proof.
  destruct sched as [|a sched]; simpl; [congruence|].
  by rewrite covers_failed_stuck.
Qed.
End CoversFacts.

Lemma covers_reachable_inv env manga covers s :
  FetchCovers env CtxLive (MangaInfo.ID (Manga.Info manga)) = Ok covers ->
  Covers.reachable env manga s -> covers_inv env covers s.
Proof.
  intros Hc [sched Hrun]. unfold Covers.init in Hrun. rewrite Hc in Hrun.
  eauto using covers_run_inv, covers_start_inv.
Qed.

(** C9. When [MangadexCovers] returns a list for a cover manifest of [n]
    locators, the list has [2 * n] entries: the first [n] are the zero
    values that [make(md.ImageList, len(covers))] put there (nil bitmap,
    empty provenance), and the [n] fetched cover images come after them. *)
Theorem C9_covers_twice_as_long env manga covers s results :
  FetchCovers env CtxLive (MangaInfo.ID (Manga.Info manga)) = Ok covers ->
  Covers.reachable env manga s ->
  Covers.main s = MReturned (Some results, None) ->
  let n := length covers in
  length results = 2 * n /\
  take n results = replicate n ImageItem.zero /\
  (forall i, i < n -> results !! i = Some ImageItem.zero) /\
  ImageItem.Image ImageItem.zero = None /\
  length (drop n results) = n /\
  drop n results ≡ₚ flat_map (page_images env) covers.
Proof.
  intros Hc Hs Hm n.
  destruct (covers_reachable_inv _ _ _ _ Hc Hs)
    as [Hst Hres Hcnt Hfut Hdr _ Hmain].
  rewrite Hm in Hmain. destruct Hmain as [Hov Hr].
  destruct (ierr (Covers.istage s)) as [e|] eqn:He; [done|].
  simpl in Hr. injection Hr as Hr.
  apply image_over_true in Hov as [Hd Hw].
  assert (image_failed (Covers.istage s) = false) as Hnf.
  { unfold image_failed. by rewrite Hd, Hw, He. }
  assert (Covers.feeder s = Covers.FClosed) as Hfe.
  { apply Hdr; [done|]. by rewrite Hd. }
  specialize (Hcnt Hnf). specialize (Hfut Hnf).
  unfold image_pending in Hcnt. rewrite Hm, Hd, Hw, Hfe in Hcnt. simpl in Hcnt.
  unfold covers_future, image_future in Hfut.
  rewrite Hfe, Hd, Hw, Hm in Hfut. simpl in Hfut. rewrite app_nil_r in Hfut.
  assert (length (replicate n ImageItem.zero) = n) as Hlen
    by apply length_replicate.
  subst results. rewrite Hres. fold n.
  split_and!.
  - rewrite length_app, length_replicate. lia.
  - rewrite take_app_length'; [done|by rewrite length_replicate].
  - intros i Hi. unfold ImageList.
    rewrite lookup_app_l by (rewrite length_replicate; lia).
    by apply lookup_replicate_2.
  - done.
  - rewrite drop_app_length' by (by rewrite length_replicate). lia.
  - rewrite drop_app_length' by (by rewrite length_replicate).
    rewrite <- images_added_pages. unfold images_added. by rewrite Hfut.
Qed.

(** The two covers of the example catalog: four entries, two of them zero. *)
Lemma C9_covers_twice_as_long_witness :
  exists s results,
    Covers.run example_env schedule_covers (Covers.init example_env example_manga)
      = Some s /\
    Covers.main s = MReturned (Some results, None) /\
    length results = 4 /\
    take 2 results = [ImageItem.zero; ImageItem.zero].
Proof.
  destruct (Covers.run example_env schedule_covers
              (Covers.init example_env example_manga)) as [s|] eqn:Hrun;
    [|by vm_compute in Hrun].
  assert (exists results, Covers.main s = MReturned (Some results, None))
    as [results Hm].
  { vm_compute in Hrun. injection Hrun as <-. by eexists. }
  assert (Covers.reachable example_env example_manga s) as Hs
    by (by exists schedule_covers).
  destruct (C9_covers_twice_as_long example_env example_manga
              [example_page "c1" "" 1; example_page "c2" "" 2] s results
              eq_refl Hs Hm) as (Hlen & Htake & _).
  exists s, results. split_and!; done.
Defined.

(** * Further properties of the pipelines *)

(** X1. [MangadexPages] returns, whatever the collaborators answer: in every
    state that a schedule can reach before the return some goroutine can
    move, no schedule is longer than the weight of the initial state, and
    from every reachable state some schedule runs on to the return. *)
Theorem pages_always_returns env (chapterList : ChapterList) :
  (forall s, Pages.reachable env chapterList s ->
     returned (Pages.main s) = false ->
     exists a s', Pages.step env a s = Some s') /\
  (forall sched s,
     Pages.run env sched (Pages.init chapterList) = Some s ->
     length sched <= pages_weight env (Pages.init chapterList)) /\
  (forall s, Pages.reachable env chapterList s ->
     exists sched s' r,
       Pages.run env sched s = Some s' /\ Pages.main s' = MReturned r).
Proof.
  split_and!.
  - intros s Hs Hret. eapply pages_progress; eauto using pages_reachable_inv.
  - intros sched s Hrun. apply pages_run_weight in Hrun. lia.
  - intros s Hs.
    destruct (pages_returns env chapterList s (pages_reachable_inv _ _ _ Hs))
      as (sched & s' & Hrun & Hret).
    destruct (Pages.main s') as [| | |r] eqn:Hm; try done.
    by exists sched, s', r.
Qed.

(** After the cancel in the run on X and A, the run can still be brought to
    its return. *)
Lemma pages_always_returns_witness :
  exists s sched s' r,
    Pages.run example_env schedule_XA_canceled (Pages.init chapters_XA) = Some s /\
    Pages.run example_env sched s = Some s' /\ Pages.main s' = MReturned r.
Proof.
  destruct (Pages.run example_env schedule_XA_canceled (Pages.init chapters_XA))
    as [s|] eqn:Hrun; [|by vm_compute in Hrun].
  assert (Pages.reachable example_env chapters_XA s) as Hs
    by (by exists schedule_XA_canceled).
  destruct (pages_always_returns example_env chapters_XA) as (_ & _ & Hret).
  destruct (Hret s Hs) as (sched & s' & r & Hrun' & Hm).
  exists s, sched, s', r. split; [reflexivity|]. split; [exact Hrun'|exact Hm].
Defined.

Section CoversTermination.
Variable env : Env.

Lemma covers_step_weight a s s' :
  Covers.step env a s = Some s' -> covers_weight s' < covers_weight s.
Proof.
  intros Hstep. unfold covers_weight. destruct s; simpl in *.
  destruct a; covers_cases Hstep; simpl; try lia.
  - apply image_recv_spec with (env := env) in Hirecv as (_ & _ & _ & _ & ->).
    lia.
  - apply image_step_weight in Himage. lia.
  - apply image_send_spec with (env := env) in Hisend as (_ & _ & _ & Hle).
    lia.
Qed.

Lemma covers_run_weight sched s s' :
  Covers.run env sched s = Some s' ->
  length sched + covers_weight s' <= covers_weight s.
Proof.
  revert s. induction sched as [|a sched IH]; intros s Hrun; simpl in *.
  - simplify_eq. lia.
  - destruct (Covers.step env a s) as [s1|] eqn:Hstep; simpl in Hrun; [|done].
    apply covers_step_weight in Hstep. apply IH in Hrun. lia.
Qed.

Ltac covers_can_do a :=
  exists a; unfold Covers.step, image_step, image_worker_step, image_send,
    image_recv; simpl;
  repeat case_match; simplify_eq/=; eauto; fail.

Lemma covers_progress covers s :
  covers_inv env covers s -> returned (Covers.main s) = false ->
  exists a s', Covers.step env a s = Some s'.
Proof.
  intros [His _ _ _ _ _ Hm] Hret.
  destruct s as [fe [id iws ie icl] m rs cn lg]. simpl in *.
  destruct m as [|it| |r]; [|covers_can_do Covers.MainAppend| |done].
  - destruct icl; [covers_can_do Covers.MainClosed|].
    destruct iws as [|w iws].
    2:{ destruct w; [covers_can_do (Covers.Images (WorkerStep 0))..| | |].
        - covers_can_do (Covers.ImageHandoff 0).
        - destruct cn; [covers_can_do (Covers.Images (WorkerCanceled 0))
                       |covers_can_do (Covers.ImageHandoff 0)].
        - covers_can_do (Covers.Images (WorkerStep 0)). }
    destruct id as [|p|e|]; [|covers_can_do (Covers.Images DispSpawn)
                             |covers_can_do (Covers.Images DispExit)
                             |covers_can_do (Covers.Images Close)].
    destruct cn; [covers_can_do (Covers.Images DispCanceled)|].
    destruct fe as [[|c cs]|c cs|].
    + covers_can_do Covers.FeederClose.
    + covers_can_do Covers.FeederSend.
    + covers_can_do Covers.FeederIncrease.
    + covers_can_do (Covers.Images DispClosed).
  - destruct His as (_ & Hicl & _). destruct (Hicl Hm) as [Hid Hiws].
    simpl in Hid, Hiws. subst id iws.
    covers_can_do Covers.MainReturn.
Qed.

Lemma covers_returns covers s :
  covers_inv env covers s ->
  exists sched s', Covers.run env sched s = Some s' /\
                   returned (Covers.main s') = true.
Proof.
  remember (covers_weight s) as n eqn:Hn.
  revert s Hn. induction (lt_wf n) as [n _ IH]. intros s -> Hinv.
  destruct (returned (Covers.main s)) eqn:Hret.
  { exists [], s. done. }
  destruct (covers_progress _ _ Hinv Hret) as (a & s1 & Hstep).
  destruct (IH (covers_weight s1)
              (covers_step_weight _ _ _ Hstep) s1 eq_refl
              (covers_step_inv _ _ _ _ _ Hstep Hinv))
    as (sched & s' & Hrun & Hret').
  exists (a :: sched), s'. simpl. rewrite Hstep. done.
Qed.
End CoversTermination.

(** X2. [MangadexCovers] returns, whatever the collaborators answer: after a
    failed [FetchCovers] it has returned at once; otherwise some goroutine
    can move in every state reached before the return, no schedule is longer
    than the weight of the initial state, and from every reachable state
    some schedule runs on to the return. *)
Theorem covers_always_returns env manga :
  (forall s, Covers.reachable env manga s ->
     returned (Covers.main s) = false ->
     exists a s', Covers.step env a s = Some s') /\
  (forall sched s,
     Covers.run env sched (Covers.init env manga) = Some s ->
     length sched <= covers_weight (Covers.init env manga)) /\
  (forall s, Covers.reachable env manga s ->
     exists sched s' r,
       Covers.run env sched s = Some s' /\ Covers.main s' = MReturned r).
Proof.
  destruct (FetchCovers env CtxLive (MangaInfo.ID (Manga.Info manga)))
    as [covers|err] eqn:Hc.
  - split_and!.
    + intros s Hs Hret.
      eapply covers_progress; eauto using covers_reachable_inv.
    + intros sched s Hrun. apply covers_run_weight in Hrun. lia.
    + intros s Hs.
      destruct (covers_returns env covers s
                  (covers_reachable_inv _ _ _ _ Hc Hs))
        as (sched & s' & Hrun & Hret).
      destruct (Covers.main s') as [| | |r] eqn:Hm; try done.
      by exists sched, s', r.
  - assert (forall s, Covers.reachable env manga s -> s = Covers.failed err)
      as Hfailed.
    { intros s [sched Hrun]. unfold Covers.init in Hrun. rewrite Hc in Hrun.
      by eapply covers_run_failed. }
    split_and!.
    + intros s Hs Hret. by rewrite (Hfailed s Hs) in Hret.
    + intros sched s Hrun. apply covers_run_weight in Hrun. lia.
    + intros s Hs. rewrite (Hfailed s Hs).
      by exists [], (Covers.failed err), (None, Some err).
Qed.

(** The empty schedule: from the start of the run on the example catalog
    some schedule leads to the return. *)
Lemma covers_always_returns_witness :
  exists sched s' r,
    Covers.run example_env sched (Covers.init example_env example_manga)
      = Some s' /\
    Covers.main s' = MReturned r.
Proof.
  destruct (covers_always_returns example_env example_manga) as (_ & _ & Hret).
  apply Hret. by exists [].
Defined.

(** ** getImage: what the retries leave behind *)

Section GetImageAttempts.
Variable env : Env.
Variable ctx : Context.

Lemma getImage_skip_null url (k j : nat) :
  k <= 11 -> j <= k ->
  (forall t : nat, t < k -> null_at env ctx url (Z.of_nat t)) ->
  getImage env ctx url (Z.of_nat (k - j)) = getImage env ctx url (Z.of_nat k) /\
  getImage_requests env ctx url (Z.of_nat (k - j))
    = j + getImage_requests env ctx url (Z.of_nat k).
Proof.
  intros Hk Hj Hnull. induction j as [|j IH]; [by rewrite Nat.sub_0_r|].
  destruct IH as [IH1 IH2]; [lia|].
  destruct (getImage_null_retry env ctx url (Z.of_nat (k - S j)))
    as [Hg Hr]; [apply Hnull; lia|lia|].
  rewrite uint_add1_small in Hg, Hr by lia.
  replace (Z.of_nat (k - S j) + 1)%Z with (Z.of_nat (k - j)) in Hg, Hr by lia.
  rewrite Hg, Hr, IH1, IH2. split; [done|lia].
Qed.

Lemma getImage_requests_null_from url (n : nat) try (t : nat) :
  (0 <= try)%Z -> Z.to_nat (12 - try) <= n ->
  S t < getImage_requests env ctx url try ->
  null_at env ctx url (try + Z.of_nat t).
Proof.
  revert try t. induction n as [|n IH]; intros try t H0 Hn.
  all: rewrite getImage_requests_body.
  all: destruct (NewRequest env url) eqn:Hnew; [lia|].
  all: destruct (Do env ctx url try) as [resp|] eqn:Hdo; [|lia].
  all: destruct (StatusCode resp =? 200)%Z eqn:Hst; simpl; [|lia].
  all: destruct (Decode env (Body resp)) as [img err] eqn:Hdec.
  all: destruct (decide (img = None /\ (try <= 10)%Z)) as [[-> Hle]|_]; [|lia].
  - lia.
  - intros Ht.
    assert (null_at env ctx url try) as Hnull.
    { exists err. split; [done|]. exists resp. split; [done|].
      split; [by apply Z.eqb_eq|done]. }
    destruct t as [|t]; [by rewrite Z.add_0_r|].
    rewrite uint_add1_small in Ht by lia.
    replace (try + Z.of_nat (S t))%Z with ((try + 1) + Z.of_nat t)%Z by lia.
    apply IH; lia.
Qed.
End GetImageAttempts.

(** X3. The retry is invisible in the result: when the first [k] attempts on a
    page (at most eleven) decode to the nil image and the next one decodes
    to an image without an error, [getImage] returns that image, after
    [k + 1] requests. *)
Theorem getImage_retry_until_image env ctx url (k : nat) bmp :
  k <= 11 ->
  (forall t : nat, t < k -> null_at env ctx url (Z.of_nat t)) ->
  decodes_to env ctx url (Z.of_nat k) (Some bmp) None ->
  getImage env ctx url 0%Z = Ok (Some bmp) /\
  getImage_requests env ctx url 0%Z = S k.
Proof.
  intros Hk Hnull Hdec.
  destruct (getImage_skip_null env ctx url k k Hk (le_n k) Hnull) as [Hg Hr].
  rewrite Nat.sub_diag in Hg, Hr. change (Z.of_nat 0) with 0%Z in Hg, Hr.
  destruct (getImage_decoded env ctx url _ _ _ Hdec) as [Hg' Hr'].
  rewrite Hg, Hr, Hg', Hr'. split; [done|lia].
Qed.

(** Three unreadable bodies, then the page. *)
Lemma getImage_retry_until_image_witness :
  getImage example_flaky_env CtxLive "a1" 0%Z = Ok (Some [2%Z]) /\
  getImage_requests example_flaky_env CtxLive "a1" 0%Z = 4.
Proof.
  apply (getImage_retry_until_image example_flaky_env CtxLive "a1" 3 [2%Z]).
  - lia.
  - intros t Ht. exists (Some (External "unknown format")).
    split; [reflexivity|]. eexists. split; [reflexivity|].
    split; [reflexivity|].
    assert (t = 0 \/ t = 1 \/ t = 2) as Ht' by lia.
    destruct Ht' as [-> | [-> | ->]]; reflexivity.
  - split; [reflexivity|]. eexists. split; [reflexivity|].
    split; reflexivity.
Defined.

(** X4. [getImage] asks again only after a nil image: every request but the
    last was answered with status 200 and a body that decoded to the nil
    image.  A request that cannot be prepared, a transport error, a status
    other than 200 and an image all end the call at once. *)
Theorem getImage_retries_only_after_nil env ctx url (t : nat) :
  S t < getImage_requests env ctx url 0%Z ->
  null_at env ctx url (Z.of_nat t).
Proof.
  intros Ht.
  apply (getImage_requests_null_from env ctx url 12 0%Z t); [lia|lia|done].
Qed.

(** The page that never decodes: twelve requests, so the sixth was answered
    with a nil image. *)
Lemma getImage_retries_only_after_nil_witness :
  getImage_requests example_env CtxLive "q1" 0%Z = 12 /\
  null_at example_env CtxLive "q1" 5.
Proof.
  assert (getImage_requests example_env CtxLive "q1" 0%Z = 12) as Hr
    by (by vm_compute).
  split; [exact Hr|].
  apply (getImage_retries_only_after_nil example_env CtxLive "q1" 5).
  rewrite Hr. lia.
Defined.

(** ** MangadexCovers: the manifest, the progress calls *)



Lemma page_calls_counts env (ps : PathList) :
  let cs := flat_map (page_calls env) ps in
  count_calls page_discovered cs = length ps /\
  count_calls is_discovered cs = length ps /\
  count_calls is_completed cs = count_calls image_completed cs.
Proof.
  induction ps as [|p ps (IH1 & IH2 & IH3)]; [done|].
  change (flat_map (page_calls env) (p :: ps))
    with (page_calls env p ++ flat_map (page_calls env) ps).
  simpl in *. rewrite !count_calls_app, IH1, IH2, IH3.
  unfold page_calls, image_calls.
  by destruct (getImage env CtxLive (PathItem.URL p) 0).
Qed.

Lemma count_image_completed cs :
  count_calls image_completed cs = length (images_added cs).
Proof.
  induction cs as [|[n u|n u] cs IH]; [done|done|].
  unfold count_calls in *. destruct u; simpl; rewrite ?IH; done.
Qed.

Lemma page_images_all env (ps : PathList) :
  length (flat_map (page_images env) ps) <= length ps /\
  (length (flat_map (page_images env) ps) = length ps ->
   Forall (page_succeeds env) ps).
Proof.
  induction ps as [|p ps [IH1 IH2]]; [done|].
  change (flat_map (page_images env) (p :: ps))
    with (page_images env p ++ flat_map (page_images env) ps).
  rewrite length_app. unfold page_images at 1 3, page_succeeds at 1.
  destruct (getImage env CtxLive (PathItem.URL p) 0) eqn:Hg; simpl.
  - split; [lia|]. intros Hlen. apply Forall_cons. split.
    + unfold page_succeeds. by rewrite Hg.
    + apply IH2. lia.
  - split; [lia|]. intros Hlen. lia.
Qed.

(** X6. When [MangadexCovers] returns a list, the progress bar has been told of
    one unit discovered and one unit completed per cover, and of nothing
    else; every cover was fetched and decoded under the live context. *)
Theorem covers_progress_calls env manga covers s results :
  FetchCovers env CtxLive (MangaInfo.ID (Manga.Info manga)) = Ok covers ->
  Covers.reachable env manga s ->
  Covers.main s = MReturned (Some results, None) ->
  let cs := calls (Covers.log s) in
  cs ≡ₚ flat_map (page_calls env) covers /\
  count_calls page_discovered cs = length covers /\
  count_calls image_completed cs = length covers /\
  count_calls is_discovered cs = length covers /\
  count_calls is_completed cs = length covers /\
  Forall (page_succeeds env) covers.
Proof.
  intros Hc Hs Hm cs.
  destruct (covers_reachable_inv _ _ _ _ Hc Hs)
    as [Hst Hres Hcnt Hfut Hdr _ Hmain].
  rewrite Hm in Hmain. destruct Hmain as [Hov Hr].
  destruct (ierr (Covers.istage s)) as [e|] eqn:He; [done|].
  apply image_over_true in Hov as [Hd Hw].
  assert (image_failed (Covers.istage s) = false) as Hnf.
  { unfold image_failed. by rewrite Hd, Hw, He. }
  assert (Covers.feeder s = Covers.FClosed) as Hfe.
  { apply Hdr; [done|]. by rewrite Hd. }
  specialize (Hcnt Hnf). specialize (Hfut Hnf).
  unfold image_pending in Hcnt. rewrite Hm, Hd, Hw, Hfe in Hcnt. simpl in Hcnt.
  unfold covers_future, image_future in Hfut.
  rewrite Hfe, Hd, Hw, Hm in Hfut. simpl in Hfut. rewrite app_nil_r in Hfut.
  fold cs in Hfut, Hcnt.
  destruct (page_calls_counts env covers) as (Hpd & Hdis & Hcom).
  simpl in Hpd, Hdis, Hcom.
  assert (count_calls image_completed cs = length covers) as H2.
  { rewrite count_image_completed. lia. }
  assert (count_calls image_completed (flat_map (page_calls env) covers)
          = length covers) as H2'.
  { rewrite <- H2. unfold count_calls. by rewrite Hfut. }
  split_and!; try done.
  - unfold count_calls in *. by rewrite Hfut.
  - unfold count_calls in *. by rewrite Hfut.
  - unfold count_calls in *. rewrite Hfut. lia.
  - apply page_images_all. rewrite <- images_added_pages.
    by rewrite <- count_image_completed.
Qed.

(** The two covers of the example catalog. *)
Lemma covers_progress_calls_witness :
  exists s results,
    Covers.run example_env schedule_covers (Covers.init example_env example_manga)
      = Some s /\
    Covers.main s = MReturned (Some results, None) /\
    count_calls is_discovered (calls (Covers.log s)) = 2 /\
    count_calls is_completed (calls (Covers.log s)) = 2.
Proof.
  destruct (Covers.run example_env schedule_covers
              (Covers.init example_env example_manga)) as [s|] eqn:Hrun;
    [|by vm_compute in Hrun].
  assert (exists results, Covers.main s = MReturned (Some results, None))
    as [results Hm].
  { vm_compute in Hrun. injection Hrun as <-. by eexists. }
  assert (Covers.reachable example_env example_manga s) as Hs
    by (by exists schedule_covers).
  destruct (covers_progress_calls example_env example_manga
              [example_page "c1" "" 1; example_page "c2" "" 2] s results
              eq_refl Hs Hm) as (_ & _ & _ & H3 & H4 & _).
  exists s, results. split_and!; done.
Defined.

(** ** The feeder after a failure *)

Section FeederLeft.
Variable env : Env.

Lemma pages_step_returned a s s' r c cs :
  Pages.step env a s = Some s' ->
  path_over (Pages.pstage s) = true ->
  Pages.main s = MReturned r -> Pages.feeder s = Pages.FSend (c :: cs) ->
  path_over (Pages.pstage s') = true /\
  Pages.main s' = MReturned r /\ Pages.feeder s' = Pages.FSend (c :: cs).
Proof.
  intros Hstep. destruct s; simpl in *.
  destruct a; pages_cases Hstep; simpl; try done.
  - intros Hov. by rewrite (path_recv_over _ _ _ Hprecv) in Hov.
  - intros Hov. by destruct (path_step_over _ _ _ _ _ _ _ Hpath Hov) as (? & _).
  - intros Hov. by rewrite (path_send_over _ _ _ _ _ _ Hpsend) in Hov.
Qed.

Lemma pages_run_returned sched s s' r c cs :
  Pages.run env sched s = Some s' ->
  path_over (Pages.pstage s) = true ->
  Pages.main s = MReturned r -> Pages.feeder s = Pages.FSend (c :: cs) ->
  Pages.main s' = MReturned r /\ Pages.feeder s' = Pages.FSend (c :: cs).
Proof.
  revert s. induction sched as [|a sched IH]; intros s Hrun Hov Hm Hf;
    simpl in Hrun.
  - by simplify_eq.
  - destruct (Pages.step env a s) as [s1|] eqn:Hstep; simpl in Hrun; [|done].
    destruct (pages_step_returned _ _ _ _ _ _ Hstep Hov Hm Hf) as (? & ? & ?).
    eauto.
Qed.
End FeederLeft.

(** X7. The feeder goroutine has no way out of [chapters <- chapter] but the
    receive of the path dispatcher.  When [MangadexPages] has returned
    while a chapter is still to be sent, which happens only with an error,
    the feeder stays where it is in whatever follows: it is never
    unblocked. *)
Theorem pages_feeder_left_blocked env chapterList s r c cs sched s' :
  Pages.reachable env chapterList s ->
  Pages.main s = MReturned r -> Pages.feeder s = Pages.FSend (c :: cs) ->
  Pages.run env sched s = Some s' ->
  (exists e, r = (None, Some e)) /\
  Pages.step env Pages.FeederSend s' = None /\
  Pages.feeder s' = Pages.FSend (c :: cs) /\ Pages.main s' = MReturned r.
Proof.
  intros Hs Hm Hf Hrun. pose proof (pages_reachable_inv _ _ _ Hs) as Hinv.
  destruct (pages_returned_error _ _ _ _ Hinv Hm) as (Hr & Hpo & _ & Hfail).
  destruct (pages_run_returned _ _ _ _ _ _ _ Hrun Hpo Hm Hf) as [Hm' Hf'].
  split_and!; try done.
  - destruct (Pages.err s) as [e|] eqn:He; [exists e; by rewrite Hr|].
    exfalso.
    assert (pages_failed s = false) as Hnf.
    { destruct (pages_failed s); [|done].
      destruct Hfail as [Hfail _]. by destruct (Hfail eq_refl). }
    destruct Hinv as [_ _ _ _ Hdr _ _ _]. destruct Hdr as (Hfeed & _).
    apply orb_false_iff in Hnf as [Hnf _].
    apply path_over_true in Hpo as [Hpd _].
    rewrite Hfeed in Hf; [done|done|by rewrite Hpd].
  - assert (Pages.reachable env chapterList s') as Hs'.
    { destruct Hs as [sched0 Hrun0]. exists (sched0 ++ sched).
      by rewrite pages_run_app, Hrun0. }
    pose proof (pages_reachable_inv _ _ _ Hs') as Hinv'.
    destruct (pages_returned_error _ _ _ _ Hinv' Hm') as (_ & Hpo' & _).
    unfold Pages.step. rewrite Hf'.
    destruct (path_recv c (Pages.pstage s')) eqn:Hrecv; [|done].
    by rewrite (path_recv_over _ _ _ Hrecv) in Hpo'.
Qed.

(** The run on X and A: chapter A is never sent. *)
Lemma pages_feeder_left_blocked_witness :
  exists s r,
    Pages.run example_env schedule_XA_failed (Pages.init chapters_XA) = Some s /\
    Pages.main s = MReturned r /\
    r = (None, Some (ChapterPathsErr "X" (External "no manifest"))) /\
    Pages.feeder s = Pages.FSend [example_chapter "A"] /\
    Pages.step example_env Pages.FeederSend s = None.
Proof.
  destruct (Pages.run example_env schedule_XA_failed (Pages.init chapters_XA))
    as [s|] eqn:Hrun; [|by vm_compute in Hrun].
  assert (Pages.reachable example_env chapters_XA s) as Hs
    by (by exists schedule_XA_failed).
  assert (Pages.main s
          = MReturned (None, Some (ChapterPathsErr "X" (External "no manifest"))) /\
          Pages.feeder s = Pages.FSend [example_chapter "A"]) as [Hm Hf].
  { vm_compute in Hrun. by simplify_eq. }
  destruct (pages_feeder_left_blocked example_env chapters_XA s _ _ _ [] s
              Hs Hm Hf eq_refl) as (_ & Hno & _).
  exists s, (None, Some (ChapterPathsErr "X" (External "no manifest"))).
  split_and!; done.
Defined.
